(** * AutoEq: the frequency-response pipeline of [frequency_response.py]

    A shallow embedding of the class [FrequencyResponse] and of the
    parametric-equalizer initialisation and optimisation loop.

    Numbers.  The program computes with IEEE floats.  The frequency grid
    only divides, multiplies, compares and rounds, so it is modelled on
    exact rationals [Q] and runs inside Rocq.  Everything that goes
    through [log10], [sqrt], [expit] is modelled on the real numbers [R]
    with the real functions of the Standard Library; the optimisation
    loop only compares and subtracts losses and is modelled on [Q].
    Rounding error of the floats is outside the model.

    Library code.  [scipy.signal.savgol_filter], [scipy.signal.find_peaks],
    [InterpolatedUnivariateSpline] and the TensorFlow session are not part
    of the repository: the functions that call them take them as
    parameters. *)

From Stdlib Require Import String.
From Stdlib Require Import ZArith QArith Qround List Bool Lia.
From Stdlib Require Import Reals Lra.
From Stdlib Require Lqa.
From Stdlib Require Permutation Sorted.
Import ListNotations.

(** ** Exceptions and results *)

(** The Python exceptions the modelled code can raise. *)
Inductive exn : Type :=
| ValueError (msg : string)
| IndexError
| TypeError
| ZeroDivisionError.

Inductive result (A : Type) : Type :=
| Ok (a : A)
| Raise (e : exn).
Arguments Ok {A} a.
Arguments Raise {A} e.

Definition bind {A B : Type} (r : result A) (k : A -> result B) : result B :=
  match r with
  | Ok a => k a
  | Raise e => Raise e
  end.

Notation "x <- r ;; k" := (bind r (fun x => k))
  (at level 61, r at next level, right associativity).

(** ** The frequency grid *)

Module Grid.
Local Open Scope Q_scope.

(** [int(round(f))]: Python rounds halves to the even neighbour. *)
Definition py_round (x : Q) : Z :=
  let n := Qfloor x in
  match Qcompare (x - inject_Z n) (1 # 2) with
  | Lt => n
  | Gt => (n + 1)%Z
  | Eq => if Z.even n then n else (n + 1)%Z
  end.

Definition Qltb (a b : Q) : bool := negb (Qle_bool b a).

(** [np.min([20000, f_max])] *)
Definition start_frequency (f_max : Q) : Q :=
  if Qle_bool 20000 f_max then 20000 else f_max.

(** [while f > f_min: freq_new.append(int(round(f))); f = f / f_step].
    The loop need not terminate (take [f_step = 1]); [fuel] bounds the
    number of iterations and [None] means the bound was reached. *)
Fixpoint loop_down (fuel : nat) (f_min f_step f : Q) (freq_new : list Z)
  : option (list Z) :=
  if Qltb f_min f then
    match fuel with
    | O => None
    | S fuel' =>
        loop_down fuel' f_min f_step (f / f_step) (freq_new ++ [py_round f])
    end
  else Some freq_new.

(** [while f < f_max: freq_new.append(int(round(f))); f = f * f_step] *)
Fixpoint loop_up (fuel : nat) (f_max f_step f : Q) (freq_new : list Z)
  : option (list Z) :=
  if Qltb f f_max then
    match fuel with
    | O => None
    | S fuel' =>
        loop_up fuel' f_max f_step (f * f_step) (freq_new ++ [py_round f])
    end
  else Some freq_new.

(** [sorted(set(freq_new))]: insertion into a strictly increasing list. *)
Fixpoint insert_uniq (x : Z) (l : list Z) : list Z :=
  match l with
  | [] => [x]
  | y :: t =>
      if (x <? y)%Z then x :: l
      else if (x =? y)%Z then l
      else y :: insert_uniq x t
  end.

Definition sorted_set (l : list Z) : list Z := fold_right insert_uniq [] l.

Definition generate_frequencies (fuel : nat) (f_min f_max f_step : Q)
  : option (list Z) :=
  match loop_down fuel f_min f_step (start_frequency f_max) [] with
  | None => None
  | Some freq_down =>
      match loop_up fuel f_max f_step (start_frequency f_max) freq_down with
      | None => None
      | Some freq_new => Some (sorted_set freq_new)
      end
  end.

Definition DEFAULT_F_MIN : Q := 20.
Definition DEFAULT_F_MAX : Q := 20000.
Definition DEFAULT_STEP : Q := 101 # 100.

(** *** Certificates for the loops

    [Qfloor] divides two integers of several thousand bits at each of the
    695 iterations of the default call, which is slow inside the kernel.
    The loops are therefore run once by guessing each rounded value and
    testing it with multiplications only ([rounds_to]); the recorded trace
    is then checked against [loop_down] itself (see [loop_down_checked]). *)

(** [g - 1/2 < f < g + 1/2] *)
Definition rounds_to (f : Q) (g : Z) : bool :=
  Qltb (inject_Z (2 * g - 1)) (2 * f) && Qltb (2 * f) (inject_Z (2 * g + 1)).

Fixpoint check_down (f_min f_step f : Q) (trace : list Z) : bool :=
  match trace with
  | [] => negb (Qltb f_min f)
  | g :: rest =>
      Qltb f_min f && rounds_to f g && check_down f_min f_step (f / f_step) rest
  end.

(** The same check with a margin [eps] around every comparison: neither
    a rounding nor a loop test is within [eps] of changing its outcome. *)
Fixpoint check_margin (eps f_min f_step f : Q) (trace : list Z) : bool :=
  match trace with
  | [] => Qltb (f + eps) f_min
  | g :: rest =>
      Qltb (f_min + eps) f
      && Qltb (inject_Z (2 * g - 1) + 2 * eps) (2 * f)
      && Qltb (2 * f + 2 * eps) (inject_Z (2 * g + 1))
      && check_margin eps f_min f_step (f / f_step) rest
  end.

(** First of [g], [g+1], ... that [f] rounds to. *)
Fixpoint guess (n : nat) (f : Q) (g : Z) : Z :=
  match n with
  | O => g
  | S n' => if rounds_to f g then g else guess n' f (g + 1)%Z
  end.

Fixpoint trace_down (fuel : nat) (f_min f_step f : Q) (prev : Z) : list Z :=
  if Qltb f_min f then
    match fuel with
    | O => []
    | S fuel' =>
        let g := guess 8 f (prev * 100 / 101 - 3)%Z in
        g :: trace_down fuel' f_min f_step (f / f_step) g
    end
  else [].

(** The values appended by the first loop of the default call, in order. *)
Definition default_trace : list Z :=
  Eval vm_compute in
    trace_down 1000 DEFAULT_F_MIN DEFAULT_STEP (start_frequency DEFAULT_F_MAX) 20201.

(** The grid of the default arguments. *)
Definition default_frequencies : list Z :=
  Eval vm_compute in sorted_set default_trace.

(** [G[i+1] > G[i]] for every [i], as a boolean check. *)
Fixpoint strictly_increasing (l : list Z) : bool :=
  match l with
  | [] => true
  | x :: t =>
      match t with
      | [] => true
      | y :: _ => (x <? y)%Z && strictly_increasing t
      end
  end.

(** [lo_num / lo_den <= G[i+1] / G[i] <= hi_num / hi_den] for every [i]
    of a grid of positive integers, as a boolean check. *)
Fixpoint steps_within (lo_num lo_den hi_num hi_den : Z) (l : list Z) : bool :=
  match l with
  | [] => true
  | x :: t =>
      match t with
      | [] => true
      | y :: _ =>
          (0 <? x)%Z && (lo_num * x <=? lo_den * y)%Z
          && (hi_den * y <=? hi_num * x)%Z
          && steps_within lo_num lo_den hi_num hi_den t
      end
  end.

End Grid.

(** ** Real-number helpers *)

Module Num.
Local Open Scope R_scope.

Definition Rltb (a b : R) : bool := if Rlt_dec a b then true else false.
Definition Rleb (a b : R) : bool := if Rle_dec a b then true else false.
Definition Reqb (a b : R) : bool := if Req_dec_T a b then true else false.

(** [np.log10], [scipy.special.expit] *)
Definition log10 (x : R) : R := ln x / ln 10.
Definition expit (x : R) : R := 1 / (1 + exp (- x)).

Definition floor (x : R) : Z := (up x - 1)%Z.

(** Python's [round(x)] on a float: nearest integer, halves to even. *)
Definition round (x : R) : Z :=
  let n := floor x in
  if Rltb (x - IZR n) (1 / 2) then n
  else if Rltb (1 / 2) (x - IZR n) then (n + 1)%Z
  else if Z.even n then n else (n + 1)%Z.

Definition sum (l : list R) : R := fold_left Rplus l 0.

(** [np.mean] *)
Definition mean (l : list R) : R := sum l / INR (length l).

(** [np.sign] *)
Definition sign (x : R) : R :=
  if Rltb x 0 then -1 else if Rltb 0 x then 1 else 0.

End Num.

(** ** Arrays

    A channel is a numpy array whose cells are floats or [None]
    ([_init_data] turns NaN into [None]). *)

Module Arr.
Import Num.
Local Open Scope R_scope.

Definition array : Type := list (option R).

(** [None in data] *)
Definition has_None (a : array) : bool :=
  existsb (fun c => match c with None => true | Some _ => false end) a.

Definition of_floats (l : list R) : array := map Some l.

(** The floats of an array without [None]; arithmetic on a [None] cell
    raises [TypeError]. *)
Fixpoint floats (a : array) : result (list R) :=
  match a with
  | [] => Ok []
  | None :: _ => Raise TypeError
  | Some x :: t => l <- floats t ;; Ok (x :: l)
  end.

Fixpoint zip_with (op : R -> R -> R) (a b : list R) : list R :=
  match a, b with
  | x :: a', y :: b' => op x y :: zip_with op a' b'
  | _, _ => []
  end.

Definition shape_error : exn :=
  ValueError "operands could not be broadcast together".

(** [a op b] on two arrays: equal lengths, or one of them of length one. *)
Definition broadcast (op : R -> R -> R) (a b : list R) : result (list R) :=
  if Nat.eqb (length a) (length b) then Ok (zip_with op a b)
  else match a, b with
       | _, [y] => Ok (map (fun x => op x y) a)
       | [x], _ => Ok (map (fun y => op x y) b)
       | _, _ => Raise shape_error
       end.

(** [a op= b]: the result must have the shape of [a]. *)
Definition broadcast_inplace (op : R -> R -> R) (a b : list R)
  : result (list R) :=
  if Nat.eqb (length a) (length b) then Ok (zip_with op a b)
  else match b with
       | [y] => Ok (map (fun x => op x y) a)
       | _ => Raise shape_error
       end.

(** [a + b] *)
Definition add (a b : array) : result array :=
  x <- floats a ;; y <- floats b ;; r <- broadcast Rplus x y ;; Ok (of_floats r).

(** [a -= b] *)
Definition isub (a b : array) : result array :=
  x <- floats a ;; y <- floats b ;;
  r <- broadcast_inplace Rminus x y ;; Ok (of_floats r).

(** [a -= diff] for a scalar [diff] *)
Definition isub_scalar (a : array) (diff : R) : result array :=
  x <- floats a ;; Ok (of_floats (map (fun v => v - diff) x)).

(** [a[inds]]: indexing with an array of indices. *)
Fixpoint take {A : Type} (a : list A) (inds : list nat) : result (list A) :=
  match inds with
  | [] => Ok []
  | i :: rest =>
      match nth_error a i with
      | None => Raise IndexError
      | Some x => l <- take a rest ;; Ok (x :: l)
      end
  end.

End Arr.

(** ** The class [FrequencyResponse] *)

Module FR.
Import Num Arr.
Local Open Scope R_scope.

Record FrequencyResponse : Type := {
  name : string;
  frequency : list R;
  raw : array;
  error : array;
  smoothed : array;
  error_smoothed : array;
  equalization : array;
  parametric_eq : array;
  equalized_raw : array;
  equalized_smoothed : array;
  target : array
}.

Definition DEFAULT_MAX_GAIN : R := 6.
Definition DEFAULT_TREBLE_F_LOWER : R := 6000.
Definition DEFAULT_TREBLE_F_UPPER : R := 8000.
Definition DEFAULT_TREBLE_MAX_GAIN : R := 0.
Definition DEFAULT_TREBLE_GAIN_K : R := 1.
Definition DEFAULT_SMOOTHING_WINDOW_SIZE : R := 1 / 7.
Definition DEFAULT_SMOOTHING_ITERATIONS : nat := 10.
Definition DEFAULT_TREBLE_SMOOTHING_WINDOW_SIZE : R := 1 / 5.
Definition DEFAULT_TREBLE_SMOOTHING_ITERATIONS : nat := 100.

(** [reset]: each flag empties its channel (the warning is not modelled).
    The defaults of the source are [raw=False] and [True] elsewhere. *)
Definition reset (fr : FrequencyResponse)
    (raw_ smoothed_ error_ error_smoothed_ equalization_ parametric_eq_
       equalized_raw_ equalized_smoothed_ target_ : bool)
  : FrequencyResponse :=
  {| name := name fr;
     frequency := frequency fr;
     raw := if raw_ then [] else raw fr;
     error := if error_ then [] else error fr;
     smoothed := if smoothed_ then [] else smoothed fr;
     error_smoothed := if error_smoothed_ then [] else error_smoothed fr;
     equalization := if equalization_ then [] else equalization fr;
     parametric_eq := if parametric_eq_ then [] else parametric_eq fr;
     equalized_raw := if equalized_raw_ then [] else equalized_raw fr;
     equalized_smoothed :=
       if equalized_smoothed_ then [] else equalized_smoothed fr;
     target := if target_ then [] else target fr |}.

Definition set_raw (fr : FrequencyResponse) (v : array) :=
  {| name := name fr; frequency := frequency fr; raw := v; error := error fr;
     smoothed := smoothed fr; error_smoothed := error_smoothed fr;
     equalization := equalization fr; parametric_eq := parametric_eq fr;
     equalized_raw := equalized_raw fr;
     equalized_smoothed := equalized_smoothed fr; target := target fr |}.

Definition set_frequency (fr : FrequencyResponse) (v : list R) :=
  {| name := name fr; frequency := v; raw := raw fr; error := error fr;
     smoothed := smoothed fr; error_smoothed := error_smoothed fr;
     equalization := equalization fr; parametric_eq := parametric_eq fr;
     equalized_raw := equalized_raw fr;
     equalized_smoothed := equalized_smoothed fr; target := target fr |}.

Definition set_smoothed (fr : FrequencyResponse) (v : array) :=
  {| name := name fr; frequency := frequency fr; raw := raw fr;
     error := error fr; smoothed := v; error_smoothed := error_smoothed fr;
     equalization := equalization fr; parametric_eq := parametric_eq fr;
     equalized_raw := equalized_raw fr;
     equalized_smoothed := equalized_smoothed fr; target := target fr |}.

Definition set_error (fr : FrequencyResponse) (v : array) :=
  {| name := name fr; frequency := frequency fr; raw := raw fr; error := v;
     smoothed := smoothed fr; error_smoothed := error_smoothed fr;
     equalization := equalization fr; parametric_eq := parametric_eq fr;
     equalized_raw := equalized_raw fr;
     equalized_smoothed := equalized_smoothed fr; target := target fr |}.

Definition set_error_smoothed (fr : FrequencyResponse) (v : array) :=
  {| name := name fr; frequency := frequency fr; raw := raw fr;
     error := error fr; smoothed := smoothed fr; error_smoothed := v;
     equalization := equalization fr; parametric_eq := parametric_eq fr;
     equalized_raw := equalized_raw fr;
     equalized_smoothed := equalized_smoothed fr; target := target fr |}.

Definition set_equalization (fr : FrequencyResponse) (v : array) :=
  {| name := name fr; frequency := frequency fr; raw := raw fr;
     error := error fr; smoothed := smoothed fr;
     error_smoothed := error_smoothed fr;
     equalization := v; parametric_eq := parametric_eq fr;
     equalized_raw := equalized_raw fr;
     equalized_smoothed := equalized_smoothed fr; target := target fr |}.

Definition set_parametric_eq (fr : FrequencyResponse) (v : array) :=
  {| name := name fr; frequency := frequency fr; raw := raw fr;
     error := error fr; smoothed := smoothed fr;
     error_smoothed := error_smoothed fr;
     equalization := equalization fr; parametric_eq := v;
     equalized_raw := equalized_raw fr;
     equalized_smoothed := equalized_smoothed fr; target := target fr |}.

Definition set_equalized_raw (fr : FrequencyResponse) (v : array) :=
  {| name := name fr; frequency := frequency fr; raw := raw fr;
     error := error fr; smoothed := smoothed fr;
     error_smoothed := error_smoothed fr;
     equalization := equalization fr; parametric_eq := parametric_eq fr;
     equalized_raw := v;
     equalized_smoothed := equalized_smoothed fr; target := target fr |}.

Definition set_equalized_smoothed (fr : FrequencyResponse) (v : array) :=
  {| name := name fr; frequency := frequency fr; raw := raw fr;
     error := error fr; smoothed := smoothed fr;
     error_smoothed := error_smoothed fr;
     equalization := equalization fr; parametric_eq := parametric_eq fr;
     equalized_raw := equalized_raw fr;
     equalized_smoothed := v; target := target fr |}.

Definition set_target (fr : FrequencyResponse) (v : array) :=
  {| name := name fr; frequency := frequency fr; raw := raw fr;
     error := error fr; smoothed := smoothed fr;
     error_smoothed := error_smoothed fr;
     equalization := equalization fr; parametric_eq := parametric_eq fr;
     equalized_raw := equalized_raw fr;
     equalized_smoothed := equalized_smoothed fr; target := v |}.

(** [len(a)] used as a truth value *)
Definition nonempty {A : Type} (a : list A) : bool :=
  match a with [] => false | _ :: _ => true end.

(** Every channel but [raw] is empty. *)
Definition all_but_raw_empty (fr : FrequencyResponse) : Prop :=
  smoothed fr = [] /\ error fr = [] /\ error_smoothed fr = [] /\
  equalization fr = [] /\ parametric_eq fr = [] /\ equalized_raw fr = [] /\
  equalized_smoothed fr = [] /\ target fr = [].

(** The channels derived from the error are empty. *)
Definition error_channels_empty (fr : FrequencyResponse) : Prop :=
  error fr = [] /\ error_smoothed fr = [] /\ equalization fr = [] /\
  parametric_eq fr = [] /\ equalized_raw fr = [] /\
  equalized_smoothed fr = [].

(** *** [_sigmoid] *)

Definition f_center (f_lower f_upper : R) : R :=
  sqrt (f_upper / f_lower) * f_lower.

Definition half_range (f_lower f_upper : R) : R :=
  log10 f_upper - log10 (f_center f_lower f_upper).

(** The value of [_sigmoid] at one frequency [f], on the reals.  It is the
    program's value for [0 < f_lower < f_upper] and [0 < f].  Outside
    that domain numpy computes with NaN and infinities (equal bounds
    divide by zero, a non-positive bound or frequency has no logarithm),
    where the functions of the reals take a default value; statements
    about the values of [_sigmoid] are made inside the domain. *)
Definition sigmoid_at (f_lower f_upper a_normal a_treble f : R) : R :=
  let a :=
    expit ((log10 f - log10 (f_center f_lower f_upper))
           / (half_range f_lower f_upper / 4)) in
  a * - (a_normal - a_treble) + a_normal.

Definition _sigmoid (fr : FrequencyResponse)
    (f_lower f_upper a_normal a_treble : R) : list R :=
  map (sigmoid_at f_lower f_upper a_normal a_treble) (frequency fr).

(** *** [_window_size] *)

(** [frequency[i] / frequency[i - 1]] for [i] from 1 *)
Fixpoint steps (frequency : list R) : list R :=
  match frequency with
  | [] => []
  | f0 :: t =>
      match t with
      | [] => []
      | f1 :: _ => f1 / f0 :: steps t
      end
  end.

Definition _window_size (fr : FrequencyResponse) (octaves : R) : result Z :=
  let k := Rpower 2 octaves in
  let st := steps (frequency fr) in
  if Nat.eqb (length st) 0 then Raise ZeroDivisionError
  else
    let step_size := sum st / INR (length st) in
    if Rleb step_size 0 then Raise (ValueError "math domain error")
    else if Reqb (ln step_size) 0 then Raise ZeroDivisionError
    else
      let window_size := round (ln k / ln step_size) in
      Ok (if Z.eqb (window_size mod 2) 0 then (window_size + 1)%Z
          else window_size).

(** *** [__init__], [_init_data], [_sort] *)

(** [_init_data]: [None] becomes an empty array; NaN cells are the [None]
    cells of the model. *)
Definition _init_data (data : option array) : array :=
  match data with
  | None => []
  | Some a => a
  end.

(** Stable insertion of a (frequency, index) pair. *)
Fixpoint insert_by (x : R * nat) (l : list (R * nat)) : list (R * nat) :=
  match l with
  | [] => [x]
  | y :: t => if Rleb (fst x) (fst y) then x :: l else y :: insert_by x t
  end.

(** [np.argsort] (ties keep their order) *)
Definition argsort (l : list R) : list nat :=
  map snd (fold_right insert_by [] (combine l (seq 0 (length l)))).

Definition sort_channel (a : array) (sorted_inds : list nat) : result array :=
  if nonempty a then take a sorted_inds else Ok a.

Definition _sort (fr : FrequencyResponse) : result FrequencyResponse :=
  let sorted_inds := argsort (frequency fr) in
  frequency' <- take (frequency fr) sorted_inds ;;
  raw' <- sort_channel (raw fr) sorted_inds ;;
  error' <- sort_channel (error fr) sorted_inds ;;
  smoothed' <- sort_channel (smoothed fr) sorted_inds ;;
  error_smoothed' <- sort_channel (error_smoothed fr) sorted_inds ;;
  equalization' <- sort_channel (equalization fr) sorted_inds ;;
  parametric_eq' <- sort_channel (parametric_eq fr) sorted_inds ;;
  equalized_raw' <- sort_channel (equalized_raw fr) sorted_inds ;;
  equalized_smoothed' <- sort_channel (equalized_smoothed fr) sorted_inds ;;
  target' <- sort_channel (target fr) sorted_inds ;;
  Ok {| name := name fr; frequency := frequency'; raw := raw';
        error := error'; smoothed := smoothed';
        error_smoothed := error_smoothed'; equalization := equalization';
        parametric_eq := parametric_eq'; equalized_raw := equalized_raw';
        equalized_smoothed := equalized_smoothed'; target := target' |}.

(** The constructor.  An empty [frequency] is replaced by
    [generate_frequencies()], whose value is [Grid.default_frequencies]
    (lemma [generate_frequencies_default]).  The frequency cells are
    numbers; [name.strip()] is not modelled. *)
Definition __init__ (name_ : string) (frequency_ : option (list R))
    (raw_ error_ smoothed_ error_smoothed_ equalization_ parametric_eq_
       equalized_raw_ equalized_smoothed_ target_ : option array)
  : result FrequencyResponse :=
  let frequency0 := match frequency_ with None => [] | Some f => f end in
  let frequency1 :=
    if nonempty frequency0 then frequency0
    else map IZR Grid.default_frequencies in
  _sort {| name := name_; frequency := frequency1;
           raw := _init_data raw_;
           error := _init_data error_;
           smoothed := _init_data smoothed_;
           error_smoothed := _init_data error_smoothed_;
           equalization := _init_data equalization_;
           parametric_eq := _init_data parametric_eq_;
           equalized_raw := _init_data equalized_raw_;
           equalized_smoothed := _init_data equalized_smoothed_;
           target := _init_data target_ |}.

(** *** CSV files

    A file is its table: the columns in order, each a header and its
    cells; a cell is a number or [NaN] (here [None]).  [float_format x]
    is the number that the text ['%.2f' % x] reads back as. *)

Definition DataFrame : Type := list (string * array).

(** [list(df[c]) if c in df else None] *)
Fixpoint column (df : DataFrame) (c : string) : option array :=
  match df with
  | [] => None
  | (h, cells) :: rest => if String.eqb h c then Some cells else column rest c
  end.

Definition float_format_2 (x : R) : R := IZR (round (x * 100)) / 100.

Section CSV.
Variable float_format : R -> R.

Definition write_column (h : string) (a : array) : DataFrame :=
  if nonempty a then [(h, map (option_map float_format) a)] else [].

Definition write_to_csv (fr : FrequencyResponse) : DataFrame :=
  write_column "frequency" (of_floats (frequency fr))
  ++ write_column "raw" (raw fr)
  ++ write_column "error" (error fr)
  ++ write_column "smoothed" (smoothed fr)
  ++ write_column "error_smoothed" (error_smoothed fr)
  ++ write_column "equalization" (equalization fr)
  ++ write_column "parametric_eq" (parametric_eq fr)
  ++ write_column "equalized_raw" (equalized_raw fr)
  ++ write_column "equalized_smoothed" (equalized_smoothed fr)
  ++ write_column "target" (target fr).

End CSV.

(** [read_from_csv]: [name_] is the file name without its extension.
    The constructor is called without [error_smoothed]. *)
Definition read_from_csv (name_ : string) (df : DataFrame)
  : result FrequencyResponse :=
  frequency_ <- match column df "frequency" with
                | None => Ok None
                | Some cells => f <- floats cells ;; Ok (Some f)
                end ;;
  __init__ name_ frequency_
    (column df "raw")
    (column df "error")
    (column df "smoothed")
    None
    (column df "equalization")
    (column df "parametric_eq")
    (column df "equalized_raw")
    (column df "equalized_smoothed")
    (column df "target").

(** *** The errors the class raises itself *)

Definition invalid_band : exn :=
  ValueError "Upper transition boundary must be greater than lower boundary".

Definition missing_error_data : exn :=
  ValueError "Error data is missing. Call FrequencyResponse.compensate().".

Definition equalization_missing : exn :=
  ValueError "Equalization has not been done yet.".

Definition is_guard_error (e : exn) : bool :=
  match e with
  | ValueError msg =>
      String.eqb msg
        "Upper transition boundary must be greater than lower boundary"
      || String.eqb msg
           "Error data is missing. Call FrequencyResponse.compensate()."
      || String.eqb msg "Equalization has not been done yet."
  | _ => false
  end.

(** [r] does not end in one of the three errors above. *)
Definition foreign {A : Type} (r : result A) : Prop :=
  match r with
  | Ok _ => True
  | Raise e => is_guard_error e = false
  end.

(** *** The pipeline

    The library functions are parameters:
    [InterpolatedUnivariateSpline x y k] builds the interpolating spline of
    degree [k] (or raises), [savgol_filter y window order] smooths [y]. *)

Section Pipeline.
Variable InterpolatedUnivariateSpline :
  list R -> list R -> nat -> result (R -> R).
Variable savgol_filter : list R -> Z -> Z -> result (list R).

(** [interpolate]: the loop that deletes the [None] cells of [raw] and the
    frequencies at the same positions. *)
Fixpoint drop_None (raw_ : array) (frequency_ : list R)
  : result (list R * list R) :=
  match raw_ with
  | [] => Ok ([], frequency_)
  | Some x :: raw' =>
      match frequency_ with
      | [] => r <- drop_None raw' [] ;; Ok (x :: fst r, snd r)
      | f :: fs => r <- drop_None raw' fs ;; Ok (x :: fst r, f :: snd r)
      end
  | None :: raw' =>
      match frequency_ with
      | [] => Raise IndexError
      | _ :: fs => drop_None raw' fs
      end
  end.

(** [interpolate(f, f_step, pol_order, f_min, f_max)].  The outer [option]
    is [None] when [generate_frequencies] exhausts [fuel]. *)
Definition interpolate (fuel : nat) (fr : FrequencyResponse)
    (f : option (list R)) (f_step : Q) (pol_order : nat) (f_min f_max : Q)
  : option (result FrequencyResponse) :=
  match drop_None (raw fr) (frequency fr) with
  | Raise e => Some (Raise e)
  | Ok (raw', frequency') =>
      match InterpolatedUnivariateSpline (map log10 frequency') raw' pol_order with
      | Raise e => Some (Raise e)
      | Ok interpolator =>
          let new_frequency :=
            match f with
            | Some g => Some g
            | None =>
                option_map (map IZR)
                  (Grid.generate_frequencies fuel f_min f_max f_step)
            end in
          match new_frequency with
          | None => None
          | Some g =>
              let fr1 := set_frequency fr g in
              let fr2 :=
                set_raw fr1 (of_floats (map interpolator (map log10 g))) in
              Some (Ok (reset fr2 false true true true true true true true true))
          end
      end
  end.

Definition calibrate (fr calibration : FrequencyResponse)
  : result FrequencyResponse :=
  raw' <- isub (raw fr) (raw calibration) ;;
  Ok (reset (set_raw fr raw') false true true true true true true true true).

Definition center (fr : FrequencyResponse) : result FrequencyResponse :=
  y <- floats (raw fr) ;;
  interpolator <-
    InterpolatedUnivariateSpline (map log10 (frequency fr)) y 1 ;;
  let diff := interpolator (log10 1000) in
  raw' <- isub_scalar (raw fr) diff ;;
  let fr1 := set_raw fr raw' in
  fr2 <- (if nonempty (smoothed fr1)
          then sm <- isub_scalar (smoothed fr1) diff ;; Ok (set_smoothed fr1 sm)
          else Ok fr1) ;;
  Ok (reset fr2 false false true true true true true true false).

(** *** [_smoothen_data] and [smoothen] *)

Fixpoint savgol_iterate (fr : FrequencyResponse) (iterations : nat)
    (y : list R) (window_size : R) : result (list R) :=
  match iterations with
  | O => Ok y
  | S n =>
      w <- _window_size fr window_size ;;
      y' <- savgol_filter y w 2 ;;
      savgol_iterate fr n y' window_size
  end.

Definition _smoothen_data (fr : FrequencyResponse) (data : array)
    (window_size : R) (iterations : nat)
    (treble_window_size : R) (treble_iterations : nat)
    (treble_f_lower treble_f_upper : R) : result (list R) :=
  if has_None data
  then Raise (ValueError "None values present, cannot smoothen!")
  else
    y <- floats data ;;
    y_normal <- savgol_iterate fr iterations y window_size ;;
    y_treble <- savgol_iterate fr treble_iterations y treble_window_size ;;
    let k_treble := _sigmoid fr treble_f_lower treble_f_upper 0 1 in
    let k_normal := map (fun k => k * -1 + 1) k_treble in
    a <- broadcast Rmult y_normal k_normal ;;
    b <- broadcast Rmult y_treble k_treble ;;
    broadcast Rplus a b.

Definition smoothen (fr : FrequencyResponse)
    (window_size : R) (iterations : nat)
    (treble_window_size : option R) (treble_iterations : option nat)
    (treble_f_lower treble_f_upper : R) : result FrequencyResponse :=
  if Rleb treble_f_upper treble_f_lower
  then Raise invalid_band
  else
    let treble_window_size' :=
      match treble_window_size with None => window_size | Some w => w end in
    let treble_iterations' :=
      match treble_iterations with None => iterations | Some n => n end in
    sm <- _smoothen_data fr (raw fr) window_size iterations
            treble_window_size' treble_iterations'
            treble_f_lower treble_f_upper ;;
    let fr1 := set_smoothed fr (of_floats sm) in
    fr2 <- (if nonempty (error fr1)
            then es <- _smoothen_data fr1 (error fr1) window_size iterations
                         treble_window_size' treble_iterations'
                         treble_f_lower treble_f_upper ;;
                 Ok (set_error_smoothed fr1 (of_floats es))
            else Ok fr1) ;;
    Ok (reset fr2 false false false false true true true true false).

(** *** [equalize] *)

(** The error input: [error_smoothed] if present, otherwise [error]. *)
Definition select_error (fr : FrequencyResponse) : result array :=
  if nonempty (error_smoothed fr) then Ok (error_smoothed fr)
  else if nonempty (error fr) then Ok (error fr)
  else Raise missing_error_data.

(** The loop "invert with max gain clipping", from index [i] on. *)
Fixpoint clip_loop (errs : list R) (i : nat) (gain_k max_gain : list R)
    (previous_clipped : bool) (kink_inds : list nat) (equalization_ : list R)
  : result (list nat * list R) :=
  match errs with
  | [] => Ok (kink_inds, equalization_)
  | e :: rest =>
      match nth_error gain_k i, nth_error max_gain i with
      | Some k, Some m =>
          let gain := - e * k in
          let clipped := Rltb m gain in
          let kink_inds' :=
            if Bool.eqb previous_clipped clipped then kink_inds
            else kink_inds ++ [i] in
          let gain' := if clipped then m else gain in
          clip_loop rest (S i) gain_k max_gain clipped kink_inds'
            (equalization_ ++ [gain'])
      | _, _ => Raise IndexError
      end
  end.

(** [range(start, stop)] *)
Definition range (start stop : Z) : list Z :=
  map (fun k => (start + Z.of_nat k)%Z) (seq 0 (Z.to_nat (stop - start))).

(** [del l[l.index(x)]] *)
Fixpoint remove_first (x : Z) (l : list Z) : list Z :=
  match l with
  | [] => []
  | y :: t => if Z.eqb x y then t else y :: remove_first x t
  end.

Definition mem (x : Z) (l : list Z) : bool := existsb (Z.eqb x) l.

(** [[x for i, x in enumerate(l) if i not in doomed_inds]], from index [i] *)
Fixpoint survivors {A : Type} (i : Z) (l : list A) (doomed_inds : list Z)
  : list A :=
  match l with
  | [] => []
  | x :: t =>
      if mem i doomed_inds then survivors (i + 1) t doomed_inds
      else x :: survivors (i + 1) t doomed_inds
  end.

(** The indices deleted around the kinks, the last two of the grid kept. *)
Definition doomed (fr : FrequencyResponse) (window_size : Z)
    (kink_inds : list nat) (equalization_ : list R) : list Z :=
  let half := ((window_size - 1) / 2)%Z in
  let n := Z.of_nat (length equalization_) in
  let doomed_inds :=
    Grid.sorted_set
      (flat_map
         (fun k =>
            let i := Z.of_nat k in
            range (i - Z.min i half) (i + 1 + Z.min (n - i - 1) half))
         kink_inds) in
  let len_f := Z.of_nat (length (frequency fr)) in
  let d1 :=
    if mem (len_f - 1) doomed_inds then remove_first (len_f - 1) doomed_inds
    else doomed_inds in
  if mem (len_f - 2) d1 then remove_first (len_f - 2) d1 else d1.

(** The branch [if smoothen:] *)
Definition smooth_kinks (fr : FrequencyResponse) (kink_inds : list nat)
    (equalization_ : list R) : result (list R) :=
  window_size <- _window_size fr (1 / 12) ;;
  let doomed_inds := doomed fr window_size kink_inds equalization_ in
  let f := survivors 0 (frequency fr) doomed_inds in
  let e := survivors 0 equalization_ doomed_inds in
  interpolator <- InterpolatedUnivariateSpline (map log10 f) e 2 ;;
  Ok (map interpolator (map log10 (frequency fr))).

(** The clipped curve and the kinks, before any smoothing. *)
Definition clipped_curve (fr : FrequencyResponse) (err : list R)
    (max_gain treble_f_lower treble_f_upper treble_max_gain treble_gain_k : R)
  : result (list nat * list R) :=
  let max_gain_ :=
    _sigmoid fr treble_f_lower treble_f_upper max_gain treble_max_gain in
  let gain_k := _sigmoid fr treble_f_lower treble_f_upper 1 treble_gain_k in
  clip_loop err 0 gain_k max_gain_ false [] [].

(** [equalization(f) <= max_gain(f)] at every index of the curve. *)
Definition bounded_by (equalization_ max_gain : list R) : Prop :=
  forall (j : nat) (e : R),
    nth_error equalization_ j = Some e ->
    exists m : R, nth_error max_gain j = Some m /\ e <= m.

(** [equalize].  When the error input holds a [None], the source calls
    [interpolate()] and then negates the [None] cell of its local [error]:
    every such run ends in an exception, modelled as [TypeError]. *)
Definition equalize (fr : FrequencyResponse) (max_gain : R) (smoothen_ : bool)
    (treble_f_lower treble_f_upper treble_max_gain treble_gain_k : R)
  : result FrequencyResponse :=
  let fr0 := set_equalized_raw (set_equalization fr []) [] in
  error_ <- select_error fr0 ;;
  if has_None error_ || has_None (equalization fr0)
     || has_None (equalized_raw fr0)
  then Raise TypeError
  else
    err <- floats error_ ;;
    r <- clipped_curve fr0 err max_gain treble_f_lower treble_f_upper
           treble_max_gain treble_gain_k ;;
    let kink_inds :=
      match fst r with
      | O :: t => t
      | l => l
      end in
    eq <- (if smoothen_ then smooth_kinks fr0 kink_inds (snd r)
           else Ok (snd r)) ;;
    let fr1 := set_equalization fr0 (of_floats eq) in
    er <- add (raw fr1) (equalization fr1) ;;
    let fr2 := set_equalized_raw fr1 er in
    if nonempty (smoothed fr2)
    then es <- add (smoothed fr2) (equalization fr2) ;;
         Ok (set_equalized_smoothed fr2 es)
    else Ok fr2.

(** *** Filter initialisation in [_run_optimize_parametric_eq]

    [find_peaks x] is [scipy.signal.find_peaks(x)[0]]; [fit_biquads] stands
    for the TensorFlow part of the function (graph, optimisation loop,
    removal of weak filters), whose loop is modelled in [Optimizer].
    The casts to [float32] are not modelled. *)

Variable find_peaks : list R -> list nat.
Variable fit_biquads :
  list R -> list R -> list R -> list R -> R -> list R * R * list (R * R * R).

Fixpoint insert_nat (x : nat) (l : list nat) : list nat :=
  match l with
  | [] => [x]
  | y :: t => if Nat.leb x y then x :: l else y :: insert_nat x t
  end.

Definition sort_nat (l : list nat) : list nat := fold_right insert_nat [] l.

(** [a[mask]] for a boolean mask *)
Fixpoint masked {A : Type} (mask : list bool) (a : list A) : list A :=
  match mask, a with
  | b :: mask', x :: a' => if b then x :: masked mask' a' else masked mask' a'
  | _, _ => []
  end.

(** The sorted indices of the local extrema that exceed 0.1 dB. *)
Definition peak_indices (smoothed_ : list R) : result (list nat) :=
  let fr_target_pos := map (fun x => Rmax x 0) smoothed_ in
  let fr_target_neg := map (fun x => Rmax (- x) 0) smoothed_ in
  let peak_inds :=
    sort_nat (find_peaks fr_target_pos ++ find_peaks fr_target_neg) in
  vals <- take smoothed_ peak_inds ;;
  Ok (masked (map (fun v => Rltb (1 / 10) (Rabs v)) vals) peak_inds).

(** Every local maximum or minimum of [sm] is within 0.1 dB of zero. *)
Definition no_peak_above_threshold (sm : list R) : Prop :=
  forall i : nat,
    In i (find_peaks (map (fun x => Rmax x 0) sm)
          ++ find_peaks (map (fun x => Rmax (- x) 0) sm)) ->
    exists v : R, nth_error sm i = Some v /\ Rabs v <= 1 / 10.

(** Peak centre frequencies and gains, with the sub-bass candidates. *)
Definition peak_candidates (frequency_ smoothed_ : list R)
  : result (list R * list R) :=
  peak_inds <- peak_indices smoothed_ ;;
  peak_fc <- take frequency_ peak_inds ;;
  peak_fc' <- match peak_fc with
              | [] => Raise IndexError
              | fc0 :: _ =>
                  if Rltb 80 fc0 then Ok ([20; 60] ++ peak_fc)
                  else if Rltb 40 fc0 then Ok ([20] ++ peak_fc)
                  else Ok peak_fc
              end ;;
  interpolator <-
    InterpolatedUnivariateSpline (map log10 frequency_) smoothed_ 1 ;;
  Ok (peak_fc', map interpolator (map log10 peak_fc')).

Definition remove_small_filters (min_gain : R) (peaks : list R * list R)
  : list R * list R :=
  let keep := map (fun g => Rltb min_gain (Rabs g)) (snd peaks) in
  (masked keep (fst peaks), masked keep (snd peaks)).

(** [np.where(frequency == f)[0][0]] *)
Fixpoint index_of (f : R) (frequency_ : list R) (i : nat) : result nat :=
  match frequency_ with
  | [] => Raise IndexError
  | x :: t => if Reqb x f then Ok i else index_of f t (S i)
  end.

(** [a[i_0:i_1+1]] *)
Definition slice {A : Type} (a : list A) (i_0 i_1 : nat) : list A :=
  firstn (i_1 + 1 - i_0) (skipn i_0 a).

(** Root mean squared error; the mean of an empty array is NaN ([None]). *)
Definition rmse (err : list R) : option R :=
  match err with
  | [] => None
  | _ => Some (sqrt (mean (map (fun e => e * e) err)))
  end.

(** [a < b] on floats that may be NaN *)
Definition nan_lt (a b : option R) : bool :=
  match a, b with
  | Some x, Some y => Rltb x y
  | _, _ => false
  end.

Definition at_index {A : Type} (a : list A) (i : nat) : result A :=
  match nth_error a i with
  | Some x => Ok x
  | None => Raise IndexError
  end.

(** Pairs of neighbouring filters whose gains have the same sign. *)
Fixpoint pair_inds_from (js : list nat) (peak_g : list R)
  : result (list nat) :=
  match js with
  | [] => Ok []
  | j :: rest =>
      g0 <- at_index peak_g j ;;
      g1 <- at_index peak_g (j + 1) ;;
      l <- pair_inds_from rest peak_g ;;
      Ok (if Reqb (sign g0) (sign g1) then j :: l else l)
  end.

(** The body of the loop over [pair_inds]: the error of one pair.  The
    gain [g_1] is read at [pair_ind], as in the source, and the line is
    evaluated at the frequencies themselves. *)
Definition pair_error (frequency_ smoothed_ peak_fc peak_g : list R)
    (pair_ind : nat) : result (option R) :=
  f_0 <- at_index peak_fc pair_ind ;;
  g_0 <- at_index peak_g pair_ind ;;
  i_0 <- index_of f_0 frequency_ 0 ;;
  f_1 <- at_index peak_fc (pair_ind + 1) ;;
  i_1 <- index_of f_1 frequency_ 0 ;;
  g_1 <- at_index peak_g pair_ind ;;
  interp <- InterpolatedUnivariateSpline [log10 f_0; log10 f_1] [g_0; g_1] 1 ;;
  let line := map interp (slice frequency_ i_0 i_1) in
  err <- broadcast Rminus line (slice smoothed_ i_0 i_1) ;;
  Ok (rmse err).

Fixpoint best_pair (frequency_ smoothed_ peak_fc peak_g : list R)
    (pairs : list nat) (best : option (option R * nat))
  : result (option (option R * nat)) :=
  match pairs with
  | [] => Ok best
  | pair_ind :: rest =>
      err <- pair_error frequency_ smoothed_ peak_fc peak_g pair_ind ;;
      let best' :=
        match best with
        | None => Some (err, pair_ind)
        | Some (min_err, _) =>
            if nan_lt err min_err then Some (err, pair_ind) else best
        end in
      best_pair frequency_ smoothed_ peak_fc peak_g rest best'
  end.

Fixpoint argmin_from (l : list R) (i : nat) (best : R) (best_i : nat) : nat :=
  match l with
  | [] => best_i
  | x :: t =>
      if Rltb x best then argmin_from t (S i) x i
      else argmin_from t (S i) best best_i
  end.

(** [np.argmin] *)
Definition argmin (l : list R) : result nat :=
  match l with
  | [] => Raise (ValueError "attempt to get argmin of an empty sequence")
  | x :: t => Ok (argmin_from t 1 x 0)
  end.

(** [np.insert(np.delete(a, [i, i+1]), i, x)] *)
Definition replace_pair {A : Type} (a : list A) (i : nat) (x : A) : list A :=
  firstn i a ++ x :: skipn (i + 2) a.

(** [merge_filters]: the flag returned and the new [peak_fc], [peak_g].
    Without any pair [min_err] is [None] and [min_err < 0.3] raises. *)
Definition merge_filters (frequency_ smoothed_ : list R)
    (peaks : list R * list R) : result (bool * (list R * list R)) :=
  let peak_fc := fst peaks in
  let peak_g := snd peaks in
  pair_inds <- pair_inds_from (seq 0 (length peak_fc - 1)) peak_g ;;
  best <- best_pair frequency_ smoothed_ peak_fc peak_g pair_inds None ;;
  match best with
  | None => Raise TypeError
  | Some (min_err, min_err_ind) =>
      if nan_lt min_err (Some (3 / 10)) then
        fa <- at_index peak_fc min_err_ind ;;
        fb <- at_index peak_fc (min_err_ind + 1) ;;
        let c := fa * sqrt (fb / fa) in
        k <- argmin (map (fun f => Rabs (f - c)) frequency_) ;;
        c' <- at_index frequency_ k ;;
        ga <- at_index peak_g min_err_ind ;;
        gb <- at_index peak_g (min_err_ind + 1) ;;
        let g := mean [ga; gb] in
        Ok (true, (replace_pair peak_fc min_err_ind c',
                   replace_pair peak_g min_err_ind g))
      else Ok (false, peaks)
  end.

(** [while merge_filters() and len(peak_fc) > max_filters: pass].  Every
    merge shortens the list, so [fuel] above its length is never used up. *)
Fixpoint merge_while (fuel : nat) (frequency_ smoothed_ : list R)
    (max_filters : nat) (peaks : list R * list R)
  : result (list R * list R) :=
  match fuel with
  | O => Ok peaks
  | S fuel' =>
      r <- merge_filters frequency_ smoothed_ peaks ;;
      if fst r && Nat.ltb max_filters (length (fst (snd r)))
      then merge_while fuel' frequency_ smoothed_ max_filters (snd r)
      else Ok (snd r)
  end.

Definition reduce_filters (frequency_ smoothed_ : list R)
    (max_filters : option nat) (peaks : list R * list R)
  : result (list R * list R) :=
  let p1 := remove_small_filters (1 / 10) peaks in
  match max_filters with
  | None => Ok p1
  | Some n =>
      let p2 := if Nat.ltb n (length (fst p1))
                then remove_small_filters (2 / 10) p1 else p1 in
      let p3 := if Nat.ltb n (length (fst p2))
                then remove_small_filters (33 / 100) p2 else p2 in
      p4 <- merge_while (S (length (fst p3))) frequency_ smoothed_ n p3 ;;
      if Nat.ltb n (length (fst p4)) then
        let sorted_inds := firstn n (rev (argsort (map Rabs (snd p4)))) in
        fc <- take (fst p4) sorted_inds ;;
        g <- take (snd p4) sorted_inds ;;
        Ok (fc, g)
      else Ok p4
  end.

Definition _run_optimize_parametric_eq (frequency_ : list R) (target_ : array)
    (target_loss : R) (max_filters : option nat)
  : result (list R * R * list (R * R * R)) :=
  fr_target <- __init__ "Filter Initialization" (Some frequency_)
                 (Some target_) None None None None None None None None ;;
  fr_target <- smoothen fr_target (1 / 7) 1000 None None
                 DEFAULT_TREBLE_F_LOWER DEFAULT_TREBLE_F_UPPER ;;
  sm <- floats (smoothed fr_target) ;;
  peaks <- peak_candidates frequency_ sm ;;
  peaks' <- reduce_filters frequency_ sm max_filters peaks ;;
  y <- floats target_ ;;
  Ok (fit_biquads frequency_ y (fst peaks') (snd peaks') target_loss).

Definition optimize_parametric_eq (fr : FrequencyResponse)
    (max_filters : option nat)
  : result (FrequencyResponse * list (R * R * R)) :=
  if negb (nonempty (equalization fr)) then Raise equalization_missing
  else
    r <- _run_optimize_parametric_eq (frequency fr) (equalization fr)
           (1 / 10) max_filters ;;
    Ok (set_parametric_eq fr (of_floats (fst (fst r))), snd r).

End Pipeline.

End FR.

(** ** Models of the library functions

    Used where a statement needs a concrete run.  They follow the
    documented behaviour of the libraries on exact reals. *)

Module Lib.
Import Num.
Local Open Scope R_scope.

(** The line through [(x0, y0)] and [(x1, y1)]. *)
Definition line (x0 y0 x1 y1 x : R) : R :=
  y0 + (y1 - y0) * ((x - x0) / (x1 - x0)).

(** Degree 1: linear between neighbouring points, the end segments
    extended outside the data. *)
Fixpoint linear_at (xs ys : list R) (x : R) : R :=
  match xs, ys with
  | x0 :: ((x1 :: xs2) as xs1), y0 :: ((y1 :: _) as ys1) =>
      match xs2 with
      | [] => line x0 y0 x1 y1 x
      | _ :: _ => if Rltb x x1 then line x0 y0 x1 y1 x else linear_at xs1 ys1 x
      end
  | _, _ => 0
  end.

(** Degree 2 (FITPACK, [s = 0]): one parabola per knot interval, the
    interior knots half-way between the data points [x1 .. x(m-2)], value
    and slope continuous at the knots.  The pieces are computed from left
    to right as functions [a + b * p] of the unknown slope [p] at [x0];
    the last data point fixes [p]. *)
Definition aff : Type := (R * R)%type.
Definition aff_eval (p : R) (a : aff) : R := fst a + snd a * p.
Definition aff_add (a b : aff) : aff := (fst a + fst b, snd a + snd b).
Definition aff_scale (k : R) (a : aff) : aff := (k * fst a, k * snd a).
Definition aff_const (k : R) : aff := (k, 0).

Record piece : Type := { knot : R; val : aff; slope : aff; curv : aff }.

Definition piece_value (pc : piece) (x : R) : aff :=
  let h := x - knot pc in
  aff_add (val pc) (aff_add (aff_scale h (slope pc)) (aff_scale (h * h) (curv pc))).

Definition piece_slope (pc : piece) (x : R) : aff :=
  aff_add (slope pc) (aff_scale (2 * (x - knot pc)) (curv pc)).

(** The piece that starts at [t] with value [v] and slope [d] and passes
    through [(x, y)]. *)
Definition piece_through (t : R) (v d : aff) (x y : R) : piece :=
  let h := x - t in
  {| knot := t; val := v; slope := d;
     curv := aff_scale (/ (h * h))
               (aff_add (aff_const y)
                  (aff_scale (-1) (aff_add v (aff_scale h d)))) |}.

(** [pc] passes through the data point at [xc]; [rest] are the data points
    to its right.  Returns the pieces, and the equation [a + b * p = y] of
    the last data point. *)
Fixpoint sweep (pc : piece) (xc : R) (rest : list (R * R)) (acc : list piece)
  : list piece * aff * R :=
  match rest with
  | [] => (acc ++ [pc], piece_value pc xc, 0)
  | (xn, yn) :: rest' =>
      match rest' with
      | [] => (acc ++ [pc], piece_value pc xn, yn)
      | _ :: _ =>
          let t := (xc + xn) / 2 in
          let pc' :=
            piece_through t (piece_value pc t) (piece_slope pc t) xn yn in
          sweep pc' xn rest' (acc ++ [pc])
      end
  end.

(** The piece whose interval holds [x]; the end pieces extend outside. *)
Fixpoint piece_at (pieces : list piece) (x : R) (current : piece) : piece :=
  match pieces with
  | [] => current
  | pc :: rest => if Rltb x (knot pc) then current else piece_at rest x pc
  end.

Definition quadratic_at (xs ys : list R) (x : R) : R :=
  match combine xs ys with
  | (x0, y0) :: (x1, y1) :: rest =>
      let first := piece_through x0 (aff_const y0) (0, 1) x1 y1 in
      let '(pieces, last_eq, y_last) := sweep first x1 rest [] in
      let p := (y_last - fst last_eq) / snd last_eq in
      match pieces with
      | [] => 0
      | pc :: more => aff_eval p (piece_value (piece_at more x pc) x)
      end
  | _ => 0
  end.

(** [InterpolatedUnivariateSpline(x, y, k)] for [k = 1] and [k = 2], the
    degrees the program asks for; [x] is increasing. *)
Definition InterpolatedUnivariateSpline (xs ys : list R) (k : nat)
  : result (R -> R) :=
  if negb (Nat.eqb (length xs) (length ys))
  then Raise (ValueError "x and y should have a same length")
  else if Nat.leb (length xs) k
  then Raise (ValueError "(m>k) failed for hidden m")
  else match k with
       | 1%nat => Ok (linear_at xs ys)
       | 2%nat => Ok (quadratic_at xs ys)
       | _ => Raise (ValueError "spline degree outside the model")
       end.

(** [find_peaks]: the indices of the local maxima, the middle of a flat
    top (scipy's [_local_maxima_1d]).  [plateau] is the index at which the
    values rose to [prev], if they did. *)
Fixpoint peaks_from (prev : R) (l : list R) (i : nat) (plateau : option nat)
  : list nat :=
  match l with
  | [] => []
  | x :: t =>
      if Rltb prev x then peaks_from x t (S i) (Some i)
      else if Rltb x prev then
        match plateau with
        | Some s => Nat.div (s + (i - 1)) 2 :: peaks_from x t (S i) None
        | None => peaks_from x t (S i) None
        end
      else peaks_from x t (S i) plateau
  end.

Definition find_peaks (x : list R) : list nat :=
  match x with
  | [] => []
  | x0 :: t => peaks_from x0 t 1 None
  end.

(** A filter that leaves the data as it is: what [savgol_filter] of order
    2 returns on data that is already a parabola, a constant curve among
    them, and on any data when the window has three samples (the parabola
    through three points passes through them).  As [savgol_filter] with
    [mode='interp'] it raises [ValueError] when the window is not longer
    than the order, and when it is longer than the data. *)
Definition savgol_fixed (y : list R) (window_size polyorder : Z)
  : result (list R) :=
  if (window_size <=? polyorder)%Z
  then Raise (ValueError "polyorder must be less than window_length.")
  else if (Z.of_nat (length y) <? window_size)%Z
  then Raise (ValueError
                "If mode is 'interp', window_length must be less than or equal to the size of x.")
  else Ok y.

End Lib.

(** ** The merge step as the specification words it

    Section 4.7, step 5b: the error of a pair is the RMS distance between
    the smoothed target and the line, linear in log-frequency, from the
    gain of the first peak to the gain of the second, over the grid points
    from one peak to the other.  Everything else is as in
    [FR.merge_filters]. *)

Module Spec.
Import Num Arr FR.
Local Open Scope R_scope.

Section Spline.
Variable InterpolatedUnivariateSpline :
  list R -> list R -> nat -> result (R -> R).

Definition pair_error_spec (frequency_ smoothed_ peak_fc peak_g : list R)
    (pair_ind : nat) : result (option R) :=
  f_a <- at_index peak_fc pair_ind ;;
  g_a <- at_index peak_g pair_ind ;;
  i_a <- index_of f_a frequency_ 0 ;;
  f_b <- at_index peak_fc (pair_ind + 1) ;;
  i_b <- index_of f_b frequency_ 0 ;;
  g_b <- at_index peak_g (pair_ind + 1) ;;
  interp <- InterpolatedUnivariateSpline [log10 f_a; log10 f_b] [g_a; g_b] 1 ;;
  let line := map interp (map log10 (slice frequency_ i_a i_b)) in
  err <- broadcast Rminus line (slice smoothed_ i_a i_b) ;;
  Ok (rmse err).

Fixpoint best_pair_spec (frequency_ smoothed_ peak_fc peak_g : list R)
    (pairs : list nat) (best : option (option R * nat))
  : result (option (option R * nat)) :=
  match pairs with
  | [] => Ok best
  | pair_ind :: rest =>
      err <- pair_error_spec frequency_ smoothed_ peak_fc peak_g pair_ind ;;
      let best' :=
        match best with
        | None => Some (err, pair_ind)
        | Some (min_err, _) =>
            if nan_lt err min_err then Some (err, pair_ind) else best
        end in
      best_pair_spec frequency_ smoothed_ peak_fc peak_g rest best'
  end.

Definition merge_filters_spec (frequency_ smoothed_ : list R)
    (peaks : list R * list R) : result (bool * (list R * list R)) :=
  let peak_fc := fst peaks in
  let peak_g := snd peaks in
  pair_inds <- pair_inds_from (seq 0 (length peak_fc - 1)) peak_g ;;
  best <- best_pair_spec frequency_ smoothed_ peak_fc peak_g pair_inds None ;;
  match best with
  | None => Raise TypeError
  | Some (min_err, min_err_ind) =>
      if nan_lt min_err (Some (3 / 10)) then
        fa <- at_index peak_fc min_err_ind ;;
        fb <- at_index peak_fc (min_err_ind + 1) ;;
        let c := fa * sqrt (fb / fa) in
        k <- argmin (map (fun f => Rabs (f - c)) frequency_) ;;
        c' <- at_index frequency_ k ;;
        ga <- at_index peak_g min_err_ind ;;
        gb <- at_index peak_g (min_err_ind + 1) ;;
        let g := mean [ga; gb] in
        Ok (true, (replace_pair peak_fc min_err_ind c',
                   replace_pair peak_g min_err_ind g))
      else Ok (false, peaks)
  end.

End Spline.
End Spec.

(** ** The optimisation loop of [_run_optimize_parametric_eq]

    Losses are compared and subtracted only.  [session] is the state of
    the TensorFlow session (variables and Adam moments),
    [run_train lr s] is [sess.run([loss, train_step])] and [fetch s] is
    [sess.run([eq_op, fc, Q, gain])]. *)

Module Optimizer.
Local Open Scope Q_scope.

Definition Qltb := Grid.Qltb.

Section Loop.
Variables session params : Type.
Variable run_train : Q -> session -> Q * session.
Variable fetch : session -> params.

Definition threshold : Q := 1 # 100.
Definition momentum : nat := 300.
Definition decay : Q := 9995 # 10000.

(** The variables of the loop.  [saved_losses] is a ghost field: the step
    loss at each update of the saved parameters, oldest first. *)
Record loop_state : Type := {
  min_loss : option Q;
  bad_steps : nat;
  saved : option params;
  learning_rate_value : Q;
  saved_losses : list Q
}.

Definition initial_state : loop_state :=
  {| min_loss := None; bad_steps := 0%nat; saved := None;
     learning_rate_value := 1 # 2; saved_losses := [] |}.

(** [steps] iterations of the [for] loop, with its two [break]s. *)
Fixpoint optimization_loop (steps : nat) (target_loss : Q) (sess : session)
    (st : loop_state) : loop_state :=
  match steps with
  | O => st
  | S steps' =>
      let (step_loss, sess') := run_train (learning_rate_value st) sess in
      let improvement :=
        match min_loss st with
        | None => true
        | Some m => Qltb step_loss m
        end in
      let saved' := if improvement then Some (fetch sess') else saved st in
      let saved_losses' :=
        if improvement then saved_losses st ++ [step_loss]
        else saved_losses st in
      let loss_improved :=
        match min_loss st with
        | None => true
        | Some m => Qltb threshold (m - step_loss)
        end in
      if loss_improved then
        let st' := {| min_loss := Some step_loss; bad_steps := 0%nat;
                      saved := saved';
                      learning_rate_value := learning_rate_value st;
                      saved_losses := saved_losses' |} in
        if Qltb step_loss target_loss then st'
        else
          optimization_loop steps' target_loss sess'
            {| min_loss := Some step_loss; bad_steps := 0%nat;
               saved := saved';
               learning_rate_value := learning_rate_value st * decay;
               saved_losses := saved_losses' |}
      else
        let bad_steps' := S (bad_steps st) in
        let st' := {| min_loss := min_loss st; bad_steps := bad_steps';
                      saved := saved';
                      learning_rate_value := learning_rate_value st;
                      saved_losses := saved_losses' |} in
        if Nat.ltb momentum bad_steps' then st'
        else
          optimization_loop steps' target_loss sess'
            {| min_loss := min_loss st; bad_steps := bad_steps';
               saved := saved';
               learning_rate_value := learning_rate_value st * decay;
               saved_losses := saved_losses' |}
  end.

(** What the loop maintains: the loss of the saved parameters is at most
    [min_loss] and less than [threshold] below it. *)
Definition tracks (st : loop_state) : Prop :=
  match min_loss st with
  | None => saved_losses st = []
  | Some m =>
      saved_losses st <> [] /\
      last (saved_losses st) 0 <= m /\
      m - last (saved_losses st) 0 <= threshold
  end.

(** The loop as the source runs it: [for i in range(10000)]. *)
Definition optimize (target_loss : Q) (sess : session) : loop_state :=
  optimization_loop (100 * 100) target_loss sess initial_state.

End Loop.

(** A session that replays a given sequence of step losses and then stays
    at [last]; its parameters are the number of steps taken. *)
Definition replay_train (last : Q) (lr : Q) (s : list Q * nat)
  : Q * (list Q * nat) :=
  match fst s with
  | [] => (last, ([], S (snd s)))
  | l :: rest => (l, (rest, S (snd s)))
  end.

Definition replay_fetch (s : list Q * nat) : nat := snd s.

(** Non-increasing, as a check. *)
Fixpoint non_increasing (l : list Q) : bool :=
  match l with
  | [] => true
  | x :: t =>
      match t with
      | [] => true
      | y :: _ => Qle_bool y x && non_increasing t
      end
  end.

End Optimizer.

(** ** Target curve and compensation *)

Module Compensation.
Import Num Arr FR.
Local Open Scope R_scope.

(** [np.log2] *)
Definition log2 (x : R) : R := ln x / ln 2.

Definition DEFAULT_F_MIN : R := 20.
Definition DEFAULT_F_MAX : R := 20000.
Definition DEFAULT_BASS_BOOST : R := 0.
Definition DEFAULT_TILT : R := 0.
Definition BASS_BOOST_F_LOWER : R := 60.
Definition BASS_BOOST_F_UPPER : R := 200.

(** "Center in logarithmic scale" *)
Definition tilt_center : R := DEFAULT_F_MIN * sqrt (DEFAULT_F_MAX / DEFAULT_F_MIN).

(** The tilt at one frequency: octaves above the centre times the slope. *)
Definition tilt_at (tilt f : R) : R := log2 (f / tilt_center) * tilt.

Definition _tilt (fr : FrequencyResponse) (tilt : R) : list R :=
  map (tilt_at tilt) (frequency fr).

(** [_target]: both terms have one value per frequency. *)
Definition _target (fr : FrequencyResponse) (bass_boost tilt : R) : list R :=
  zip_with Rplus
    (_sigmoid fr BASS_BOOST_F_LOWER BASS_BOOST_F_UPPER bass_boost 0)
    (_tilt fr tilt).

(** [a - b] *)
Definition sub (a b : array) : result array :=
  x <- floats a ;; y <- floats b ;; r <- broadcast Rminus x y ;; Ok (of_floats r).

Section Library.
Variable InterpolatedUnivariateSpline :
  list R -> list R -> nat -> result (R -> R).
Variable savgol_filter : list R -> Z -> Z -> result (list R).

Definition compensate (fr compensation : FrequencyResponse)
    (bass_boost tilt : R) : result FrequencyResponse :=
  c0 <- __init__ "compensation" (Some (frequency compensation))
          (Some (raw compensation)) None None None None None None None None ;;
  c1 <- smoothen savgol_filter c0 DEFAULT_TREBLE_SMOOTHING_WINDOW_SIZE
          DEFAULT_TREBLE_SMOOTHING_ITERATIONS None None
          DEFAULT_TREBLE_F_LOWER DEFAULT_TREBLE_F_UPPER ;;
  c2 <- center InterpolatedUnivariateSpline c1 ;;
  let c3 := set_smoothed (set_raw c2 (smoothed c2)) [] in
  target' <- add (raw c3) (of_floats (_target fr bass_boost tilt)) ;;
  let fr1 := set_target fr target' in
  error' <- sub (raw fr1) (target fr1) ;;
  let fr2 := set_error fr1 error' in
  Ok (reset fr2 false false false true true true true true false).

End Library.
End Compensation.

(** ** The preamps of [write_readme]

    The numbers written into the README: the negative gain that makes
    room for the largest positive gain of the curve. *)

Module Readme.
Import Num Arr FR.
Local Open Scope R_scope.

(** [np.max] *)
Definition np_max (l : list R) : result R :=
  match l with
  | [] => Raise (ValueError
                   "zero-size array to reduction operation maximum which has no identity")
  | x :: t => Ok (fold_left Rmax t x)
  end.

(** [preamp = min(0.0, float(-np.max(self.equalization)))],
    [preamp = np.floor(preamp * 10) / 10 - 0.5] *)
Definition graphic_eq_preamp (fr : FrequencyResponse) : result R :=
  e <- floats (equalization fr) ;;
  m <- np_max e ;;
  let preamp := Rmin 0 (- m) in
  Ok (IZR (floor (preamp * 10)) / 10 - 5 / 10).

(** [preamp = np.min([0.0, float(-np.max(self.parametric_eq))])],
    [preamp = np.floor((preamp - 0.5) * 2) / 2] *)
Definition parametric_eq_preamp (fr : FrequencyResponse) : result R :=
  e <- floats (parametric_eq fr) ;;
  m <- np_max e ;;
  let preamp := Rmin 0 (- m) in
  Ok (IZR (floor ((preamp - 5 / 10) * 2)) / 2).

End Readme.

(** ** [main]: the steps applied to one measurement

    Reading and writing of files, plots and the README are left out; the
    calibration and compensation buffers are given as [main] prepares
    them.  The outer [option] is [None] when [generate_frequencies] does
    not end within the fuel. *)

Module Main.
Import Num Arr FR Compensation.
Local Open Scope R_scope.

Section Library.
Variable InterpolatedUnivariateSpline :
  list R -> list R -> nat -> result (R -> R).
Variable savgol_filter : list R -> Z -> Z -> result (list R).
Variable find_peaks : list R -> list nat.
Variable fit_biquads :
  list R -> list R -> list R -> list R -> R -> list R * R * list (R * R * R).

(** [fr.interpolate()] with the default arguments *)
Definition interpolate_default (fuel : nat) (fr : FrequencyResponse)
  : option (result FrequencyResponse) :=
  interpolate InterpolatedUnivariateSpline fuel fr None (101 # 100) 1 20 20000.

Definition parametric_without_equalize : exn :=
  ValueError "equalize must be True when parametric_eq is True.".

(** The body of the loop over the input files, after [read_from_csv]. *)
Definition process (fuel : nat) (fr : FrequencyResponse)
    (calibration compensation : option FrequencyResponse)
    (equalize_ parametric_eq_ : bool) (max_filters : option nat)
    (bass_boost tilt max_gain treble_f_lower treble_f_upper
       treble_max_gain treble_gain_k : R)
  : option (result (FrequencyResponse * option (list (R * R * R)))) :=
  match interpolate_default fuel fr with
  | None => None
  | Some r =>
      Some (
        fr1 <- r ;;
        fr2 <- match calibration with
               | Some c => calibrate fr1 c
               | None => Ok fr1
               end ;;
        fr3 <- center InterpolatedUnivariateSpline fr2 ;;
        fr4 <- match compensation with
               | Some c =>
                   compensate InterpolatedUnivariateSpline savgol_filter
                     fr3 c bass_boost tilt
               | None => Ok fr3
               end ;;
        fr5 <- smoothen savgol_filter fr4 DEFAULT_SMOOTHING_WINDOW_SIZE
                 DEFAULT_SMOOTHING_ITERATIONS
                 (Some DEFAULT_TREBLE_SMOOTHING_WINDOW_SIZE)
                 (Some DEFAULT_TREBLE_SMOOTHING_ITERATIONS)
                 treble_f_lower treble_f_upper ;;
        if equalize_ then
          fr6 <- equalize InterpolatedUnivariateSpline fr5 max_gain true
                   treble_f_lower treble_f_upper treble_max_gain
                   treble_gain_k ;;
          if parametric_eq_ then
            r7 <- optimize_parametric_eq InterpolatedUnivariateSpline
                    savgol_filter find_peaks fit_biquads fr6 max_filters ;;
            Ok (fst r7, Some (snd r7))
          else Ok (fr6, None)
        else Ok (fr5, None))
  end.

(** [main] for one measurement: the check of the flags comes first. *)
Definition main (fuel : nat) (fr : FrequencyResponse)
    (calibration compensation : option FrequencyResponse)
    (equalize_ parametric_eq_ : bool) (max_filters : option nat)
    (bass_boost tilt max_gain treble_f_lower treble_f_upper
       treble_max_gain treble_gain_k : R)
  : option (result (FrequencyResponse * option (list (R * R * R)))) :=
  if parametric_eq_ && negb equalize_
  then Some (Raise parametric_without_equalize)
  else process fuel fr calibration compensation equalize_ parametric_eq_
         max_filters bass_boost tilt max_gain treble_f_lower treble_f_upper
         treble_max_gain treble_gain_k.

End Library.
End Main.

(** ** Inputs used in the statements below *)

Module Examples.
Import Num Arr FR.
Local Open Scope R_scope.

(** A measurement with a target and a smoothed curve. *)
Definition centered_input : FrequencyResponse :=
  {| name := "measurement"; frequency := [100; 10000];
     raw := [Some 1; Some 3]; error := [Some 1; Some 3];
     smoothed := [Some 1; Some 3]; error_smoothed := [];
     equalization := []; parametric_eq := []; equalized_raw := [];
     equalized_smoothed := []; target := [Some 0; Some 0] |}.

(** A stored measurement: two rows, values with two decimals, one missing
    target cell. *)
Definition stored : FrequencyResponse :=
  {| name := "measurement"; frequency := [20; 1000];
     raw := [Some (150 / 100); Some (-225 / 100)];
     error := [Some (50 / 100); Some (-25 / 100)];
     smoothed := [];
     error_smoothed := [Some (40 / 100); Some (-20 / 100)];
     equalization := []; parametric_eq := []; equalized_raw := [];
     equalized_smoothed := []; target := [Some 1; None] |}.

(** A measurement on a grid of decades whose error asks for +5 dB at
    10 Hz and 100 Hz. *)
Definition clip_input : FrequencyResponse :=
  {| name := "measurement"; frequency := [1; 10; 100; 1000];
     raw := [Some 0; Some 0; Some 0; Some 0];
     error := [Some 1; Some (-5); Some (-5); Some 10];
     smoothed := []; error_smoothed := [];
     equalization := []; parametric_eq := []; equalized_raw := [];
     equalized_smoothed := []; target := [] |}.

(** A buffer that holds a measurement only. *)
Definition raw_only : FrequencyResponse :=
  {| name := "measurement"; frequency := [1; 10; 100; 1000];
     raw := [Some 0; Some 0; Some 0; Some 0]; error := [];
     smoothed := []; error_smoothed := [];
     equalization := []; parametric_eq := []; equalized_raw := [];
     equalized_smoothed := []; target := [] |}.

(** A measurement on a grid with steps of 5 %, where the smoothing
    windows of a seventh and of a fifth of an octave are three samples
    wide. *)
Definition fine_raw : FrequencyResponse :=
  {| name := "measurement"; frequency := [8000; 8400; 8820; 9261];
     raw := [Some 0; Some 0; Some 0; Some 0]; error := [];
     smoothed := []; error_smoothed := [];
     equalization := []; parametric_eq := []; equalized_raw := [];
     equalized_smoothed := []; target := [] |}.

(** The same measurement with its error against a target. *)
Definition fine_input : FrequencyResponse :=
  {| name := "measurement"; frequency := [8000; 8400; 8820; 9261];
     raw := [Some 0; Some 0; Some 0; Some 0];
     error := [Some 1; Some (-5); Some (-5); Some 10];
     smoothed := []; error_smoothed := [];
     equalization := []; parametric_eq := []; equalized_raw := [];
     equalized_smoothed := []; target := [] |}.

(** An error channel with a missing cell. *)
Definition missing_cell : FrequencyResponse :=
  {| name := "measurement"; frequency := [20; 1000];
     raw := [Some 0; Some 0]; error := [Some 1; None];
     smoothed := []; error_smoothed := [];
     equalization := []; parametric_eq := []; equalized_raw := [];
     equalized_smoothed := []; target := [] |}.

(** A measurement and its error at a single frequency. *)
Definition single_error : FrequencyResponse :=
  {| name := "measurement"; frequency := [1000]; raw := [Some 0];
     error := [Some 1]; smoothed := []; error_smoothed := [];
     equalization := []; parametric_eq := []; equalized_raw := [];
     equalized_smoothed := []; target := [] |}.

(** An error channel and a different smoothed error channel. *)
Definition both_errors : FrequencyResponse :=
  {| name := "measurement"; frequency := [1; 10; 100; 1000];
     raw := [Some 0; Some 0; Some 0; Some 0];
     error := [Some 1; Some (-5); Some (-5); Some 10];
     smoothed := []; error_smoothed := [Some 2; Some 2; Some 2; Some 2];
     equalization := []; parametric_eq := []; equalized_raw := [];
     equalized_smoothed := []; target := [] |}.

(** A buffer that holds the two bounds of the bass-boost crossover. *)
Definition band_edges : FrequencyResponse :=
  {| name := "measurement"; frequency := [60; 200];
     raw := [Some 0; Some 0]; error := []; smoothed := [];
     error_smoothed := []; equalization := []; parametric_eq := [];
     equalized_raw := []; equalized_smoothed := []; target := [] |}.

(** A grid of decades and a smoothed target with local maxima of +1 dB
    at 10 Hz and +2 dB at 1000 Hz, 0.99 dB in between. *)
Definition decades : list R := [1; 10; 100; 1000; 10000].
Definition two_peaks : list R := [0; 1; 99 / 100; 2; 0].

(** The step losses of the failing run: 1, 0.995, then 0.999 for ever. *)
Definition regress_run : Optimizer.loop_state nat :=
  Optimizer.optimize (list Q * nat) nat (Optimizer.replay_train (999 # 1000)%Q)
    Optimizer.replay_fetch (1 # 10)%Q ([1; 199 # 200]%Q, 0%nat).

End Examples.

(** ** Where the clipping of [equalize] sets in *)

Module Kink.
Import Num Arr FR.
Local Open Scope R_scope.

(** [gain > max_gain[i]] at index [i] of the loop of [equalize]. *)
Definition clipped_at (errs gain_k max_gain : list R) (i : nat) : bool :=
  match nth_error errs i, nth_error gain_k i, nth_error max_gain i with
  | Some e, Some k, Some m => Rltb m (- e * k)
  | _, _, _ => false
  end.

(** [previous_clipped != clipped] at index [i]; before the first index
    nothing is clipped. *)
Definition changes_at (errs gain_k max_gain : list R) (i : nat) : bool :=
  negb (Bool.eqb
          match i with
          | O => false
          | S p => clipped_at errs gain_k max_gain p
          end
          (clipped_at errs gain_k max_gain i)).

End Kink.

(** ** Further inputs used in the statements below *)

Module Inputs.
Import Num Arr FR.
Local Open Scope R_scope.

(** The order of [argsort] on (frequency, index) pairs. *)
Definition by_fst (p q : R * nat) : Prop := fst p <= fst q.

(** A measurement given with descending frequencies. *)
Definition unsorted : FrequencyResponse :=
  {| name := "measurement"; frequency := [1000; 20];
     raw := [Some 1; Some 2]; error := []; smoothed := [];
     error_smoothed := []; equalization := []; parametric_eq := [];
     equalized_raw := []; equalized_smoothed := []; target := [] |}.

(** A measurement with one cell more than frequencies. *)
Definition long_raw : FrequencyResponse :=
  {| name := "measurement"; frequency := [1000; 20];
     raw := [Some 1; Some 2; Some 3]; error := []; smoothed := [];
     error_smoothed := []; equalization := []; parametric_eq := [];
     equalized_raw := []; equalized_smoothed := []; target := [] |}.

(** A measurement with one cell less than frequencies. *)
Definition short_raw : FrequencyResponse :=
  {| name := "measurement"; frequency := [20; 1000];
     raw := [Some 1]; error := []; smoothed := [];
     error_smoothed := []; equalization := []; parametric_eq := [];
     equalized_raw := []; equalized_smoothed := []; target := [] |}.

(** A measurement at a single frequency. *)
Definition single_point : FrequencyResponse :=
  {| name := "measurement"; frequency := [1000]; raw := [Some 1];
     error := []; smoothed := []; error_smoothed := [];
     equalization := []; parametric_eq := []; equalized_raw := [];
     equalized_smoothed := []; target := [] |}.

(** A smoothed target that is flat at +1 dB from 10 Hz to 1000 Hz, on
    the grid [Examples.decades]. *)
Definition flat_top : list R := [0; 1; 1; 1; 0].

(** A stored measurement without missing values. *)
Definition complete : FrequencyResponse :=
  {| name := "measurement"; frequency := [20; 1000];
     raw := [Some (150 / 100); Some (-225 / 100)];
     error := [Some (50 / 100); Some (-25 / 100)];
     smoothed := [];
     error_smoothed := [Some (40 / 100); Some (-20 / 100)];
     equalization := []; parametric_eq := []; equalized_raw := [];
     equalized_smoothed := []; target := [Some 1; Some (175 / 100)] |}.

(** An equalized measurement: the equalization curve peaks at +3 dB,
    the parametric curve at +2 dB. *)
Definition equalized : FrequencyResponse :=
  {| name := "measurement"; frequency := [20; 1000];
     raw := []; error := []; smoothed := []; error_smoothed := [];
     equalization := [Some 3; Some (-2)];
     parametric_eq := [Some 2; Some (-1)];
     equalized_raw := []; equalized_smoothed := []; target := [] |}.

End Inputs.

(** * Properties *)

(** ** The frequency grid *)

Module GridFacts.
Import Grid.
Local Open Scope Q_scope.

Lemma Qltb_lt (a b : Q) : Qltb a b = true <-> a < b.
Proof.
  unfold Qltb. rewrite negb_true_iff. split.
  - intros H. apply Qnot_le_lt. intros Hle.
    apply Qle_bool_iff in Hle. congruence.
  - intros H. destruct (Qle_bool b a) eqn:E; [|reflexivity].
    apply Qle_bool_iff in E. exfalso. exact (Qlt_not_le _ _ H E).
Qed.

Lemma inject_Z_lt_half (n g : Z) :
  inject_Z n < inject_Z g + (1 # 2) -> (n <= g)%Z.
Proof.
  unfold Qlt, Qplus, inject_Z. cbn [Qnum Qden]. lia.
Qed.

Lemma inject_Z_gt_half (n g : Z) :
  inject_Z g - (1 # 2) < inject_Z (n + 1) -> (g - 1 <= n)%Z.
Proof.
  unfold Qlt, Qminus, Qplus, Qopp, inject_Z. cbn [Qnum Qden]. lia.
Qed.

(** A value strictly between [g - 1/2] and [g + 1/2] rounds to [g]. *)
Lemma rounds_to_py_round (f : Q) (g : Z) :
  rounds_to f g = true -> py_round f = g.
Proof.
  unfold rounds_to. rewrite andb_true_iff, !Qltb_lt.
  intros [Hlo Hhi].
  assert (Hlo' : inject_Z g - (1 # 2) < f).
  { revert Hlo. destruct f as [p q].
    unfold Qlt, Qmult, Qminus, Qplus, Qopp, inject_Z. cbn [Qnum Qden]. lia. }
  assert (Hhi' : f < inject_Z g + (1 # 2)).
  { revert Hhi. destruct f as [p q].
    unfold Qlt, Qmult, Qminus, Qplus, Qopp, inject_Z. cbn [Qnum Qden]. lia. }
  pose proof (Qfloor_le f) as Hfl.
  pose proof (Qlt_floor f) as Hfu.
  assert (Hn : (Qfloor f <= g)%Z).
  { apply inject_Z_lt_half. Lqa.lra. }
  assert (Hm : (g - 1 <= Qfloor f)%Z).
  { apply inject_Z_gt_half. Lqa.lra. }
  unfold py_round.
  destruct (Z.eq_dec (Qfloor f) g) as [E | E].
  - rewrite E.
    destruct (Qcompare_spec (f - inject_Z g) (1 # 2)) as [Hc | Hc | Hc];
      [exfalso; Lqa.lra | reflexivity | exfalso; Lqa.lra].
  - assert (E' : Qfloor f = (g - 1)%Z) by lia.
    rewrite E'.
    assert (Hg : inject_Z (g - 1) == inject_Z g - 1).
    { unfold Qeq, Qminus, Qplus, Qopp, inject_Z. cbn [Qnum Qden]. lia. }
    destruct (Qcompare_spec (f - inject_Z (g - 1)) (1 # 2)) as [Hc | Hc | Hc];
      [exfalso; rewrite Hg in Hc; Lqa.lra
      | exfalso; rewrite Hg in Hc; Lqa.lra
      | lia].
Qed.

(** A certified trace is what the first loop appends. *)
Lemma loop_down_checked (f_min f_step : Q) (trace : list Z) :
  forall (fuel : nat) (f : Q) (freq_new : list Z),
    check_down f_min f_step f trace = true ->
    (length trace <= fuel)%nat ->
    loop_down fuel f_min f_step f freq_new = Some (freq_new ++ trace).
Proof.
  induction trace as [| g rest IH]; intros fuel f acc Hc Hlen.
  - simpl in Hc. apply negb_true_iff in Hc.
    destruct fuel; simpl; rewrite Hc, app_nil_r; reflexivity.
  - simpl in Hc. apply andb_true_iff in Hc. destruct Hc as [Hc Hrest].
    apply andb_true_iff in Hc. destruct Hc as [Hgt Hr].
    destruct fuel as [| fuel]; [simpl in Hlen; lia|].
    simpl. rewrite Hgt, (rounds_to_py_round _ _ Hr).
    rewrite (IH fuel (f / f_step) (acc ++ [g]) Hrest).
    + rewrite <- app_assoc. reflexivity.
    + simpl in Hlen. lia.
Qed.

(** More fuel does not change a run that ended. *)
Lemma loop_down_fuel_mono (f_min f_step : Q) :
  forall (fuel fuel' : nat) (f : Q) (freq_new r : list Z),
    loop_down fuel f_min f_step f freq_new = Some r ->
    (fuel <= fuel')%nat ->
    loop_down fuel' f_min f_step f freq_new = Some r.
Proof.
  induction fuel as [| fuel IH]; intros fuel' f acc r H Hle.
  - simpl in H. destruct (Qltb f_min f) eqn:E; [discriminate|].
    destruct fuel'; simpl; rewrite E; exact H.
  - destruct fuel' as [| fuel']; [lia|].
    simpl in *. destruct (Qltb f_min f); [|exact H].
    apply (IH fuel'); [exact H | lia].
Qed.

Lemma loop_up_fuel_mono (f_max f_step : Q) :
  forall (fuel fuel' : nat) (f : Q) (freq_new r : list Z),
    loop_up fuel f_max f_step f freq_new = Some r ->
    (fuel <= fuel')%nat ->
    loop_up fuel' f_max f_step f freq_new = Some r.
Proof.
  induction fuel as [| fuel IH]; intros fuel' f acc r H Hle.
  - simpl in H. destruct (Qltb f f_max) eqn:E; [discriminate|].
    destruct fuel'; simpl; rewrite E; exact H.
  - destruct fuel' as [| fuel']; [lia|].
    simpl in *. destruct (Qltb f f_max); [|exact H].
    apply (IH fuel'); [exact H | lia].
Qed.

Lemma generate_frequencies_fuel_mono (fuel fuel' : nat) (f_min f_max f_step : Q)
    (g : list Z) :
  generate_frequencies fuel f_min f_max f_step = Some g ->
  (fuel <= fuel')%nat ->
  generate_frequencies fuel' f_min f_max f_step = Some g.
Proof.
  unfold generate_frequencies. intros H Hle.
  destruct (loop_down fuel _ _ _ _) as [d |] eqn:Ed; [|discriminate].
  rewrite (loop_down_fuel_mono _ _ _ _ _ _ _ Ed Hle).
  destruct (loop_up fuel _ _ _ _) as [u |] eqn:Eu; [|discriminate].
  rewrite (loop_up_fuel_mono _ _ _ _ _ _ _ Eu Hle). exact H.
Qed.

Lemma strictly_increasing_nth (l : list Z) :
  strictly_increasing l = true ->
  forall i : nat, (S i < length l)%nat -> (nth i l 0 < nth (S i) l 0)%Z.
Proof.
  induction l as [| x t IH]; intros H i Hi; [simpl in Hi; lia|].
  destruct t as [| y t']; [simpl in Hi; lia|].
  cbn [strictly_increasing] in H. apply andb_true_iff in H.
  destruct H as [Hxy Ht]. apply Z.ltb_lt in Hxy.
  destruct i as [| i]; [exact Hxy|].
  change (nth i (y :: t') 0 < nth (S i) (y :: t') 0)%Z.
  apply IH; [exact Ht | simpl in *; lia].
Qed.

Lemma insert_uniq_head (x : Z) (l : list Z) (b : Z) :
  (b < x)%Z -> (b < hd (b + 1) l)%Z -> (b < hd (b + 1) (insert_uniq x l))%Z.
Proof.
  destruct l as [| y t]; simpl; intros Hx Hl; [exact Hx|].
  destruct (x <? y)%Z; [exact Hx|].
  destruct (x =? y)%Z; exact Hl.
Qed.

Lemma strictly_increasing_cons (y : Z) (t : list Z) :
  (y < hd (y + 1) t)%Z -> strictly_increasing t = true ->
  strictly_increasing (y :: t) = true.
Proof.
  destruct t as [| z t']; [reflexivity|].
  simpl. intros Hy Ht. apply andb_true_iff. split; [|exact Ht].
  apply Z.ltb_lt. exact Hy.
Qed.

Lemma strictly_increasing_tail (y : Z) (t : list Z) :
  strictly_increasing (y :: t) = true ->
  (y < hd (y + 1) t)%Z /\ strictly_increasing t = true.
Proof.
  destruct t as [| z t']; [simpl; intros _; split; [lia | reflexivity]|].
  cbn [strictly_increasing hd]. intros H. apply andb_true_iff in H.
  destruct H as [H1 H2]. apply Z.ltb_lt in H1. split; assumption.
Qed.

Lemma insert_uniq_increasing (x : Z) (l : list Z) :
  strictly_increasing l = true -> strictly_increasing (insert_uniq x l) = true.
Proof.
  induction l as [| y t IH]; intros H; [reflexivity|].
  cbn [insert_uniq].
  destruct (x <? y)%Z eqn:Elt.
  - apply Z.ltb_lt in Elt. apply strictly_increasing_cons; [exact Elt | exact H].
  - destruct (x =? y)%Z eqn:Eeq; [exact H|].
    apply Z.ltb_ge in Elt. apply Z.eqb_neq in Eeq.
    apply strictly_increasing_tail in H. destruct H as [Hy Ht].
    apply strictly_increasing_cons; [|apply IH; exact Ht].
    apply insert_uniq_head; [lia | exact Hy].
Qed.

(** [sorted(set(...))] is strictly increasing whatever the loops appended. *)
Lemma sorted_set_increasing (l : list Z) :
  strictly_increasing (sorted_set l) = true.
Proof.
  induction l as [| x t IH]; [reflexivity|].
  simpl. apply insert_uniq_increasing. exact IH.
Qed.

(** Grid monotonicity for every call that returns. *)
Lemma generate_frequencies_increasing (fuel : nat) (f_min f_max f_step : Q)
    (g : list Z) :
  generate_frequencies fuel f_min f_max f_step = Some g ->
  forall i : nat, (S i < length g)%nat -> (nth i g 0 < nth (S i) g 0)%Z.
Proof.
  unfold generate_frequencies. intros H.
  destruct (loop_down _ _ _ _ _) as [d |]; [|discriminate].
  destruct (loop_up _ _ _ _ _) as [u |]; [|discriminate].
  injection H as <-. apply strictly_increasing_nth, sorted_set_increasing.
Qed.

Lemma default_trace_checked :
  check_down DEFAULT_F_MIN DEFAULT_STEP (start_frequency DEFAULT_F_MAX)
    default_trace = true.
Proof. vm_compute. reflexivity. Qed.

(** On exact values every rounding and every loop test of the default call
    is decided with a margin of 0.0001. *)
Lemma default_trace_margin :
  check_margin (1 # 10000) DEFAULT_F_MIN DEFAULT_STEP
    (start_frequency DEFAULT_F_MAX) default_trace = true.
Proof. vm_compute. reflexivity. Qed.

(** The default call returns [default_frequencies] as soon as the fuel
    covers its 695 iterations. *)
Lemma generate_frequencies_default (extra : nat) :
  generate_frequencies (695 + extra) DEFAULT_F_MIN DEFAULT_F_MAX DEFAULT_STEP
  = Some default_frequencies.
Proof.
  assert (Hlen : (length default_trace <= 695 + extra)%nat).
  { replace (length default_trace) with 695%nat by (vm_compute; reflexivity).
    lia. }
  pose proof (loop_down_checked DEFAULT_F_MIN DEFAULT_STEP default_trace
                (695 + extra) (start_frequency DEFAULT_F_MAX) []
                default_trace_checked Hlen) as Hdown.
  assert (Hup : forall fuel l,
             loop_up fuel DEFAULT_F_MAX DEFAULT_STEP
               (start_frequency DEFAULT_F_MAX) l = Some l).
  { intros fuel l. destruct fuel; reflexivity. }
  assert (Hset : sorted_set ([] ++ default_trace) = default_frequencies)
    by (vm_compute; reflexivity).
  unfold generate_frequencies. rewrite Hdown, Hup, Hset. reflexivity.
Qed.

(** C7, as amended: the default grid is strictly increasing, starts at 20,
    ends at 20000 and has 613 points. *)
Theorem C7_default_grid :
  exists G : list Z,
    (forall extra : nat,
        generate_frequencies (695 + extra) (20) (20000) (101 # 100) = Some G) /\
    (forall i : nat, (S i < length G)%nat -> (nth i G 0 < nth (S i) G 0)%Z) /\
    hd 0%Z G = 20%Z /\
    last G 0%Z = 20000%Z /\
    length G = 613%nat.
Proof.
  exists default_frequencies. split; [exact generate_frequencies_default|].
  split; [apply strictly_increasing_nth; vm_compute; reflexivity|].
  repeat split; vm_compute; reflexivity.
Qed.

(** C7, as stated, fails: no run of the default call returns a grid of 700
    to 720 points. *)
Lemma C7_length_counterexample :
  ~ (exists (fuel : nat) (G : list Z),
        generate_frequencies fuel (20) (20000) (101 # 100) = Some G /\
        (700 <= length G <= 720)%nat).
Proof.
  intros (fuel & G & Hrun & Hlen).
  assert (H : generate_frequencies (695 + fuel) (20) (20000) (101 # 100) = Some G).
  { apply (generate_frequencies_fuel_mono fuel); [exact Hrun | lia]. }
  change (generate_frequencies (695 + fuel) DEFAULT_F_MIN DEFAULT_F_MAX DEFAULT_STEP
          = Some G) in H.
  rewrite generate_frequencies_default in H. injection H as <-.
  change (length default_frequencies) with 613%nat in Hlen. lia.
Qed.

End GridFacts.

(** ** The optimisation loop *)

Module OptimizerFacts.
Import Optimizer Examples.
Local Open Scope Q_scope.

(** C3: on the step losses 1, 0.995, 0.999, ... the saved parameters are
    those of step 1, then of step 2 (loss 0.995), then of step 3 (loss
    0.999): the third update is worse than the second.  The loop ends on
    the bad-step limit with the parameters of a step of loss 0.999 saved
    and [min_loss] still 1. *)
Theorem C3_saved_parameters_regress :
  firstn 3 (saved_losses nat regress_run) = [1; 199 # 200; 999 # 1000] /\
  non_increasing (saved_losses nat regress_run) = false /\
  last (saved_losses nat regress_run) 0 = 999 # 1000 /\
  min_loss nat regress_run = Some 1 /\
  bad_steps nat regress_run = 301%nat /\
  saved nat regress_run = Some 302%nat.
Proof. vm_compute. repeat split; reflexivity. Qed.

Section Loop.
Variables session params : Type.
Variable run_train : Q -> session -> Q * session.
Variable fetch : session -> params.

Lemma Qltb_false_le (a b : Q) : Qltb a b = false -> b <= a.
Proof.
  unfold Qltb, Grid.Qltb. intros H. apply negb_false_iff in H.
  apply Qle_bool_iff. exact H.
Qed.

Lemma snoc_not_nil {A : Type} (l : list A) (x : A) : l ++ [x] <> [].
Proof. destruct l; discriminate. Qed.

Lemma tracks_after_save (st : loop_state params) (step_loss lr : Q)
    (n : nat) (p : option params) :
  tracks params
    {| min_loss := Some step_loss; bad_steps := n; saved := p;
       learning_rate_value := lr;
       saved_losses := saved_losses params st ++ [step_loss] |}.
Proof.
  unfold tracks. cbn. rewrite last_last.
  split; [apply snoc_not_nil|]. unfold threshold. split; Lqa.lra.
Qed.

(** The loop keeps the saved loss between [min_loss - threshold] and
    [min_loss]: a later update can be worse than an earlier one, but by
    less than [threshold]. *)
Lemma optimization_loop_tracks (target_loss : Q) :
  forall (steps : nat) (sess : session) (st : loop_state params),
    tracks params st ->
    tracks params
      (optimization_loop session params run_train fetch steps target_loss
         sess st).
Proof.
  induction steps as [| steps IH]; intros sess st Hst; [exact Hst|].
  cbn [optimization_loop].
  destruct (run_train (learning_rate_value params st) sess)
    as [step_loss sess'].
  unfold tracks in Hst.
  destruct (min_loss params st) as [m |] eqn:Em.
  - destruct Hst as (Hne & Hle & Hthr).
    destruct (Qltb threshold (m - step_loss)) eqn:Ebig.
    + assert (Hlt : step_loss < m).
      { apply GridFacts.Qltb_lt in Ebig. unfold threshold in Ebig. Lqa.lra. }
      apply GridFacts.Qltb_lt in Hlt. unfold Qltb in *. rewrite Hlt.
      destruct (Grid.Qltb step_loss target_loss);
        [apply tracks_after_save | apply IH, tracks_after_save].
    + apply Qltb_false_le in Ebig.
      destruct (Qltb step_loss m) eqn:Elt.
      * apply GridFacts.Qltb_lt in Elt.
        assert (Hnew : forall lr,
                   tracks params
                     {| min_loss := Some m;
                        bad_steps := S (bad_steps params st);
                        saved := Some (fetch sess');
                        learning_rate_value := lr;
                        saved_losses :=
                          saved_losses params st ++ [step_loss] |}).
        { intros lr. unfold tracks. cbn. rewrite last_last.
          split; [apply snoc_not_nil|]. split; Lqa.lra. }
        destruct (Nat.ltb momentum (S (bad_steps params st)));
          [apply Hnew | apply IH, Hnew].
      * assert (Hnew : forall lr,
                   tracks params
                     {| min_loss := Some m;
                        bad_steps := S (bad_steps params st);
                        saved := saved params st;
                        learning_rate_value := lr;
                        saved_losses := saved_losses params st |}).
        { intros lr. unfold tracks. cbn.
          split; [exact Hne|]. split; assumption. }
        destruct (Nat.ltb momentum (S (bad_steps params st)));
          [apply Hnew | apply IH, Hnew].
  - destruct (Qltb step_loss target_loss);
      [apply tracks_after_save | apply IH, tracks_after_save].
Qed.

Lemma optimize_tracks (target_loss : Q) (sess : session) :
  tracks params (optimize session params run_train fetch target_loss sess).
Proof. apply optimization_loop_tracks. reflexivity. Qed.

End Loop.

End OptimizerFacts.

(** ** Real-number facts *)

Module NumFacts.
Import Num.
Local Open Scope R_scope.

Lemma Rltb_true (a b : R) : a < b -> Rltb a b = true.
Proof. intros H. unfold Rltb. destruct (Rlt_dec a b); [reflexivity | contradiction]. Qed.

Lemma Rltb_false (a b : R) : b <= a -> Rltb a b = false.
Proof. intros H. unfold Rltb. destruct (Rlt_dec a b); [lra | reflexivity]. Qed.

Lemma Rltb_lt (a b : R) : Rltb a b = true <-> a < b.
Proof.
  unfold Rltb. destruct (Rlt_dec a b); split; intros; try assumption;
    try reflexivity; try discriminate; contradiction.
Qed.

Lemma Rleb_true (a b : R) : a <= b -> Rleb a b = true.
Proof. intros H. unfold Rleb. destruct (Rle_dec a b); [reflexivity | contradiction]. Qed.

Lemma Rleb_false (a b : R) : b < a -> Rleb a b = false.
Proof. intros H. unfold Rleb. destruct (Rle_dec a b); [lra | reflexivity]. Qed.

Lemma Reqb_true (a b : R) : a = b -> Reqb a b = true.
Proof. intros H. unfold Reqb. destruct (Req_dec_T a b); [reflexivity | contradiction]. Qed.

Lemma Reqb_false (a b : R) : a <> b -> Reqb a b = false.
Proof. intros H. unfold Reqb. destruct (Req_dec_T a b); [contradiction | reflexivity]. Qed.

Lemma ln_10_pos : 0 < ln 10.
Proof. rewrite <- ln_1. apply ln_increasing; lra. Qed.

Lemma ln_2_pos : 0 < ln 2.
Proof. rewrite <- ln_1. apply ln_increasing; lra. Qed.

Lemma log10_1 : log10 1 = 0.
Proof. unfold log10. rewrite ln_1. pose proof ln_10_pos. field. lra. Qed.

Lemma log10_mult (x y : R) : 0 < x -> 0 < y -> log10 (x * y) = log10 x + log10 y.
Proof.
  intros Hx Hy. unfold log10. rewrite ln_mult by assumption.
  pose proof ln_10_pos. field. lra.
Qed.

Lemma log10_10 : log10 10 = 1.
Proof. unfold log10. pose proof ln_10_pos. field. lra. Qed.

Lemma log10_100 : log10 100 = 2.
Proof.
  replace 100 with (10 * 10) by lra.
  rewrite log10_mult, log10_10 by lra. lra.
Qed.

Lemma log10_1000 : log10 1000 = 3.
Proof.
  replace 1000 with (100 * 10) by lra.
  rewrite log10_mult, log10_100, log10_10 by lra. lra.
Qed.

Lemma log10_increasing (x y : R) : 0 < x -> x < y -> log10 x < log10 y.
Proof.
  intros Hx Hxy. unfold log10. pose proof ln_10_pos.
  apply Rmult_lt_compat_r; [apply Rinv_0_lt_compat; lra|].
  apply ln_increasing; assumption.
Qed.

Lemma ln_sqrt_half (x : R) : 0 < x -> ln (sqrt x) = ln x / 2.
Proof.
  intros Hx. pose proof (sqrt_lt_R0 x Hx) as Hs.
  assert (H : ln x = ln (sqrt x) + ln (sqrt x)).
  { rewrite <- ln_mult by assumption. rewrite sqrt_sqrt by lra. reflexivity. }
  lra.
Qed.

Lemma ln_quot (x y : R) : 0 < x -> 0 < y -> ln (x / y) = ln x - ln y.
Proof.
  intros Hx Hy. unfold Rdiv.
  rewrite ln_mult by (try assumption; apply Rinv_0_lt_compat; assumption).
  rewrite ln_Rinv by assumption. lra.
Qed.

Lemma expit_pos (x : R) : 0 < expit x.
Proof.
  unfold expit. pose proof (exp_pos (- x)).
  apply Rdiv_lt_0_compat; lra.
Qed.

Lemma expit_lt_1 (x : R) : expit x < 1.
Proof.
  unfold expit. pose proof (exp_pos (- x)) as H.
  apply Rmult_lt_reg_r with (1 + exp (- x)); [lra|].
  unfold Rdiv. rewrite Rmult_assoc, Rinv_l by lra. lra.
Qed.

(** [expit(x) + expit(-x) = 1] *)
Lemma expit_opp (x : R) : expit x = 1 - expit (- x).
Proof.
  unfold expit. rewrite Ropp_involutive, exp_Ropp.
  pose proof (exp_pos x) as H. field. split; lra.
Qed.

Lemma exp_double (x : R) : exp (2 * x) = exp x * exp x.
Proof. replace (2 * x) with (x + x) by lra. apply exp_plus. Qed.

(** [e^4 > 49], so [expit(-4) < 0.02]. *)
Lemma exp_4_lower : 49 < exp 4.
Proof.
  assert (H0 : 33 / 32 < exp (1 / 32)).
  { pose proof (exp_ineq1 (1 / 32)). lra. }
  assert (H1 : 1063 / 1000 < exp (1 / 16)).
  { replace (exp (1 / 16)) with (exp (2 * (1 / 32))) by (f_equal; lra). rewrite exp_double. nra. }
  assert (H2 : 11299 / 10000 < exp (1 / 8)).
  { replace (exp (1 / 8)) with (exp (2 * (1 / 16))) by (f_equal; lra). rewrite exp_double. nra. }
  assert (H3 : 12766 / 10000 < exp (1 / 4)).
  { replace (exp (1 / 4)) with (exp (2 * (1 / 8))) by (f_equal; lra). rewrite exp_double. nra. }
  assert (H4 : 16297 / 10000 < exp (1 / 2)).
  { replace (exp (1 / 2)) with (exp (2 * (1 / 4))) by (f_equal; lra). rewrite exp_double. nra. }
  assert (H5 : 26559 / 10000 < exp 1).
  { replace (exp 1) with (exp (2 * (1 / 2))) by (f_equal; lra). rewrite exp_double. nra. }
  assert (H6 : 70538 / 10000 < exp 2).
  { replace (exp 2) with (exp (2 * 1)) by (f_equal; lra). rewrite exp_double. nra. }
  replace (exp 4) with (exp (2 * 2)) by (f_equal; lra). rewrite exp_double. nra.
Qed.

Lemma expit_minus_4_small : expit (- 4) < 1 / 50.
Proof.
  unfold expit. replace (- -4) with 4 by lra. pose proof exp_4_lower as H.
  apply Rmult_lt_reg_r with (1 + exp 4); [lra|].
  unfold Rdiv. rewrite Rmult_assoc, Rinv_l by lra. lra.
Qed.

(** Rounding of a value within a half of an integer. *)
Lemma floor_unique (x : R) (n : Z) : IZR n <= x -> x < IZR n + 1 -> floor x = n.
Proof.
  intros Hlo Hhi. unfold floor.
  assert (H : (n + 1)%Z = up x).
  { apply up_tech; [exact Hlo | rewrite plus_IZR; exact Hhi]. }
  rewrite <- H. lia.
Qed.

Lemma round_below_half (x : R) (n : Z) :
  IZR n <= x -> x < IZR n + 1 / 2 -> round x = n.
Proof.
  intros Hlo Hhi. unfold round.
  rewrite (floor_unique x n) by lra.
  rewrite Rltb_true by lra. reflexivity.
Qed.

Lemma round_above_half (x : R) (n : Z) :
  IZR n - 1 / 2 < x -> x < IZR n -> round x = n.
Proof.
  intros Hlo Hhi. unfold round.
  assert (Hn : IZR (n - 1) = IZR n - 1) by (rewrite minus_IZR; reflexivity).
  rewrite (floor_unique x (n - 1)) by lra.
  rewrite Rltb_false by lra. rewrite Rltb_true by lra. lia.
Qed.

Lemma round_IZR (n : Z) : round (IZR n) = n.
Proof. apply round_below_half; lra. Qed.

Lemma Rltb_false_le (a b : R) : Rltb a b = false -> b <= a.
Proof.
  unfold Rltb. destruct (Rlt_dec a b); [discriminate | intros _; lra].
Qed.

(** Decide the comparisons of the goal that linear arithmetic settles. *)
Ltac rdecide :=
  repeat match goal with
         | |- context [Rltb ?a ?b] =>
             first [ rewrite (Rltb_true a b) by lra
                   | rewrite (Rltb_false a b) by lra ]
         | |- context [Rleb ?a ?b] =>
             first [ rewrite (Rleb_true a b) by lra
                   | rewrite (Rleb_false a b) by lra ]
         | |- context [Reqb ?a ?b] =>
             first [ rewrite (Reqb_true a b) by lra
                   | rewrite (Reqb_false a b) by lra ]
         end.

End NumFacts.

(** ** The sigmoid crossover *)

Module SigmoidFacts.
Import Num FR NumFacts.
Local Open Scope R_scope.

Section Band.
Variables f_lower f_upper : R.
Hypothesis lower_pos : 0 < f_lower.
Hypothesis band : f_lower < f_upper.

Lemma f_center_pos : 0 < f_center f_lower f_upper.
Proof.
  unfold f_center. apply Rmult_lt_0_compat; [|exact lower_pos].
  apply sqrt_lt_R0. apply Rdiv_lt_0_compat; lra.
Qed.

(** The centre is the geometric mean of the bounds. *)
Lemma f_center_geometric_mean :
  f_center f_lower f_upper = sqrt (f_lower * f_upper).
Proof.
  unfold f_center.
  rewrite <- (sqrt_square f_lower) at 2 by lra.
  rewrite <- sqrt_mult.
  - f_equal. field. lra.
  - apply Rlt_le, Rdiv_lt_0_compat; lra.
  - nra.
Qed.

Lemma log10_f_center :
  log10 (f_center f_lower f_upper) = (log10 f_lower + log10 f_upper) / 2.
Proof.
  assert (Hq : 0 < f_upper / f_lower) by (apply Rdiv_lt_0_compat; lra).
  unfold f_center. rewrite log10_mult; [|apply sqrt_lt_R0; exact Hq | exact lower_pos].
  unfold log10. rewrite ln_sqrt_half by exact Hq.
  rewrite ln_quot by lra. pose proof ln_10_pos. field. lra.
Qed.

Lemma half_range_value :
  half_range f_lower f_upper = (log10 f_upper - log10 f_lower) / 2.
Proof. unfold half_range. rewrite log10_f_center. lra. Qed.

Lemma half_range_pos : 0 < half_range f_lower f_upper.
Proof.
  rewrite half_range_value.
  pose proof (log10_increasing f_lower f_upper lower_pos band). lra.
Qed.

Lemma sigmoid_argument_upper :
  (log10 f_upper - log10 (f_center f_lower f_upper))
  / (half_range f_lower f_upper / 4) = 4.
Proof.
  pose proof half_range_pos as Hh.
  change (log10 f_upper - log10 (f_center f_lower f_upper))
    with (half_range f_lower f_upper).
  field. lra.
Qed.

Lemma sigmoid_argument_lower :
  (log10 f_lower - log10 (f_center f_lower f_upper))
  / (half_range f_lower f_upper / 4) = - 4.
Proof.
  pose proof half_range_pos as Hh.
  replace (log10 f_lower - log10 (f_center f_lower f_upper))
    with (- half_range f_lower f_upper)
    by (rewrite half_range_value, log10_f_center; lra).
  field. lra.
Qed.

End Band.

(** The formula of the crossover, for any arguments. *)
Lemma sigmoid_at_formula (f_lower f_upper a_lo a_hi f : R) :
  sigmoid_at f_lower f_upper a_lo a_hi f
  = a_lo
    + expit ((log10 f - log10 (f_center f_lower f_upper))
             / (half_range f_lower f_upper / 4))
      * (a_hi - a_lo).
Proof. unfold sigmoid_at. ring. Qed.

Lemma sigmoid_at_lower (f_lower f_upper a_lo a_hi : R) :
  0 < f_lower -> f_lower < f_upper ->
  sigmoid_at f_lower f_upper a_lo a_hi f_lower
  = a_lo + expit (- 4) * (a_hi - a_lo).
Proof.
  intros Hpos Hband.
  rewrite sigmoid_at_formula, sigmoid_argument_lower by assumption.
  reflexivity.
Qed.

Lemma sigmoid_at_upper (f_lower f_upper a_lo a_hi : R) :
  0 < f_lower -> f_lower < f_upper ->
  sigmoid_at f_lower f_upper a_lo a_hi f_upper
  = a_hi - expit (- 4) * (a_hi - a_lo).
Proof.
  intros Hpos Hband.
  rewrite sigmoid_at_formula, sigmoid_argument_upper by assumption.
  rewrite (expit_opp 4). replace (- (4)) with (-4) by lra. ring.
Qed.

(** [_sigmoid] applies the formula at every frequency of the buffer. *)
Lemma sigmoid_formula (fr : FrequencyResponse)
    (f_lower f_upper a_lo a_hi : R) :
  _sigmoid fr f_lower f_upper a_lo a_hi
  = map (fun f =>
           a_lo
           + expit ((log10 f - log10 (f_center f_lower f_upper))
                    / (half_range f_lower f_upper / 4))
             * (a_hi - a_lo))
      (frequency fr).
Proof.
  unfold _sigmoid. apply map_ext. intros f. apply sigmoid_at_formula.
Qed.

(** C6, as amended: for a band [0 < f_lower < f_upper] the centre is the
    geometric mean, the half-range is [log10 f_upper - log10 f_c], the
    output of [_sigmoid] at every frequency [f] of the buffer is
    [a_lo + logistic(...) * (a_hi - a_lo)], and the logistic weight is
    [logistic(-4)] at [f_lower] and [1 - logistic(-4)] at [f_upper]: where
    the buffer holds [f_lower] (or [f_upper]) the output is off the
    endpoint value by [logistic(-4) * |a_hi - a_lo|], the fraction
    [logistic(-4) < 0.02] of the span. *)
Theorem C6_sigmoid_crossover (f_lower f_upper a_lo a_hi : R) :
  0 < f_lower -> f_lower < f_upper ->
  f_center f_lower f_upper = sqrt (f_lower * f_upper) /\
  half_range f_lower f_upper
  = log10 f_upper - log10 (f_center f_lower f_upper) /\
  0 < half_range f_lower f_upper /\
  (forall f : R,
      sigmoid_at f_lower f_upper a_lo a_hi f
      = a_lo
        + expit ((log10 f - log10 (f_center f_lower f_upper))
                 / (half_range f_lower f_upper / 4))
          * (a_hi - a_lo)) /\
  expit ((log10 f_lower - log10 (f_center f_lower f_upper))
         / (half_range f_lower f_upper / 4)) = expit (- 4) /\
  expit ((log10 f_upper - log10 (f_center f_lower f_upper))
         / (half_range f_lower f_upper / 4)) = 1 - expit (- 4) /\
  sigmoid_at f_lower f_upper a_lo a_hi f_lower
  = a_lo + expit (- 4) * (a_hi - a_lo) /\
  sigmoid_at f_lower f_upper a_lo a_hi f_upper
  = a_hi - expit (- 4) * (a_hi - a_lo) /\
  Rabs (sigmoid_at f_lower f_upper a_lo a_hi f_lower - a_lo)
  = expit (- 4) * Rabs (a_hi - a_lo) /\
  Rabs (sigmoid_at f_lower f_upper a_lo a_hi f_upper - a_hi)
  = expit (- 4) * Rabs (a_hi - a_lo) /\
  0 < expit (- 4) < 1 / 50 /\
  (forall fr : FrequencyResponse,
      _sigmoid fr f_lower f_upper a_lo a_hi
      = map (fun f =>
               a_lo
               + expit ((log10 f - log10 (f_center f_lower f_upper))
                        / (half_range f_lower f_upper / 4))
                 * (a_hi - a_lo))
          (frequency fr)) /\
  (forall (fr : FrequencyResponse) (i : nat) (out : R),
      nth_error (_sigmoid fr f_lower f_upper a_lo a_hi) i = Some out ->
      (nth_error (frequency fr) i = Some f_lower ->
       out = a_lo + expit (- 4) * (a_hi - a_lo) /\
       Rabs (out - a_lo) = expit (- 4) * Rabs (a_hi - a_lo)) /\
      (nth_error (frequency fr) i = Some f_upper ->
       out = a_hi - expit (- 4) * (a_hi - a_lo) /\
       Rabs (out - a_hi) = expit (- 4) * Rabs (a_hi - a_lo))).
Proof.
  intros Hpos Hband.
  pose proof (expit_pos (- 4)) as Hp.
  pose proof (sigmoid_at_lower f_lower f_upper a_lo a_hi Hpos Hband) as Hlo.
  pose proof (sigmoid_at_upper f_lower f_upper a_lo a_hi Hpos Hband) as Hhi.
  assert (Alo : Rabs (sigmoid_at f_lower f_upper a_lo a_hi f_lower - a_lo)
                = expit (- 4) * Rabs (a_hi - a_lo)).
  { rewrite Hlo. replace (a_lo + expit (- 4) * (a_hi - a_lo) - a_lo)
      with (expit (- 4) * (a_hi - a_lo)) by ring.
    rewrite Rabs_mult, (Rabs_pos_eq (expit (- 4))) by lra. reflexivity. }
  assert (Ahi : Rabs (sigmoid_at f_lower f_upper a_lo a_hi f_upper - a_hi)
                = expit (- 4) * Rabs (a_hi - a_lo)).
  { rewrite Hhi. replace (a_hi - expit (- 4) * (a_hi - a_lo) - a_hi)
      with (- (expit (- 4) * (a_hi - a_lo))) by ring.
    rewrite Rabs_Ropp, Rabs_mult, (Rabs_pos_eq (expit (- 4))) by lra.
    reflexivity. }
  split; [apply f_center_geometric_mean; assumption|].
  split; [reflexivity|].
  split; [apply half_range_pos; assumption|].
  split; [intros f; apply sigmoid_at_formula|].
  split; [rewrite sigmoid_argument_lower by assumption; reflexivity|].
  split; [rewrite sigmoid_argument_upper by assumption;
          rewrite (expit_opp 4); replace (- (4)) with (-4) by lra;
          reflexivity|].
  split; [exact Hlo|]. split; [exact Hhi|].
  split; [exact Alo|]. split; [exact Ahi|].
  split; [split; [exact Hp | exact expit_minus_4_small]|].
  split; [intros fr; apply sigmoid_formula|].
  intros fr i out Hout. unfold _sigmoid in Hout.
  rewrite nth_error_map in Hout.
  split; intros Hf; rewrite Hf in Hout; cbn [option_map] in Hout;
    injection Hout as <-.
  - split; [exact Hlo | exact Alo].
  - split; [exact Hhi | exact Ahi].
Qed.

(** C6 at the bass-boost crossover, 60 Hz to 200 Hz, from 6 dB to 0 dB,
    on a buffer that holds both bounds. *)
Lemma C6_sigmoid_witness :
  _sigmoid Examples.band_edges 60 200 6 0
  = [6 + expit (- 4) * (0 - 6); 0 - expit (- 4) * (0 - 6)] /\
  Rabs (6 + expit (- 4) * (0 - 6) - 6) = expit (- 4) * Rabs (0 - 6).
Proof.
  pose proof (C6_sigmoid_crossover 60 200 6 0 ltac:(lra) ltac:(lra)) as H.
  destruct H as (_ & _ & _ & _ & _ & _ & Hlo & Hhi & Alo & _).
  split.
  - unfold _sigmoid. cbn [Examples.band_edges frequency map].
    rewrite Hlo, Hhi. reflexivity.
  - rewrite <- Hlo. exact Alo.
Defined.

(** C6, as stated, fails: at the bass-boost crossover the output at
    [f_lower] is [6 * logistic(-4)] away from [a_lo = 6], which is more
    than [logistic(-4)]. *)
Lemma C6_tolerance_counterexample :
  nth_error (_sigmoid Examples.band_edges 60 200 6 0) 0
  = Some (sigmoid_at 60 200 6 0 60) /\
  ~ Rabs (sigmoid_at 60 200 6 0 60 - 6) <= expit (- 4).
Proof.
  split; [reflexivity|].
  rewrite (sigmoid_at_lower 60 200 6 0) by lra.
  pose proof (expit_pos (- 4)) as Hp.
  replace (6 + expit (- 4) * (0 - 6) - 6) with (- (6 * expit (- 4))) by ring.
  rewrite Rabs_Ropp, Rabs_pos_eq by lra. lra.
Qed.

End SigmoidFacts.

(** ** Reset on mutation *)

Module ResetFacts.
Import Num Arr FR NumFacts Examples.
Local Open Scope R_scope.

Lemma floats_length (a : array) (x : list R) :
  floats a = Ok x -> length x = length a.
Proof.
  revert x. induction a as [| c t IH]; intros x H.
  - injection H as <-. reflexivity.
  - destruct c as [v |]; [|discriminate]. simpl in H.
    destruct (floats t) as [l | e]; [|discriminate].
    injection H as <-. simpl. f_equal. apply IH. reflexivity.
Qed.

Section Spline.
Variable spline : list R -> list R -> nat -> result (R -> R).

Lemma interpolate_resets (fuel : nat) (fr fr' : FrequencyResponse)
    (f : option (list R)) (f_step : Q) (pol_order : nat) (f_min f_max : Q) :
  interpolate spline fuel fr f f_step pol_order f_min f_max = Some (Ok fr') ->
  all_but_raw_empty fr'.
Proof.
  unfold interpolate. intros H.
  destruct (drop_None (raw fr) (frequency fr)) as [[raw' frequency'] | e];
    [|discriminate].
  destruct (spline _ _ _) as [interpolator | e]; [|discriminate].
  destruct (match f with Some g => Some g | None => _ end) as [g |];
    [|discriminate].
  injection H as <-. repeat split.
Qed.

Lemma calibrate_resets (fr calibration fr' : FrequencyResponse) :
  calibrate fr calibration = Ok fr' -> all_but_raw_empty fr'.
Proof.
  unfold calibrate. intros H.
  destruct (isub (raw fr) (raw calibration)) as [raw' | e]; [|discriminate].
  injection H as <-. repeat split.
Qed.

(** [center] empties the error channels only: [target] is kept, and
    [raw] and [smoothed] are both lowered by the level [diff] of the
    linear spline through [raw] at 1 kHz. *)
Lemma center_resets (fr fr' : FrequencyResponse) :
  center spline fr = Ok fr' ->
  error_channels_empty fr' /\
  target fr' = target fr /\
  length (smoothed fr') = length (smoothed fr) /\
  exists (y sm : list R) (interpolator : R -> R),
    floats (raw fr) = Ok y /\
    floats (smoothed fr) = Ok sm /\
    spline (map log10 (frequency fr)) y 1 = Ok interpolator /\
    raw fr'
    = of_floats (map (fun v => v - interpolator (log10 1000)) y) /\
    smoothed fr'
    = of_floats (map (fun v => v - interpolator (log10 1000)) sm).
Proof.
  unfold center. intros H.
  destruct (floats (raw fr)) as [y | e] eqn:Ey; [|discriminate].
  cbn [bind] in H.
  destruct (spline _ _ _) as [interpolator | e] eqn:Es; [|discriminate].
  cbn [bind] in H.
  unfold isub_scalar in H at 1. rewrite Ey in H. cbn [bind] in H.
  destruct (smoothed fr) as [| c t] eqn:Esm.
  - cbn in H. rewrite Esm in H. cbn in H. injection H as <-.
    cbn. rewrite Esm.
    split; [repeat split|]. split; [reflexivity|]. split; [reflexivity|].
    exists y, [], interpolator.
    repeat (split; [first [reflexivity | assumption]|]). reflexivity.
  - cbn in H. rewrite Esm in H. cbn [nonempty] in H.
    unfold isub_scalar in H.
    destruct (floats (c :: t)) as [x | e] eqn:Ef; [|discriminate].
    cbn in H. injection H as <-. cbn.
    split; [repeat split|]. split; [reflexivity|]. split.
    + unfold of_floats. rewrite !length_map.
      apply floats_length in Ef. exact Ef.
    + exists y, x, interpolator.
      repeat (split; [first [reflexivity | assumption]|]). reflexivity.
Qed.

End Spline.

(** C5, as amended: [interpolate] and [calibrate] empty every channel but
    [raw]; [center] empties the channels derived from the error, keeps
    [target] and keeps [smoothed], shifted by the same offset as [raw]:
    both are lowered, value by value, by the level of the linear spline
    through [raw] at 1 kHz. *)
Theorem C5_reset_on_raw_mutation :
  (forall spline fuel fr fr' f f_step pol_order f_min f_max,
      interpolate spline fuel fr f f_step pol_order f_min f_max = Some (Ok fr') ->
      all_but_raw_empty fr') /\
  (forall fr calibration fr',
      calibrate fr calibration = Ok fr' -> all_but_raw_empty fr') /\
  (forall spline fr fr',
      center spline fr = Ok fr' ->
      error_channels_empty fr' /\
      target fr' = target fr /\
      length (smoothed fr') = length (smoothed fr) /\
      exists (y sm : list R) (interpolator : R -> R),
        floats (raw fr) = Ok y /\
        floats (smoothed fr) = Ok sm /\
        spline (map log10 (frequency fr)) y 1%nat = Ok interpolator /\
        raw fr'
        = of_floats (map (fun v => v - interpolator (log10 1000)) y) /\
        smoothed fr'
        = of_floats (map (fun v => v - interpolator (log10 1000)) sm)).
Proof.
  split; [|split].
  - intros spline fuel fr fr' f f_step pol_order f_min f_max.
    apply interpolate_resets.
  - apply calibrate_resets.
  - apply center_resets.
Qed.

(** C5 on [centered_input]: the three operations run and reset as
    stated; [center] lowers [raw] and [smoothed], both [1; 3], by the
    same offset. *)
Lemma C5_reset_witness :
  exists fr1 fr2 fr3 : FrequencyResponse,
    interpolate Lib.InterpolatedUnivariateSpline 0 centered_input
      (Some [100; 1000; 10000]) (101 # 100) 1 20 20000 = Some (Ok fr1) /\
    all_but_raw_empty fr1 /\
    calibrate centered_input centered_input = Ok fr2 /\
    all_but_raw_empty fr2 /\
    center Lib.InterpolatedUnivariateSpline centered_input = Ok fr3 /\
    error_channels_empty fr3 /\
    target fr3 = [Some 0; Some 0] /\
    exists diff : R,
      raw fr3 = [Some (1 - diff); Some (3 - diff)] /\
      smoothed fr3 = [Some (1 - diff); Some (3 - diff)].
Proof.
  destruct C5_reset_on_raw_mutation as (Hi & Hc & Hz).
  assert (Hrun : exists fr3,
             center Lib.InterpolatedUnivariateSpline centered_input = Ok fr3)
    by (eexists; reflexivity).
  destruct Hrun as [fr3 Hrun].
  eexists. eexists. exists fr3.
  split; [reflexivity|].
  split; [apply (Hi Lib.InterpolatedUnivariateSpline 0%nat centered_input _
                   (Some [100; 1000; 10000]) (101 # 100)%Q 1%nat 20%Q 20000%Q);
          reflexivity|].
  split; [reflexivity|].
  split; [apply (Hc centered_input centered_input); reflexivity|].
  split; [exact Hrun|].
  destruct (Hz Lib.InterpolatedUnivariateSpline centered_input fr3 Hrun)
    as (He & Ht & _ & y & sm & interpolator & Hy & Hsm & _ & Hr & Hs).
  split; [exact He|]. split; [exact Ht|].
  cbn in Hy, Hsm. injection Hy as <-. injection Hsm as <-.
  exists (interpolator (log10 1000)). split; [exact Hr | exact Hs].
Defined.

(** C5, as stated, fails for [center]: [target] and [smoothed] survive. *)
Lemma C5_center_counterexample :
  exists fr' : FrequencyResponse,
    center Lib.InterpolatedUnivariateSpline centered_input = Ok fr' /\
    target fr' = [Some 0; Some 0] /\
    length (smoothed fr') = 2%nat /\
    ~ all_but_raw_empty fr'.
Proof.
  eexists. split; [reflexivity|].
  split; [reflexivity|]. split; [reflexivity|].
  intros (H & _). discriminate H.
Qed.

End ResetFacts.

(** ** CSV round trip *)

Module CsvFacts.
Import Num Arr FR NumFacts Examples.
Local Open Scope R_scope.

Lemma float_format_2_hundredths (n : Z) :
  float_format_2 (IZR n / 100) = IZR n / 100.
Proof.
  unfold float_format_2.
  replace (IZR n / 100 * 100) with (IZR n) by field.
  rewrite round_IZR. reflexivity.
Qed.

Lemma float_format_2_integer (n : Z) : float_format_2 (IZR n) = IZR n.
Proof.
  unfold float_format_2.
  replace (IZR n * 100) with (IZR (n * 100))
    by (rewrite mult_IZR; reflexivity).
  rewrite round_IZR, mult_IZR. field.
Qed.

(** Whatever the file holds, the buffer read from it has no
    [error_smoothed]: the constructor is called without it. *)
Lemma read_from_csv_error_smoothed (name_ : string) (df : DataFrame)
    (fr' : FrequencyResponse) :
  read_from_csv name_ df = Ok fr' -> error_smoothed fr' = [].
Proof.
  unfold read_from_csv, __init__, _sort. intros H.
  destruct (match column df "frequency" with
            | Some cells => _ | None => _ end) as [fq | e]; [|discriminate].
  cbn [bind] in H.
  change (sort_channel (error_smoothed _) _) with (@Ok array []) in H.
  repeat match type of H with
         | bind (Ok _) _ = Ok _ => cbn [bind] in H
         | bind ?r _ = Ok _ =>
             let x := fresh "x" in
             destruct r as [x | ?]; [cbn [bind] in H | discriminate H]
         end.
  injection H as <-. reflexivity.
Qed.

(** C2: written and read back, [stored] keeps every channel but
    [error_smoothed], which was present and comes back empty. *)
Theorem C2_error_smoothed_lost :
  exists fr' : FrequencyResponse,
    read_from_csv "measurement" (write_to_csv float_format_2 stored) = Ok fr' /\
    column (write_to_csv float_format_2 stored) "error_smoothed"
    = Some [Some (40 / 100); Some (-20 / 100)] /\
    error_smoothed stored = [Some (40 / 100); Some (-20 / 100)] /\
    error_smoothed fr' = [] /\
    fr' = reset stored false false false true false false false false false.
Proof.
  unfold write_to_csv, stored. cbn -[float_format_2].
  rewrite !float_format_2_hundredths, !float_format_2_integer.
  unfold read_from_csv. cbn -[Rleb].
  unfold __init__. cbn -[Rleb]. unfold _sort. cbn -[Rleb].
  unfold argsort. cbn -[Rleb].
  rewrite Rleb_true by lra. cbn.
  eexists. split; [reflexivity|]. repeat split; reflexivity.
Qed.

End CsvFacts.

(** ** Equalization and the gain limit *)

Module EqualizeFacts.
Import Num Arr FR NumFacts Examples.
Local Open Scope R_scope.

Lemma bounded_by_nil (max_gain : list R) : bounded_by [] max_gain.
Proof. intros j e H. destruct j; discriminate H. Qed.

Lemma bounded_by_snoc (eq max_gain : list R) (g m : R) :
  bounded_by eq max_gain ->
  nth_error max_gain (length eq) = Some m -> g <= m ->
  bounded_by (eq ++ [g]) max_gain.
Proof.
  intros Hb Hm Hg j e Hj.
  destruct (Nat.lt_ge_cases j (length eq)) as [Hlt | Hge].
  - rewrite nth_error_app1 in Hj by exact Hlt. apply Hb. exact Hj.
  - rewrite nth_error_app2 in Hj by exact Hge.
    destruct (j - length eq)%nat as [| k] eqn:Ek.
    + injection Hj as <-. assert (j = length eq) by lia. subst j.
      exists m. split; assumption.
    + destruct k; discriminate Hj.
Qed.

(** The clipping loop keeps the curve below the limit. *)
Lemma clip_loop_bounded (gain_k max_gain : list R) :
  forall (errs : list R) (i : nat) (previous_clipped : bool)
         (kink_inds : list nat) (eq : list R) (r : list nat * list R),
    i = length eq ->
    bounded_by eq max_gain ->
    clip_loop errs i gain_k max_gain previous_clipped kink_inds eq = Ok r ->
    bounded_by (snd r) max_gain /\
    length (snd r) = (length eq + length errs)%nat.
Proof.
  induction errs as [| e rest IH]; intros i prev kinks eq r Hi Hb H.
  - injection H as <-. split; [exact Hb | simpl; lia].
  - cbn [clip_loop] in H.
    destruct (nth_error gain_k i) as [k |]; [|discriminate].
    destruct (nth_error max_gain i) as [m |] eqn:Em; [|discriminate].
    apply IH in H.
    + destruct H as [H1 H2]. split; [exact H1|].
      rewrite H2, length_app. simpl. lia.
    + rewrite length_app. simpl. lia.
    + apply bounded_by_snoc with m; [exact Hb | rewrite <- Hi; exact Em |].
      destruct (Rltb m (- e * k)) eqn:Ec; [lra|].
      apply Rltb_false_le. exact Ec.
Qed.

Lemma clipped_curve_bounded (fr : FrequencyResponse) (err : list R)
    (max_gain f_lower f_upper treble_max_gain treble_gain_k : R)
    (r : list nat * list R) :
  clipped_curve fr err max_gain f_lower f_upper treble_max_gain treble_gain_k
  = Ok r ->
  bounded_by (snd r) (_sigmoid fr f_lower f_upper max_gain treble_max_gain) /\
  length (snd r) = length err.
Proof.
  unfold clipped_curve. intros H.
  apply clip_loop_bounded in H; [exact H | reflexivity | apply bounded_by_nil].
Qed.

Lemma sigmoid_at_const (f_lower f_upper c f : R) :
  sigmoid_at f_lower f_upper c c f = c.
Proof. unfold sigmoid_at. ring. Qed.

(** The clipped curve is below the limit at every grid frequency, and
    without kink smoothing it is the equalization.  The limit is the list
    [_sigmoid] computes; it is the program's for a band
    [0 < f_lower < f_upper] and positive frequencies. *)
Lemma clipped_below_max_gain :
  (forall fr err max_gain f_lower f_upper treble_max_gain treble_gain_k r,
      clipped_curve fr err max_gain f_lower f_upper treble_max_gain
        treble_gain_k = Ok r ->
      bounded_by (snd r)
        (_sigmoid fr f_lower f_upper max_gain treble_max_gain)) /\
  (forall spline fr max_gain f_lower f_upper treble_max_gain treble_gain_k fr',
      equalize spline fr max_gain false f_lower f_upper treble_max_gain
        treble_gain_k = Ok fr' ->
      exists eq : list R,
        equalization fr' = of_floats eq /\
        bounded_by eq
          (_sigmoid fr f_lower f_upper max_gain treble_max_gain)).
Proof.
  split.
  - intros fr err max_gain f_lower f_upper tmg tgk r H.
    apply (clipped_curve_bounded _ _ _ _ _ _ _ _ H).
  - intros spline fr max_gain f_lower f_upper tmg tgk fr' H.
    unfold equalize in H.
    destruct (select_error _) as [error_ | e]; [|discriminate].
    cbn [bind] in H.
    destruct (has_None error_ || _ || _); [discriminate|].
    destruct (floats error_) as [err | e]; [|discriminate].
    cbn [bind] in H.
    destruct (clipped_curve _ _ _ _ _ _ _) as [r | e] eqn:Ec; [|discriminate].
    cbn [bind] in H.
    apply clipped_curve_bounded in Ec. destruct Ec as [Hb _].
    exists (snd r). split; [|exact Hb].
    destruct (add _ _) as [er | e]; [|discriminate]. cbn [bind] in H.
    match type of H with
    | (if ?c then _ else _) = _ => destruct c
    end.
    + destruct (add _ _) as [es | e]; [|discriminate]. cbn [bind] in H.
      injection H as <-. reflexivity.
    + injection H as <-. reflexivity.
Qed.

(** Through three points the spline of degree 2 is the parabola of
    Lagrange. *)
Lemma quadratic_three_points (x0 x1 x2 y0 y1 y2 x : R) :
  x0 < x1 -> x1 < x2 ->
  Lib.quadratic_at [x0; x1; x2] [y0; y1; y2] x
  = y0 * ((x - x1) * (x - x2)) / ((x0 - x1) * (x0 - x2))
    + y1 * ((x - x0) * (x - x2)) / ((x1 - x0) * (x1 - x2))
    + y2 * ((x - x0) * (x - x1)) / ((x2 - x0) * (x2 - x1)).
Proof.
  intros H01 H12.
  unfold Lib.quadratic_at. cbn -[IZR Rdiv Rinv].
  unfold Lib.aff_eval, Lib.piece_value, Lib.piece_through, Lib.aff_add,
    Lib.aff_scale, Lib.aff_const.
  cbn -[IZR Rdiv Rinv].
  field. repeat split; try lra.
  assert (H : (x2 - x0) * (x2 - x1) > 0) by (apply Rmult_lt_0_compat; lra).
  lra.
Qed.

Lemma pair_eq (a b c d : R) : a = c -> b = d -> (a, b) = (c, d).
Proof. intros -> ->. reflexivity. Qed.

(** The two parabolas of the example, as functions of the slope at 0. *)
Lemma first_piece :
  Lib.piece_through 0 (Lib.aff_const (-9)) (0, 1) 1 (-1)
  = {| Lib.knot := 0; Lib.val := (-9, 0); Lib.slope := (0, 1);
       Lib.curv := (8, -1) |}.
Proof.
  unfold Lib.piece_through, Lib.aff_const, Lib.aff_scale, Lib.aff_add.
  cbn -[IZR Rdiv Rinv]. f_equal. apply pair_eq; field.
Qed.

Lemma second_piece :
  Lib.piece_through ((1 + 3) / 2) (23, -2) (32, -3) 3 (-1)
  = {| Lib.knot := (1 + 3) / 2; Lib.val := (23, -2); Lib.slope := (32, -3);
       Lib.curv := (-56, 5) |}.
Proof.
  unfold Lib.piece_through, Lib.aff_const, Lib.aff_scale, Lib.aff_add.
  cbn -[IZR Rdiv Rinv]. f_equal. apply pair_eq; field.
Qed.

(** With four points the spline has one knot, half-way between the two
    inner points: it passes through the data and, on symmetric data, has
    its apex at the knot. *)
Lemma quadratic_four_points :
  Lib.quadratic_at [0; 1; 3; 4] [-9; -1; -1; -9] 0 = -9 /\
  Lib.quadratic_at [0; 1; 3; 4] [-9; -1; -1; -9] 1 = -1 /\
  Lib.quadratic_at [0; 1; 3; 4] [-9; -1; -1; -9] 2 = 5 / 3 /\
  Lib.quadratic_at [0; 1; 3; 4] [-9; -1; -1; -9] 3 = -1 /\
  Lib.quadratic_at [0; 1; 3; 4] [-9; -1; -1; -9] 4 = -9.
Proof.
  unfold Lib.quadratic_at.
  cbn -[IZR Rdiv Rinv Rltb Lib.piece_value Lib.piece_slope Lib.piece_through
        Lib.aff_eval].
  rewrite first_piece.
  replace (Lib.piece_value _ ((1 + 3) / 2)) with (23, -2)
    by (unfold Lib.piece_value, Lib.aff_add, Lib.aff_scale;
        cbn -[IZR Rdiv Rinv]; apply pair_eq; field).
  replace (Lib.piece_slope _ ((1 + 3) / 2)) with (32, -3)
    by (unfold Lib.piece_slope, Lib.aff_add, Lib.aff_scale;
        cbn -[IZR Rdiv Rinv]; apply pair_eq; field).
  rewrite second_piece.
  replace (Lib.piece_value _ 4) with (-137, 12)
    by (unfold Lib.piece_value, Lib.aff_add, Lib.aff_scale;
        cbn -[IZR Rdiv Rinv]; apply pair_eq; field).
  cbn -[IZR Rdiv Rinv Rltb Lib.aff_eval Lib.piece_value].
  rdecide.
  unfold Lib.aff_eval, Lib.piece_value, Lib.aff_add, Lib.aff_scale.
  cbn -[IZR Rdiv Rinv].
  repeat split; field.
Qed.

(** On a grid of decades a window of at most one octave is less than one
    index wide: [_window_size] returns a single sample. *)
Lemma window_size_decades (fr : FrequencyResponse) (octaves : R) :
  frequency fr = [1; 10; 100; 1000] -> 0 <= octaves <= 1 ->
  _window_size fr octaves = Ok 1%Z.
Proof.
  intros Hf Ho. unfold _window_size. rewrite Hf. cbn [steps length Nat.eqb].
  assert (Hs : sum [10 / 1; 100 / 10; 1000 / 100] / INR 3 = 10).
  { unfold sum. cbn. lra. }
  rewrite Hs. pose proof ln_10_pos as H10. pose proof ln_2_pos as H2.
  rewrite Rleb_false by lra. rewrite Reqb_false by lra.
  rewrite ln_Rpower.
  assert (Hlt : 2 * ln 2 < ln 10).
  { replace (2 * ln 2) with (ln (2 * 2)) by (rewrite ln_mult by lra; lra).
    apply ln_increasing; lra. }
  assert (Hq : 0 < ln 2 / ln 10 < 1 / 2).
  { split; [apply Rdiv_lt_0_compat; lra|].
    apply Rmult_lt_reg_r with (ln 10); [lra|].
    unfold Rdiv. rewrite Rmult_assoc, Rinv_l by lra. lra. }
  assert (Hx : octaves * ln 2 / ln 10 = octaves * (ln 2 / ln 10))
    by (field; lra).
  rewrite (round_below_half _ 0); [reflexivity | |]; rewrite Hx; nra.
Qed.

Ltac ev :=
  cbn -[IZR Rltb Rleb Reqb sigmoid_at _window_size doomed log10
        Lib.quadratic_at Lib.linear_at Rdiv].

(** C1: the bound holds in the code only without kink smoothing.  On
    [clip_input] with [max_gain = treble_max_gain = 0] and the band
    6000 Hz to 8000 Hz the limit is 0 dB at every frequency.  With
    [smoothen = False] the equalization is the clipped curve
    [-1, 0, 0, -10], below the limit.  With [smoothen = True] the sample
    at 10 Hz is deleted and the parabola through the three others gives
    [-1, 3, 0, -10]: +3 dB at 10 Hz, above the limit. *)
Theorem C1_smoothing_exceeds_max_gain :
  _sigmoid clip_input 6000 8000 0 0 = [0; 0; 0; 0] /\
  (exists fr' : FrequencyResponse,
      equalize Lib.InterpolatedUnivariateSpline clip_input 0 false
        6000 8000 0 1 = Ok fr' /\
      equalization fr' = of_floats [-1; 0; 0; -10] /\
      bounded_by [-1; 0; 0; -10] (_sigmoid clip_input 6000 8000 0 0)) /\
  (exists fr' : FrequencyResponse,
      equalize Lib.InterpolatedUnivariateSpline clip_input 0 true
        6000 8000 0 1 = Ok fr' /\
      equalization fr' = of_floats [-1; 3; 0; -10] /\
      nth_error (equalization fr') 1 = Some (Some 3) /\
      nth_error (_sigmoid clip_input 6000 8000 0 0) 1 = Some 0 /\
      ~ 3 <= 0 /\
      ~ bounded_by [-1; 3; 0; -10] (_sigmoid clip_input 6000 8000 0 0)).
Proof.
  assert (Hs : _sigmoid clip_input 6000 8000 0 0 = [0; 0; 0; 0]).
  { unfold _sigmoid. cbn [clip_input frequency map].
    rewrite !sigmoid_at_const. reflexivity. }
  split; [exact Hs|]. split.
  - assert (H : exists fr',
               equalize Lib.InterpolatedUnivariateSpline clip_input 0 false
                 6000 8000 0 1 = Ok fr' /\
               equalization fr' = of_floats [-1; 0; 0; -10]).
    { unfold equalize, clipped_curve, _sigmoid. ev.
      rewrite !sigmoid_at_const. rdecide. ev.
      eexists. split; [reflexivity|]. ev.
      unfold of_floats. cbn [map]. repeat f_equal; lra. }
    destruct H as (fr' & Hrun & Heq). exists fr'.
    split; [exact Hrun|]. split; [exact Heq|].
    rewrite Hs. intros j e Hj.
    do 4 (destruct j as [| j];
          [injection Hj as <-; exists 0; split; [reflexivity | lra]|]).
    destruct j; discriminate Hj.
  - assert (H : exists fr',
               equalize Lib.InterpolatedUnivariateSpline clip_input 0 true
                 6000 8000 0 1 = Ok fr' /\
               equalization fr' = of_floats [-1; 3; 0; -10]).
    { unfold equalize, clipped_curve, _sigmoid. ev.
      rewrite !sigmoid_at_const. rdecide. ev.
      unfold smooth_kinks.
      rewrite window_size_decades by (try reflexivity; lra). ev.
      match goal with
      | |- context [doomed ?a ?b ?c ?d] =>
          replace (doomed a b c d) with [1%Z] by reflexivity
      end.
      ev. rewrite log10_1, log10_10, log10_100, log10_1000.
      rewrite !quadratic_three_points by lra.
      eexists. split; [reflexivity|]. ev.
      unfold of_floats. cbn [map]. repeat f_equal; field. }
    destruct H as (fr' & Hrun & Heq). exists fr'.
    split; [exact Hrun|]. split; [exact Heq|].
    split; [rewrite Heq; reflexivity|].
    split; [rewrite Hs; reflexivity|].
    split; [lra|].
    intros Hb. destruct (Hb 1%nat 3 eq_refl) as (m & Hm & Hle).
    rewrite Hs in Hm. injection Hm as <-. lra.
Qed.

End EqualizeFacts.

(** ** The smoothing window on a grid with bounded steps *)

Module WindowRange.
Import Num Arr FR NumFacts.
Local Open Scope R_scope.

Lemma round_near (x : R) : x - 1 / 2 <= IZR (round x) <= x + 1 / 2.
Proof.
  unfold round, floor.
  destruct (archimed x) as [H1 H2].
  set (n := (up x - 1)%Z).
  assert (Hn : IZR n = IZR (up x) - 1) by (unfold n; rewrite minus_IZR; lra).
  destruct (Rltb (x - IZR n) (1 / 2)) eqn:E1.
  - apply Rltb_lt in E1. lra.
  - apply Rltb_false_le in E1.
    destruct (Rltb (1 / 2) (x - IZR n)) eqn:E2.
    + rewrite plus_IZR. lra.
    + apply Rltb_false_le in E2.
      destruct (Z.even n); [lra | rewrite plus_IZR; lra].
Qed.

Lemma ln_le_sub (y : R) : 0 < y -> ln y <= y - 1.
Proof.
  intros Hy. pose proof (exp_ineq1_le (ln y)) as H.
  rewrite exp_ln in H by exact Hy. lra.
Qed.

Lemma ln_ge_sub (y : R) : 0 < y -> 1 - / y <= ln y.
Proof.
  intros Hy. pose proof (ln_le_sub (/ y) (Rinv_0_lt_compat _ Hy)) as H.
  rewrite ln_Rinv in H by exact Hy. lra.
Qed.

Lemma ln_2_range : 7 / 12 <= ln 2 <= 47 / 60.
Proof.
  split.
  - replace 2 with ((4 / 3) * (3 / 2)) by lra.
    rewrite ln_mult by lra.
    pose proof (ln_ge_sub (4 / 3) ltac:(lra)) as H1.
    pose proof (ln_ge_sub (3 / 2) ltac:(lra)) as H2.
    replace (/ (4 / 3)) with (3 / 4) in H1 by lra.
    replace (/ (3 / 2)) with (2 / 3) in H2 by lra. lra.
  - replace 2 with ((5 / 4) * ((4 / 3) * (6 / 5))) by lra.
    rewrite !ln_mult by lra.
    pose proof (ln_le_sub (5 / 4) ltac:(lra)).
    pose proof (ln_le_sub (4 / 3) ltac:(lra)).
    pose proof (ln_le_sub (6 / 5) ltac:(lra)). lra.
Qed.

Lemma sum_range (lo hi : R) (l : list R) :
  Forall (fun s => lo <= s <= hi) l ->
  forall acc : R,
    acc + INR (length l) * lo <= fold_left Rplus l acc
    <= acc + INR (length l) * hi.
Proof.
  induction 1 as [| x t Hx Ht IH]; intros acc.
  - cbn. lra.
  - cbn [fold_left]. change (length (x :: t)) with (S (length t)).
    rewrite S_INR. specialize (IH (acc + x)). lra.
Qed.

Lemma mean_range (lo hi : R) (l : list R) :
  Forall (fun s => lo <= s <= hi) l -> l <> [] ->
  lo <= sum l / INR (length l) <= hi.
Proof.
  intros H Hne.
  assert (Hpos : 0 < INR (length l)).
  { apply lt_0_INR. destruct l; [congruence | simpl; lia]. }
  pose proof (sum_range lo hi l H 0) as Hs. fold (sum l) in Hs.
  rewrite !Rplus_0_l in Hs.
  split.
  - apply Rmult_le_reg_r with (INR (length l)); [exact Hpos|].
    unfold Rdiv. rewrite Rmult_assoc, Rinv_l by lra. lra.
  - apply Rmult_le_reg_r with (INR (length l)); [exact Hpos|].
    unfold Rdiv. rewrite Rmult_assoc, Rinv_l by lra. lra.
Qed.


(** The window of [_window_size] when every step of the grid lies between
    [lo] and [hi]. *)
Lemma window_size_range (fr : FrequencyResponse) (octaves lo hi : R) :
  steps (frequency fr) <> [] ->
  Forall (fun s => lo <= s <= hi) (steps (frequency fr)) ->
  1 < lo -> 0 <= octaves ->
  exists w : Z,
    _window_size fr octaves = Ok w /\
    Z.odd w = true /\
    octaves * ln 2 / ln hi - 1 / 2 <= IZR w
    <= octaves * ln 2 / ln lo + 3 / 2.
Proof.
  intros Hne Hst Hlo Ho.
  pose proof (mean_range lo hi _ Hst Hne) as Hm.
  unfold _window_size.
  destruct (steps (frequency fr)) as [| s0 st] eqn:Est; [congruence|].
  cbn [length Nat.eqb].
  change (S (length st)) with (length (s0 :: st)).
  set (m := sum (s0 :: st) / INR (length (s0 :: st))) in *.
  rewrite Rleb_false by lra.
  assert (Hlnlo : 0 < ln lo) by (rewrite <- ln_1; apply ln_increasing; lra).
  assert (Hlnm : ln lo <= ln m).
  { destruct (Req_dec lo m) as [-> | Hd]; [lra|].
    left. apply ln_increasing; lra. }
  assert (Hlnhi : ln m <= ln hi).
  { destruct (Req_dec m hi) as [-> | Hd]; [lra|].
    left. apply ln_increasing; lra. }
  rewrite Reqb_false by lra.
  rewrite ln_Rpower.
  set (x := octaves * ln 2 / ln m).
  pose proof ln_2_pos as H2.
  assert (Hnum : 0 <= octaves * ln 2) by nra.
  assert (Hxlo : octaves * ln 2 / ln hi <= x).
  { unfold x, Rdiv. apply Rmult_le_compat_l; [exact Hnum|].
    apply Rinv_le_contravar; lra. }
  assert (Hxhi : x <= octaves * ln 2 / ln lo).
  { unfold x, Rdiv. apply Rmult_le_compat_l; [exact Hnum|].
    apply Rinv_le_contravar; lra. }
  pose proof (round_near x) as Hr.
  pose proof (Z.div_mod (round x) 2 ltac:(lia)) as Hd.
  pose proof (Z.mod_pos_bound (round x) 2 ltac:(lia)) as Hb.
  destruct (Z.eqb (round x mod 2) 0) eqn:Ev;
    [apply Z.eqb_eq in Ev | apply Z.eqb_neq in Ev];
    eexists; (split; [reflexivity|]); split.
  - apply Z.odd_spec. exists (round x / 2)%Z. lia.
  - rewrite plus_IZR. lra.
  - apply Z.odd_spec. exists (round x / 2)%Z. lia.
  - lra.
Qed.

(** A window that [savgol_filter] of order 2 accepts on [n] samples:
    longer than the order and not longer than the data. *)
Lemma window_size_savgol (fr : FrequencyResponse) (octaves lo hi : R)
    (n : nat) :
  steps (frequency fr) <> [] ->
  Forall (fun s => lo <= s <= hi) (steps (frequency fr)) ->
  1 < lo -> 0 <= octaves ->
  3 / 2 * (hi - 1) < octaves * (7 / 12) ->
  octaves * (47 / 60) * lo <= (INR n - 3 / 2) * (lo - 1) ->
  exists w : Z,
    _window_size fr octaves = Ok w /\
    (2 < w)%Z /\ (w <= Z.of_nat n)%Z.
Proof.
  intros Hne Hst Hlo Ho Hlow Hupp.
  destruct (window_size_range fr octaves lo hi Hne Hst Hlo Ho)
    as (w & Hw & Hodd & Hwlo & Hwhi).
  exists w. split; [exact Hw|].
  assert (Hlohi : lo <= hi).
  { destruct (steps (frequency fr)) as [| s0 st]; [congruence|].
    inversion Hst as [| ? ? Hs0 _]; subst. lra. }
  pose proof ln_2_range as [L2 U2].
  assert (Hlnlo : 0 < ln lo) by (rewrite <- ln_1; apply ln_increasing; lra).
  assert (Hlnhi : 0 < ln hi) by (rewrite <- ln_1; apply ln_increasing; lra).
  pose proof (ln_le_sub hi ltac:(lra)) as Hh.
  pose proof (ln_ge_sub lo ltac:(lra)) as Hl.
  assert (Hx1 : 3 / 2 < octaves * ln 2 / ln hi).
  { apply Rmult_lt_reg_r with (ln hi); [exact Hlnhi|].
    replace (octaves * ln 2 / ln hi * ln hi) with (octaves * ln 2)
      by (field; lra).
    nra. }
  assert (Hx2 : octaves * ln 2 / ln lo <= INR n - 3 / 2).
  { apply Rmult_le_reg_r with (ln lo); [exact Hlnlo|].
    replace (octaves * ln 2 / ln lo * ln lo) with (octaves * ln 2)
      by (field; lra).
    assert (Hq : (lo - 1) / lo <= ln lo).
    { replace ((lo - 1) / lo) with (1 - / lo) by (field; lra). exact Hl. }
    assert (Hn : 0 <= INR n - 3 / 2).
    { apply Rmult_le_reg_r with (lo - 1); [lra|]. nra. }
    apply Rle_trans with ((INR n - 3 / 2) * ((lo - 1) / lo)).
    - apply Rmult_le_reg_r with lo; [lra|].
      replace ((INR n - 3 / 2) * ((lo - 1) / lo) * lo)
        with ((INR n - 3 / 2) * (lo - 1)) by (field; lra).
      assert (Hol : 0 <= octaves * lo) by nra.
      pose proof (Rmult_le_compat_l _ _ _ Hol U2). lra.
    - apply Rmult_le_compat_l; [exact Hn | exact Hq]. }
  split.
  - assert (H1 : (1 < w)%Z) by (apply lt_IZR; lra).
    destruct (Z.eq_dec w 2) as [-> | Hd]; [discriminate Hodd | lia].
  - apply le_IZR. rewrite <- INR_IZR_INZ. lra.
Qed.

Lemma steps_within_range (lo_num lo_den hi_num hi_den : Z) (G : list Z) :
  (0 < lo_den)%Z -> (0 < hi_den)%Z ->
  Grid.steps_within lo_num lo_den hi_num hi_den G = true ->
  Forall (fun s => IZR lo_num / IZR lo_den <= s <= IZR hi_num / IZR hi_den)
    (steps (map IZR G)).
Proof.
  intros Hld Hhd.
  induction G as [| x t IH]; intros H; [constructor|].
  destruct t as [| y u]; [constructor|].
  cbn [Grid.steps_within] in H.
  apply andb_true_iff in H. destruct H as [H Ht].
  apply andb_true_iff in H. destruct H as [H Hhi].
  apply andb_true_iff in H. destruct H as [Hx Hlow].
  change (steps (map IZR (x :: y :: u)))
    with (IZR y / IZR x :: steps (map IZR (y :: u))).
  constructor; [|apply IH; exact Ht].
  apply Z.ltb_lt in Hx. apply Z.leb_le in Hlow, Hhi.
  apply IZR_lt in Hx, Hld, Hhd. apply IZR_le in Hlow, Hhi.
  rewrite !mult_IZR in Hlow, Hhi.
  split.
  - apply Rmult_le_reg_r with (IZR lo_den * IZR x); [nra|].
    replace (IZR lo_num / IZR lo_den * (IZR lo_den * IZR x))
      with (IZR lo_num * IZR x) by (field; lra).
    replace (IZR y / IZR x * (IZR lo_den * IZR x))
      with (IZR lo_den * IZR y) by (field; lra).
    exact Hlow.
  - apply Rmult_le_reg_r with (IZR hi_den * IZR x); [nra|].
    replace (IZR hi_num / IZR hi_den * (IZR hi_den * IZR x))
      with (IZR hi_num * IZR x) by (field; lra).
    replace (IZR y / IZR x * (IZR hi_den * IZR x))
      with (IZR hi_den * IZR y) by (field; lra).
    exact Hhi.
Qed.

Lemma steps_length (l : list R) : length (steps l) = Nat.pred (length l).
Proof.
  induction l as [| f0 t IH]; [reflexivity|].
  destruct t as [| f1 u]; [reflexivity|].
  change (steps (f0 :: f1 :: u)) with (f1 / f0 :: steps (f1 :: u)).
  cbn [length] in *. rewrite IH. reflexivity.
Qed.

(** Every step of the default grid is between 0.5 % and 5 %. *)
Lemma default_grid_steps :
  Grid.steps_within 1005 1000 105 100 Grid.default_frequencies = true.
Proof. vm_compute. reflexivity. Qed.

(** On the grid 8000, 8400, 8820, 9261 Hz (steps of 5 %) a window of a
    seventh to a fifth of an octave is three samples wide. *)
Lemma window_size_fine (fr : FrequencyResponse) (octaves : R) :
  frequency fr = [8000; 8400; 8820; 9261] ->
  1 / 7 <= octaves <= 1 / 5 ->
  _window_size fr octaves = Ok 3%Z.
Proof.
  intros Hf Ho.
  destruct (window_size_range fr octaves (21 / 20) (21 / 20))
    as (w & Hw & Hodd & Hwlo & Hwhi).
  - rewrite Hf. discriminate.
  - rewrite Hf. cbn [steps]. repeat constructor; lra.
  - lra.
  - lra.
  - rewrite Hw. f_equal.
    pose proof ln_2_range as [L2 U2].
    pose proof (ln_le_sub (21 / 20) ltac:(lra)) as Hh.
    pose proof (ln_ge_sub (21 / 20) ltac:(lra)) as Hl.
    replace (/ (21 / 20)) with (20 / 21) in Hl by lra.
    assert (Hln : 0 < ln (21 / 20)) by lra.
    assert (Hx1 : 3 / 2 < octaves * ln 2 / ln (21 / 20)).
    { apply Rmult_lt_reg_r with (ln (21 / 20)); [exact Hln|].
      replace (octaves * ln 2 / ln (21 / 20) * ln (21 / 20))
        with (octaves * ln 2) by (field; lra).
      nra. }
    assert (Hx2 : octaves * ln 2 / ln (21 / 20) < 7 / 2).
    { apply Rmult_lt_reg_r with (ln (21 / 20)); [exact Hln|].
      replace (octaves * ln 2 / ln (21 / 20) * ln (21 / 20))
        with (octaves * ln 2) by (field; lra).
      nra. }
    assert (H1 : (1 < w)%Z) by (apply lt_IZR; lra).
    assert (H5 : (w < 5)%Z) by (apply lt_IZR; lra).
    assert (Hc : w = 2%Z \/ w = 3%Z \/ w = 4%Z) by lia.
    destruct Hc as [-> | [-> | ->]];
      [discriminate Hodd | reflexivity | discriminate Hodd].
Qed.

End WindowRange.

(** ** Which errors a run can end in *)

Module ErrorFacts.
Import Num Arr FR NumFacts.
Local Open Scope R_scope.

Lemma foreign_bind {A B : Type} (r : result A) (k : A -> result B) :
  foreign r -> (forall a, foreign (k a)) -> foreign (bind r k).
Proof. destruct r as [a | e]; simpl; intros Hr Hk; [apply Hk | exact Hr]. Qed.

Lemma foreign_not_guard {A : Type} (r : result A) (e : exn) :
  foreign r -> r = Raise e -> is_guard_error e = false.
Proof. intros H ->. exact H. Qed.

(** A guard error of [bind r k] comes from [r] when [k] is foreign. *)
Lemma bind_guard_inv {A B : Type} (r : result A) (k : A -> result B) (e : exn) :
  bind r k = Raise e -> is_guard_error e = true ->
  (forall a, foreign (k a)) -> r = Raise e.
Proof.
  destruct r as [a | e']; simpl; intros H He Hk; [|congruence].
  pose proof (Hk a) as Ha. rewrite H in Ha. simpl in Ha. congruence.
Qed.

Create HintDb foreign.

Ltac foreign_step :=
  match goal with
  | |- True => exact I
  | |- false = false => reflexivity
  | |- foreign (bind _ _) => apply foreign_bind; [| intros ?]
  | |- foreign (Ok _) => exact I
  | |- foreign (Raise _) => reflexivity
  | |- foreign (if ?c then _ else _) => destruct c
  | |- foreign (match ?x with _ => _ end) => destruct x
  | |- foreign (let '(_, _) := ?x in _) => destruct x
  | |- foreign _ => solve [eauto with foreign]
  end.

Ltac foreign_auto := repeat foreign_step.

Lemma floats_foreign (a : array) : foreign (floats a).
Proof. induction a as [| [x |] t IH]; simpl; foreign_auto; try exact IH. Qed.
#[local] Hint Resolve floats_foreign : foreign.

Lemma broadcast_foreign (op : R -> R -> R) (a b : list R) :
  foreign (broadcast op a b).
Proof. unfold broadcast. foreign_auto. Qed.
#[local] Hint Resolve broadcast_foreign : foreign.

Lemma add_foreign (a b : array) : foreign (add a b).
Proof. unfold add. foreign_auto. Qed.
#[local] Hint Resolve add_foreign : foreign.

Lemma take_foreign {A : Type} (a : list A) (inds : list nat) :
  foreign (take a inds).
Proof. induction inds as [| i t IH]; simpl; foreign_auto; try exact IH. Qed.
#[local] Hint Resolve take_foreign : foreign.

Lemma window_size_foreign (fr : FrequencyResponse) (octaves : R) :
  foreign (_window_size fr octaves).
Proof. unfold _window_size. foreign_auto. Qed.
#[local] Hint Resolve window_size_foreign : foreign.

Lemma sort_channel_foreign (a : array) (inds : list nat) :
  foreign (sort_channel a inds).
Proof. unfold sort_channel. foreign_auto. Qed.
#[local] Hint Resolve sort_channel_foreign : foreign.

Lemma sort_foreign (fr : FrequencyResponse) : foreign (_sort fr).
Proof. unfold _sort. foreign_auto. Qed.
#[local] Hint Resolve sort_foreign : foreign.

Lemma init_foreign name_ frequency_ raw_ error_ smoothed_ error_smoothed_
    equalization_ parametric_eq_ equalized_raw_ equalized_smoothed_ target_ :
  foreign (__init__ name_ frequency_ raw_ error_ smoothed_ error_smoothed_
             equalization_ parametric_eq_ equalized_raw_ equalized_smoothed_
             target_).
Proof. unfold __init__. apply sort_foreign. Qed.
#[local] Hint Resolve init_foreign : foreign.

Lemma clip_loop_foreign (gain_k max_gain : list R) (errs : list R) :
  forall i prev kinks eq,
    foreign (clip_loop errs i gain_k max_gain prev kinks eq).
Proof.
  induction errs as [| e rest IH]; intros i prev kinks eq; simpl.
  - exact I.
  - destruct (nth_error gain_k i); [|reflexivity].
    destruct (nth_error max_gain i); [|reflexivity]. apply IH.
Qed.
#[local] Hint Resolve clip_loop_foreign : foreign.

Lemma index_of_foreign (f : R) (frequency_ : list R) :
  forall i, foreign (index_of f frequency_ i).
Proof.
  induction frequency_ as [| x t IH]; intros i; simpl; foreign_auto; try apply IH.
Qed.
#[local] Hint Resolve index_of_foreign : foreign.

Lemma at_index_foreign {A : Type} (a : list A) (i : nat) :
  foreign (at_index a i).
Proof. unfold at_index. foreign_auto. Qed.
#[local] Hint Resolve at_index_foreign : foreign.

Lemma pair_inds_from_foreign (peak_g : list R) (js : list nat) :
  foreign (pair_inds_from js peak_g).
Proof. induction js as [| j t IH]; simpl; foreign_auto; try exact IH. Qed.
#[local] Hint Resolve pair_inds_from_foreign : foreign.

Lemma argmin_foreign (l : list R) : foreign (argmin l).
Proof. unfold argmin. foreign_auto. Qed.
#[local] Hint Resolve argmin_foreign : foreign.

Section Library.
Variable spline : list R -> list R -> nat -> result (R -> R).
Variable savgol_filter : list R -> Z -> Z -> result (list R).
Variable find_peaks : list R -> list nat.
Variable fit_biquads :
  list R -> list R -> list R -> list R -> R -> list R * R * list (R * R * R).
Hypothesis spline_foreign : forall xs ys k, foreign (spline xs ys k).
Hypothesis savgol_foreign : forall y w o, foreign (savgol_filter y w o).

#[local] Hint Resolve spline_foreign savgol_foreign : foreign.

Lemma savgol_iterate_foreign (fr : FrequencyResponse) (w : R) (n : nat) :
  forall y, foreign (savgol_iterate savgol_filter fr n y w).
Proof. induction n as [| n IH]; intros y; simpl; foreign_auto; try apply IH. Qed.
#[local] Hint Resolve savgol_iterate_foreign : foreign.

Lemma smoothen_data_foreign fr data w n tw tn f_lower f_upper :
  foreign (_smoothen_data savgol_filter fr data w n tw tn f_lower f_upper).
Proof. unfold _smoothen_data. foreign_auto. Qed.
#[local] Hint Resolve smoothen_data_foreign : foreign.

(** Past its guard, [smoothen] raises no guard error. *)
Lemma smoothen_foreign fr w n tw tn f_lower f_upper :
  f_lower < f_upper ->
  foreign (smoothen savgol_filter fr w n tw tn f_lower f_upper).
Proof.
  intros H. unfold smoothen. rewrite Rleb_false by exact H. foreign_auto.
Qed.

Lemma smooth_kinks_foreign fr kinks eq :
  foreign (smooth_kinks spline fr kinks eq).
Proof. unfold smooth_kinks. foreign_auto. Qed.
#[local] Hint Resolve smooth_kinks_foreign : foreign.

Lemma clipped_curve_foreign fr err mg fl fu tmg tgk :
  foreign (clipped_curve fr err mg fl fu tmg tgk).
Proof. unfold clipped_curve. foreign_auto. Qed.
#[local] Hint Resolve clipped_curve_foreign : foreign.

(** The only guard error of [equalize] is the one of [select_error]. *)
Lemma equalize_guard_inv fr mg sm fl fu tmg tgk (e : exn) :
  equalize spline fr mg sm fl fu tmg tgk = Raise e ->
  is_guard_error e = true ->
  e = missing_error_data /\ error_smoothed fr = [] /\ error fr = [].
Proof.
  unfold equalize. intros H He.
  apply bind_guard_inv in H; [| exact He |].
  - unfold select_error in H. cbn in H.
    destruct (error_smoothed fr); [|discriminate].
    destruct (error fr); [|discriminate].
    injection H as <-. repeat split.
  - intros error_. foreign_auto.
Qed.

Lemma peak_indices_foreign sm : foreign (peak_indices find_peaks sm).
Proof. unfold peak_indices. foreign_auto. Qed.
#[local] Hint Resolve peak_indices_foreign : foreign.

Lemma peak_candidates_foreign frequency_ sm :
  foreign (peak_candidates spline find_peaks frequency_ sm).
Proof. unfold peak_candidates. foreign_auto. Qed.
#[local] Hint Resolve peak_candidates_foreign : foreign.

Lemma pair_error_foreign frequency_ sm peak_fc peak_g pair_ind :
  foreign (pair_error spline frequency_ sm peak_fc peak_g pair_ind).
Proof. unfold pair_error. foreign_auto. Qed.
#[local] Hint Resolve pair_error_foreign : foreign.

Lemma best_pair_foreign frequency_ sm peak_fc peak_g pairs :
  forall best,
    foreign (best_pair spline frequency_ sm peak_fc peak_g pairs best).
Proof.
  induction pairs as [| p t IH]; intros best; simpl; foreign_auto; try apply IH.
Qed.
#[local] Hint Resolve best_pair_foreign : foreign.

Lemma merge_filters_foreign frequency_ sm peaks :
  foreign (merge_filters spline frequency_ sm peaks).
Proof. unfold merge_filters. foreign_auto. Qed.
#[local] Hint Resolve merge_filters_foreign : foreign.

Lemma merge_while_foreign frequency_ sm n fuel :
  forall peaks, foreign (merge_while spline fuel frequency_ sm n peaks).
Proof.
  induction fuel as [| fuel IH]; intros peaks; simpl; foreign_auto; try apply IH.
Qed.
#[local] Hint Resolve merge_while_foreign : foreign.

Lemma reduce_filters_foreign frequency_ sm max_filters peaks :
  foreign (reduce_filters spline frequency_ sm max_filters peaks).
Proof. unfold reduce_filters. foreign_auto. Qed.
#[local] Hint Resolve reduce_filters_foreign : foreign.

Lemma run_optimize_foreign frequency_ target_ target_loss max_filters :
  foreign (_run_optimize_parametric_eq spline savgol_filter find_peaks
             fit_biquads frequency_ target_ target_loss max_filters).
Proof.
  unfold _run_optimize_parametric_eq.
  apply foreign_bind; [apply init_foreign | intros fr0].
  apply foreign_bind.
  - apply smoothen_foreign.
    unfold DEFAULT_TREBLE_F_LOWER, DEFAULT_TREBLE_F_UPPER. lra.
  - intros fr1. foreign_auto.
Qed.

(** The only guard error of [optimize_parametric_eq] is its own. *)
Lemma optimize_guard_inv fr max_filters (e : exn) :
  optimize_parametric_eq spline savgol_filter find_peaks fit_biquads fr
    max_filters = Raise e ->
  is_guard_error e = true ->
  e = equalization_missing /\ equalization fr = [].
Proof.
  unfold optimize_parametric_eq. intros H He.
  destruct (equalization fr) as [| c t] eqn:Eeq; cbn in H.
  - injection H as <-. split; reflexivity.
  - apply bind_guard_inv in H; [| exact He | intros a; exact I].
    pose proof (run_optimize_foreign (frequency fr) (c :: t) (1 / 10)
                  max_filters) as Hf.
    rewrite H in Hf. simpl in Hf. congruence.
Qed.

End Library.

End ErrorFacts.

(** ** Prerequisites and the transition band *)

Module GuardFacts.
Import Num Arr FR NumFacts ErrorFacts EqualizeFacts Examples.
Local Open Scope R_scope.

Lemma lib_spline_foreign (xs ys : list R) (k : nat) :
  foreign (Lib.InterpolatedUnivariateSpline xs ys k).
Proof.
  unfold Lib.InterpolatedUnivariateSpline.
  destruct (negb _); [reflexivity|].
  destruct (Nat.leb _ _); [reflexivity|].
  destruct k as [| [| [| k]]]; reflexivity || exact I.
Qed.

Lemma lib_savgol_foreign (y : list R) (w o : Z) :
  foreign (Lib.savgol_fixed y w o).
Proof.
  unfold Lib.savgol_fixed.
  destruct (w <=? o)%Z; [reflexivity|].
  destruct (Z.of_nat (length y) <? w)%Z; [reflexivity | exact I].
Qed.

Lemma lib_savgol_length (y : list R) (w o : Z) (r : list R) :
  Lib.savgol_fixed y w o = Ok r -> length r = length y.
Proof.
  unfold Lib.savgol_fixed.
  destruct (w <=? o)%Z; [discriminate|].
  destruct (Z.of_nat (length y) <? w)%Z; [discriminate|].
  intros H. injection H as <-. reflexivity.
Qed.

(** What a run of [equalize] that returns has computed. *)
Lemma equalize_from_selected
    (spline : list R -> list R -> nat -> result (R -> R))
    (fr fr' : FrequencyResponse)
    (max_gain : R) (smoothen_ : bool)
    (f_lower f_upper treble_max_gain treble_gain_k : R) :
  equalize spline fr max_gain smoothen_ f_lower f_upper treble_max_gain
    treble_gain_k = Ok fr' ->
  exists (error_ : array) (err : list R) (r : list nat * list R)
         (eq : list R),
    select_error fr = Ok error_ /\
    (error_smoothed fr <> [] -> error_ = error_smoothed fr) /\
    (error_smoothed fr = [] -> error fr <> [] /\ error_ = error fr) /\
    floats error_ = Ok err /\
    clipped_curve fr err max_gain f_lower f_upper treble_max_gain
      treble_gain_k = Ok r /\
    (if smoothen_
     then smooth_kinks spline fr
            match fst r with
            | O :: t => t
            | l => l
            end (snd r)
     else Ok (snd r)) = Ok eq /\
    equalization fr' = of_floats eq.
Proof.
  unfold equalize. cbv zeta.
  change (select_error (set_equalized_raw (set_equalization fr []) []))
    with (select_error fr).
  intros H.
  destruct (select_error fr) as [error_ | e] eqn:Es; [|discriminate].
  cbn [bind] in H.
  destruct (has_None error_ || _ || _); [discriminate|].
  destruct (floats error_) as [err | e] eqn:Ef; [|discriminate].
  cbn [bind] in H.
  change (clipped_curve (set_equalized_raw (set_equalization fr []) []) err
            max_gain f_lower f_upper treble_max_gain treble_gain_k)
    with (clipped_curve fr err max_gain f_lower f_upper treble_max_gain
            treble_gain_k) in H.
  destruct (clipped_curve fr err _ _ _ _ _) as [r | e] eqn:Ec; [|discriminate].
  cbn [bind] in H.
  change (smooth_kinks spline (set_equalized_raw (set_equalization fr []) []))
    with (smooth_kinks spline fr) in H.
  match type of H with
  | bind ?c _ = _ => destruct c as [eq | e] eqn:Eq; [|discriminate]
  end.
  cbn [bind] in H.
  exists error_, err, r, eq.
  split; [reflexivity|].
  unfold select_error in Es.
  split; [|split].
  - intros Hne. destruct (error_smoothed fr); [contradiction|].
    cbn in Es. injection Es as <-. reflexivity.
  - intros He. rewrite He in Es. cbn in Es.
    destruct (error fr); [discriminate|]. cbn in Es.
    injection Es as <-. split; [discriminate | reflexivity].
  - split; [exact Ef|]. split; [exact Ec|]. split; [exact Eq|].
    destruct (add _ _) as [er | e]; [|discriminate]. cbn [bind] in H.
    match type of H with
    | (if ?c then _ else _) = _ => destruct c
    end.
    + destruct (add _ _) as [es | e]; [|discriminate]. cbn [bind] in H.
      injection H as <-. reflexivity.
    + injection H as <-. reflexivity.
Qed.




(** With equal bounds the centre is the bound and the half-range is 0. *)
Lemma half_range_degenerate (f : R) : 0 < f -> half_range f f = 0.
Proof.
  intros Hf. unfold half_range, f_center.
  replace (f / f) with 1 by (field; lra).
  rewrite sqrt_1, Rmult_1_l. lra.
Qed.

(** C9: [smoothen] rejects a band whose upper bound is not above the
    lower one; [equalize] never raises that error, and with equal bounds
    the divisor [half_range / 4] of [_sigmoid] is zero. *)
Theorem C9_band_validation
    (spline : list R -> list R -> nat -> result (R -> R))
    (savgol_filter : list R -> Z -> Z -> result (list R))
    (fr : FrequencyResponse) (window_size : R) (iterations : nat)
    (treble_window_size : option R) (treble_iterations : option nat)
    (max_gain treble_max_gain treble_gain_k : R) (smoothen_ : bool)
    (treble_f_lower treble_f_upper : R) :
  (forall xs ys k, foreign (spline xs ys k)) ->
  treble_f_upper <= treble_f_lower ->
  smoothen savgol_filter fr window_size iterations treble_window_size
    treble_iterations treble_f_lower treble_f_upper = Raise invalid_band /\
  equalize spline fr max_gain smoothen_ treble_f_lower treble_f_upper
    treble_max_gain treble_gain_k <> Raise invalid_band /\
  (0 < treble_f_lower -> treble_f_upper = treble_f_lower ->
   half_range treble_f_lower treble_f_upper = 0 /\
   half_range treble_f_lower treble_f_upper / 4 = 0).
Proof.
  intros Hspline Hband. split; [|split].
  - unfold smoothen. rewrite Rleb_true by exact Hband. reflexivity.
  - intros H. apply (equalize_guard_inv spline Hspline) in H;
      [|reflexivity].
    destruct H as [H _]. discriminate H.
  - intros Hpos ->. rewrite half_range_degenerate by exact Hpos.
    split; [reflexivity | lra].
Qed.

(** C9 on [clip_input] with both bounds at 7000 Hz: [smoothen] raises,
    [equalize] runs to the end. *)
Lemma C9_band_validation_witness :
  smoothen Lib.savgol_fixed clip_input (1 / 7) 10 None None 7000 7000
  = Raise invalid_band /\
  half_range 7000 7000 / 4 = 0 /\
  exists fr' : FrequencyResponse,
    equalize Lib.InterpolatedUnivariateSpline clip_input 6 false 7000 7000 0 1
    = Ok fr'.
Proof.
  destruct (C9_band_validation Lib.InterpolatedUnivariateSpline
              Lib.savgol_fixed clip_input (1 / 7) 10 None None 6 0 1 false
              7000 7000 lib_spline_foreign ltac:(lra)) as (Hs & _ & Hh).
  split; [exact Hs|].
  split; [apply Hh; [lra | reflexivity]|].
  unfold equalize, clipped_curve, _sigmoid.
  cbn -[IZR Rltb Rleb Reqb sigmoid_at Rdiv].
  rewrite !sigmoid_at_const.
  repeat match goal with
         | |- context [Rltb ?a ?b] =>
             let c := fresh "c" in destruct (Rltb a b) eqn:c
         end;
    cbn -[IZR Rltb Rleb Reqb sigmoid_at Rdiv]; eexists; reflexivity.
Defined.

End GuardFacts.

(** ** Filter initialisation *)

Module PeakFacts.
Import Num Arr FR NumFacts ErrorFacts EqualizeFacts.
Local Open Scope R_scope.

Lemma insert_nat_In (x y : nat) (l : list nat) :
  In y (insert_nat x l) <-> y = x \/ In y l.
Proof.
  induction l as [| z t IH]; simpl.
  - intuition.
  - destruct (Nat.leb x z); simpl; [intuition | rewrite IH; intuition].
Qed.

Lemma sort_nat_In (y : nat) (l : list nat) : In y (sort_nat l) <-> In y l.
Proof.
  induction l as [| x t IH]; simpl; [reflexivity|].
  rewrite insert_nat_In, IH. intuition.
Qed.

(** Indices whose values are all within the threshold leave no peak. *)
Lemma take_all_small (sm : list R) (inds : list nat) :
  (forall i, In i inds ->
             exists v, nth_error sm i = Some v /\ Rabs v <= 1 / 10) ->
  exists vals,
    take sm inds = Ok vals /\
    masked (map (fun v => Rltb (1 / 10) (Rabs v)) vals) inds = [].
Proof.
  induction inds as [| i t IH]; intros H.
  - exists []. split; reflexivity.
  - destruct (H i (or_introl eq_refl)) as (v & Hv & Hsmall).
    destruct IH as (vals & Ht & Hm).
    { intros j Hj. apply H. right. exact Hj. }
    exists (v :: vals). simpl. rewrite Hv, Ht. simpl.
    rewrite Rltb_false by exact Hsmall. split; [reflexivity | exact Hm].
Qed.

Section Library.
Variable spline : list R -> list R -> nat -> result (R -> R).
Variable savgol_filter : list R -> Z -> Z -> result (list R).
Variable find_peaks : list R -> list nat.
Variable fit_biquads :
  list R -> list R -> list R -> list R -> R -> list R * R * list (R * R * R).

Lemma peak_indices_empty (sm : list R) :
  no_peak_above_threshold find_peaks sm -> peak_indices find_peaks sm = Ok [].
Proof.
  intros H. unfold peak_indices.
  destruct (take_all_small sm
              (sort_nat (find_peaks (map (fun x => Rmax x 0) sm)
                         ++ find_peaks (map (fun x => Rmax (- x) 0) sm))))
    as (vals & Ht & Hm).
  { intros i Hi. apply H. apply sort_nat_In. exact Hi. }
  rewrite Ht. simpl. rewrite Hm. reflexivity.
Qed.

Lemma peak_candidates_empty (frequency_ sm : list R) :
  no_peak_above_threshold find_peaks sm ->
  peak_candidates spline find_peaks frequency_ sm = Raise IndexError.
Proof.
  intros H. unfold peak_candidates.
  rewrite (peak_indices_empty sm H). reflexivity.
Qed.

(** C10: when the heavily smoothed target has no local extremum above
    0.1 dB, the list of peak candidates is empty and the function ends in
    [IndexError] at [peak_fc[0]]. *)
Theorem C10_no_peak_index_error (frequency_ : list R) (target_ : array)
    (target_loss : R) (max_filters : option nat)
    (fr0 fr_target : FrequencyResponse) (sm : list R) :
  __init__ "Filter Initialization" (Some frequency_) (Some target_)
    None None None None None None None None = Ok fr0 ->
  smoothen savgol_filter fr0 (1 / 7) 1000 None None
    DEFAULT_TREBLE_F_LOWER DEFAULT_TREBLE_F_UPPER = Ok fr_target ->
  floats (smoothed fr_target) = Ok sm ->
  no_peak_above_threshold find_peaks sm ->
  peak_indices find_peaks sm = Ok [] /\
  peak_candidates spline find_peaks frequency_ sm = Raise IndexError /\
  _run_optimize_parametric_eq spline savgol_filter find_peaks fit_biquads
    frequency_ target_ target_loss max_filters = Raise IndexError.
Proof.
  intros Hinit Hsmooth Hfloats Hflat.
  split; [apply peak_indices_empty; exact Hflat|].
  split; [apply peak_candidates_empty; exact Hflat|].
  unfold _run_optimize_parametric_eq.
  rewrite Hinit. cbn [bind]. rewrite Hsmooth. cbn [bind].
  rewrite Hfloats. cbn [bind].
  rewrite (peak_candidates_empty frequency_ sm Hflat). reflexivity.
Qed.

End Library.

(** With a window longer than the order and not longer than the data
    the fixed filter runs every iteration. *)
Lemma savgol_iterate_fixed (fr : FrequencyResponse) (w : R) (ws : Z)
    (y : list R) (n : nat) :
  _window_size fr w = Ok ws ->
  (2 < ws)%Z -> (ws <= Z.of_nat (length y))%Z ->
  savgol_iterate Lib.savgol_fixed fr n y w = Ok y.
Proof.
  intros Hw Hlo Hhi. induction n as [| n IH]; [reflexivity|].
  cbn [savgol_iterate]. rewrite Hw. cbn [bind]. unfold Lib.savgol_fixed.
  destruct (Z.leb_spec ws 2) as [Hc | _]; [lia|].
  destruct (Z.ltb_spec (Z.of_nat (length y)) ws) as [Hc | _]; [lia|].
  cbn [bind]. exact IH.
Qed.

Lemma savgol_iterate_fine (fr : FrequencyResponse) (w : R)
    (y0 y1 y2 y3 : R) (n : nat) :
  frequency fr = [8000; 8400; 8820; 9261] ->
  1 / 7 <= w <= 1 / 5 ->
  savgol_iterate Lib.savgol_fixed fr n [y0; y1; y2; y3] w
  = Ok [y0; y1; y2; y3].
Proof.
  intros Hf Hw.
  apply (savgol_iterate_fixed fr w 3%Z);
    [apply WindowRange.window_size_fine; assumption | lia | simpl; lia].
Qed.

(** C10 on a flat equalization curve over a grid with steps of 5 %,
    where the smoothing window is three samples wide. *)
Lemma C10_flat_curve_witness :
  _run_optimize_parametric_eq Lib.InterpolatedUnivariateSpline
    Lib.savgol_fixed Lib.find_peaks (fun _ _ _ _ _ => ([], 0, []))
    [8000; 8400; 8820; 9261] [Some 0; Some 0; Some 0; Some 0] (1 / 10)
    (Some 5%nat)
  = Raise IndexError.
Proof.
  eapply (C10_no_peak_index_error Lib.InterpolatedUnivariateSpline
            Lib.savgol_fixed Lib.find_peaks (fun _ _ _ _ _ => ([], 0, []))
            [8000; 8400; 8820; 9261] [Some 0; Some 0; Some 0; Some 0]
            (1 / 10) (Some 5%nat) _ _ [0; 0; 0; 0]).
  - unfold __init__, _sort, argsort. cbn -[IZR Rleb].
    repeat (progress (rdecide; cbn -[IZR Rleb])). reflexivity.
  - unfold smoothen, DEFAULT_TREBLE_F_LOWER, DEFAULT_TREBLE_F_UPPER.
    rdecide. unfold _smoothen_data.
    cbn -[IZR Rdiv savgol_iterate _sigmoid broadcast].
    rewrite !savgol_iterate_fine by (try reflexivity; lra).
    cbn -[IZR Rdiv sigmoid_at]. reflexivity.
  - cbn -[IZR Rdiv sigmoid_at].
    repeat match goal with
           | |- context [0 * ?a + 0 * ?b] =>
               replace (0 * a + 0 * b) with 0 by ring
           end.
    reflexivity.
  - intros i Hi. exfalso. revert Hi.
    cbn -[IZR Rltb Rmax].
    replace (- 0) with 0 by ring.
    rdecide. cbn. tauto.
Defined.

End PeakFacts.

(** ** Merging of neighbouring filters *)

Module MergeFacts.
Import Num Arr FR NumFacts Examples.
Local Open Scope R_scope.

Lemma line_flat (x0 x1 y x : R) : Lib.line x0 y x1 y x = y.
Proof. unfold Lib.line. ring. Qed.

Lemma sqrt_lower (a x : R) : 0 <= a -> a * a <= x -> a <= sqrt x.
Proof.
  intros Ha H. rewrite <- (sqrt_square a Ha). apply sqrt_le_1_alt. exact H.
Qed.

Lemma sqrt_upper (a x : R) : 0 <= a -> 0 <= x < a * a -> sqrt x < a.
Proof.
  intros Ha H. apply Rlt_le_trans with (sqrt (a * a)).
  - apply sqrt_lt_1_alt. exact H.
  - rewrite sqrt_square by exact Ha. lra.
Qed.

Ltac evm := cbn -[IZR Rltb Rleb Reqb log10 Lib.line Rdiv sqrt Rabs mean].

Ltac rabs :=
  repeat match goal with
         | |- context [Rabs ?a] =>
             first [ rewrite (Rabs_right a) by lra
                   | rewrite (Rabs_left a) by lra ]
         end.

(** The source on the pair (10 Hz, +1 dB), (1000 Hz, +2 dB): the line is
    flat at +1 dB, its error is above 0.3 dB and nothing is merged. *)
Lemma merge_filters_two_peaks :
  merge_filters Lib.InterpolatedUnivariateSpline decades two_peaks
    ([10; 1000], [1; 2])
  = Ok (false, ([10; 1000], [1; 2])).
Proof.
  unfold merge_filters, decades, two_peaks. evm.
  unfold sign. rdecide. evm.
  unfold pair_error. evm. rdecide. evm.
  rewrite !line_flat.
  match goal with
  | |- context [sqrt ?m] =>
      assert (H : 3 / 10 <= sqrt m)
        by (apply sqrt_lower; [lra | unfold mean, sum; cbn; lra])
  end.
  rewrite Rltb_false by exact H. reflexivity.
Qed.

(** The specification on the same pair: the line runs from +1 dB to
    +2 dB, its error is below 0.3 dB, and the pair becomes one filter of
    +1.5 dB at 100 Hz. *)
Lemma merge_filters_spec_two_peaks :
  Spec.merge_filters_spec Lib.InterpolatedUnivariateSpline decades two_peaks
    ([10; 1000], [1; 2])
  = Ok (true, ([100], [3 / 2])).
Proof.
  unfold Spec.merge_filters_spec, decades, two_peaks. evm.
  unfold sign. rdecide. evm.
  unfold Spec.pair_error_spec. evm. rdecide. evm.
  rewrite log10_10, log10_100, log10_1000.
  replace (Lib.line 1 1 3 2 1) with 1 by (unfold Lib.line; field).
  replace (Lib.line 1 1 3 2 2) with (3 / 2) by (unfold Lib.line; field).
  replace (Lib.line 1 1 3 2 3) with 2 by (unfold Lib.line; field).
  match goal with
  | |- context [sqrt ?m] =>
      assert (H : sqrt m < 3 / 10)
        by (apply sqrt_upper; [lra | unfold mean, sum; cbn; lra])
  end.
  rewrite Rltb_true by exact H. evm.
  replace (1000 / 10) with (10 * 10) by lra.
  rewrite sqrt_square by lra.
  rabs. rdecide. evm.
  do 4 f_equal. unfold mean, sum. cbn. lra.
Qed.

(** C4: on [decades], [two_peaks] the source and the specification part:
    the source keeps both filters, the specification merges them. *)
Theorem C4_merge_reads_first_gain :
  merge_filters Lib.InterpolatedUnivariateSpline decades two_peaks
    ([10; 1000], [1; 2])
  = Ok (false, ([10; 1000], [1; 2])) /\
  Spec.merge_filters_spec Lib.InterpolatedUnivariateSpline decades two_peaks
    ([10; 1000], [1; 2])
  = Ok (true, ([100], [3 / 2])).
Proof.
  split; [exact merge_filters_two_peaks | exact merge_filters_spec_two_peaks].
Qed.

End MergeFacts.

(** * Further properties of the code *)

(** ** The frequency grid for arbitrary arguments *)

Module GridBounds.
Import Grid GridFacts.
Local Open Scope Q_scope.


Lemma py_round_near (x : Q) :
  inject_Z (py_round x) - (1 # 2) <= x /\ x <= inject_Z (py_round x) + (1 # 2).
Proof.
  unfold py_round.
  pose proof (Qfloor_le x) as Hlo. pose proof (Qlt_floor x) as Hhi.
  assert (Hn : inject_Z (Qfloor x + 1) == inject_Z (Qfloor x) + 1).
  { rewrite inject_Z_plus. reflexivity. }
  rewrite Hn in Hhi.
  destruct (Qcompare_spec (x - inject_Z (Qfloor x)) (1 # 2)) as [Hc | Hc | Hc].
  - destruct (Z.even (Qfloor x)); [|rewrite Hn]; split; Lqa.lra.
  - split; Lqa.lra.
  - rewrite Hn. split; Lqa.lra.
Qed.

#[global] Instance py_round_comp : Proper (Qeq ==> eq) py_round.
Proof.
  intros x y Hxy. unfold py_round.
  rewrite (Qfloor_comp x y Hxy).
  assert (Hc : (x - inject_Z (Qfloor y) ?= 1 # 2)
               = (y - inject_Z (Qfloor y) ?= 1 # 2)).
  { apply Qcompare_comp; [rewrite Hxy; reflexivity | reflexivity]. }
  rewrite Hc. reflexivity.
Qed.

Lemma py_round_half (b : Z) (x : Q) :
  x == inject_Z b + (1 # 2) ->
  py_round x = if Z.even b then b else (b + 1)%Z.
Proof.
  intros Hx. rewrite (py_round_comp _ _ Hx). unfold py_round.
  assert (Hf : Qfloor (inject_Z b + (1 # 2)) = b).
  { pose proof (Qfloor_le (inject_Z b + (1 # 2))) as Hlo.
    pose proof (Qlt_floor (inject_Z b + (1 # 2))) as Hhi.
    revert Hlo Hhi. generalize (Qfloor (inject_Z b + (1 # 2))). intros n.
    unfold Qle, Qlt, Qplus, inject_Z. cbn [Qnum Qden]. lia. }
  rewrite Hf.
  destruct (Qcompare_spec (inject_Z b + (1 # 2) - inject_Z b) (1 # 2))
    as [Hc | Hc | Hc];
    [reflexivity | exfalso; Lqa.lra | exfalso; Lqa.lra].
Qed.

Lemma py_round_monotone (x y : Q) : x <= y -> (py_round x <= py_round y)%Z.
Proof.
  intros Hxy.
  destruct (py_round_near x) as [Hx1 Hx2].
  destruct (py_round_near y) as [Hy1 Hy2].
  destruct (Z_le_gt_dec (py_round x) (py_round y)) as [H | H]; [exact H|].
  exfalso.
  assert (Hge : (py_round y + 1 <= py_round x)%Z) by lia.
  rewrite Zle_Qle, inject_Z_plus in Hge. change (inject_Z 1) with 1 in Hge.
  assert (Hx : x == inject_Z (py_round y) + (1 # 2)) by Lqa.lra.
  assert (Hy : y == inject_Z (py_round y) + (1 # 2)) by Lqa.lra.
  pose proof (py_round_half _ _ Hx) as Ex.
  pose proof (py_round_half _ _ Hy) as Ey.
  assert (E : py_round x = py_round y) by congruence. lia.
Qed.


Lemma insert_uniq_In (x y : Z) (l : list Z) :
  In y (insert_uniq x l) -> y = x \/ In y l.
Proof.
  induction l as [| z t IH]; simpl.
  - intuition.
  - destruct (x <? z)%Z; [simpl; intuition|].
    destruct (x =? z)%Z; [simpl; intuition|].
    simpl. intuition.
Qed.

Lemma sorted_set_In (y : Z) (l : list Z) : In y (sorted_set l) -> In y l.
Proof.
  induction l as [| x t IH]; simpl; [tauto|].
  intros H. apply insert_uniq_In in H. intuition.
Qed.

Section Bounds.
Variables f_min f_max f_step : Q.
Hypothesis step_ge_1 : 1 <= f_step.

Lemma div_step_le (f : Q) : 0 <= f -> f / f_step <= f.
Proof.
  intros Hf. apply Qle_shift_div_r; [Lqa.lra|].
  assert (H : 0 <= f * (f_step - 1)) by (apply Qmult_le_0_compat; Lqa.lra).
  Lqa.lra.
Qed.

Lemma mul_step_ge (f : Q) : 0 <= f -> f <= f * f_step.
Proof.
  intros Hf.
  assert (H : 0 <= f * (f_step - 1)) by (apply Qmult_le_0_compat; Lqa.lra).
  Lqa.lra.
Qed.

Lemma loop_down_bounds (hi : Q) (P : Z -> Prop) :
  0 <= f_min ->
  (forall f, f_min < f -> f <= hi -> P (py_round f)) ->
  forall fuel f acc r,
    loop_down fuel f_min f_step f acc = Some r ->
    f <= hi -> Forall P acc -> Forall P r.
Proof.
  intros Hmin HP. induction fuel as [| fuel IH]; intros f acc r H Hf Hacc.
  - simpl in H. destruct (Qltb f_min f); [discriminate|]. injection H as <-. exact Hacc.
  - simpl in H. destruct (Qltb f_min f) eqn:E.
    + apply Qltb_lt in E. apply IH in H; [exact H | |].
      * pose proof (div_step_le f ltac:(Lqa.lra)). Lqa.lra.
      * apply Forall_app. split; [exact Hacc|]. constructor; [|constructor].
        apply HP; assumption.
    + injection H as <-. exact Hacc.
Qed.

Lemma loop_up_bounds (lo : Q) (P : Z -> Prop) :
  0 <= lo ->
  (forall f, lo <= f -> f < f_max -> P (py_round f)) ->
  forall fuel f acc r,
    loop_up fuel f_max f_step f acc = Some r ->
    lo <= f -> Forall P acc -> Forall P r.
Proof.
  intros Hlo HP. induction fuel as [| fuel IH]; intros f acc r H Hf Hacc.
  - simpl in H. destruct (Qltb f f_max); [discriminate|]. injection H as <-. exact Hacc.
  - simpl in H. destruct (Qltb f f_max) eqn:E.
    + apply Qltb_lt in E. apply IH in H; [exact H | |].
      * pose proof (mul_step_ge f ltac:(Lqa.lra)). Lqa.lra.
      * apply Forall_app. split; [exact Hacc|]. constructor; [|constructor].
        apply HP; assumption.
    + injection H as <-. exact Hacc.
Qed.

Lemma start_frequency_le :
  start_frequency f_max <= f_max /\ start_frequency f_max <= 20000.
Proof.
  unfold start_frequency. destruct (Qle_bool 20000 f_max) eqn:E.
  - apply Qle_bool_iff in E. split; Lqa.lra.
  - split; [Lqa.lra|]. destruct (Qlt_le_dec f_max 20000) as [H | H]; [Lqa.lra|].
    apply Qle_bool_iff in H. congruence.
Qed.

Lemma start_frequency_ge (x : Q) : x <= 20000 -> x <= f_max -> x <= start_frequency f_max.
Proof.
  intros H1 H2. unfold start_frequency. destruct (Qle_bool 20000 f_max); assumption.
Qed.

Lemma within_bounds_of_run (fuel : nat) (G : list Z) :
  0 <= f_min -> f_min <= 20000 -> f_min <= f_max ->
  generate_frequencies fuel f_min f_max f_step = Some G ->
  forall v : Z, In v G -> (py_round f_min <= v <= py_round f_max)%Z.
Proof.
  intros H0 H1 H2 Hrun.
  set (P := fun v : Z => (py_round f_min <= v <= py_round f_max)%Z).
  unfold generate_frequencies in Hrun.
  destruct (loop_down fuel f_min f_step (start_frequency f_max) [])
    as [d |] eqn:Ed; [|discriminate].
  destruct (loop_up fuel f_max f_step (start_frequency f_max) d)
    as [u |] eqn:Eu; [|discriminate].
  injection Hrun as <-.
  destruct start_frequency_le as [Hs1 Hs2].
  pose proof (start_frequency_ge f_min H1 H2) as Hs3.
  assert (HPd : forall f, f_min < f -> f <= start_frequency f_max ->
                         P (py_round f)).
  { intros f Hf1 Hf2. unfold P. split; apply py_round_monotone; Lqa.lra. }
  assert (HPu : forall f, start_frequency f_max <= f -> f < f_max ->
                         P (py_round f)).
  { intros f Hf1 Hf2. unfold P. split; apply py_round_monotone; Lqa.lra. }
  pose proof (loop_down_bounds (start_frequency f_max) P H0 HPd fuel _ [] d Ed
                (Qle_refl _) (Forall_nil _)) as Hd.
  assert (Hs0 : 0 <= start_frequency f_max) by Lqa.lra.
  pose proof (loop_up_bounds (start_frequency f_max) P Hs0 HPu fuel _ d u Eu
                (Qle_refl _) Hd) as Hu.
  intros v Hv. apply sorted_set_In in Hv.
  rewrite Forall_forall in Hu. apply Hu. exact Hv.
Qed.
End Bounds.

Section Termination.
Variables f_min f_max f_step : Q.
Hypothesis step_gt_1 : 1 < f_step.

Lemma down_progress (f : Q) :
  0 < f_min -> f_min < f -> f / f_step <= f - f_min * (1 - / f_step).
Proof.
  intros Hmin Hf.
  assert (Hk : 0 < / f_step) by (apply Qinv_lt_0_compat; Lqa.lra).
  assert (Hk1 : / f_step < 1).
  { apply Qlt_shift_inv_r; Lqa.lra. }
  unfold Qdiv.
  assert (H : 0 <= (f - f_min) * (1 - / f_step))
    by (apply Qmult_le_0_compat; Lqa.lra).
  Lqa.lra.
Qed.

Lemma loop_down_ends (delta : Q) :
  0 < f_min -> delta == f_min * (1 - / f_step) ->
  forall (n : nat) (f : Q) (acc : list Z),
    f - inject_Z (Z.of_nat n) * delta <= f_min ->
    exists r, loop_down n f_min f_step f acc = Some r.
Proof.
  intros Hmin Hd.
  induction n as [| n IH]; intros f acc Hf.
  - simpl. destruct (Qltb f_min f) eqn:E; [|eexists; reflexivity].
    apply Qltb_lt in E. change (inject_Z (Z.of_nat 0)) with 0 in Hf. Lqa.lra.
  - simpl. destruct (Qltb f_min f) eqn:E; [|eexists; reflexivity].
    apply Qltb_lt in E. apply IH.
    pose proof (down_progress f Hmin E) as Hp.
    rewrite Nat2Z.inj_succ in Hf. unfold Z.succ in Hf.
    rewrite inject_Z_plus in Hf. change (inject_Z 1) with 1 in Hf.
    rewrite <- Hd in Hp. 
    set (k := inject_Z (Z.of_nat n)) in *.
    assert (Hexp : (k + 1) * delta == k * delta + delta) by ring.
    rewrite Hexp in Hf. Lqa.lra.
Qed.

Lemma loop_up_ends (lo delta : Q) :
  0 < lo -> delta == lo * (f_step - 1) ->
  forall (n : nat) (f : Q) (acc : list Z),
    lo <= f ->
    f_max <= f + inject_Z (Z.of_nat n) * delta ->
    exists r, loop_up n f_max f_step f acc = Some r.
Proof.
  intros Hlo Hd.
  induction n as [| n IH]; intros f acc Hlf Hf.
  - simpl. destruct (Qltb f f_max) eqn:E; [|eexists; reflexivity].
    apply Qltb_lt in E. change (inject_Z (Z.of_nat 0)) with 0 in Hf. Lqa.lra.
  - simpl. destruct (Qltb f f_max) eqn:E; [|eexists; reflexivity].
    apply Qltb_lt in E.
    assert (Hp : f + delta <= f * f_step).
    { assert (H : 0 <= (f - lo) * (f_step - 1))
        by (apply Qmult_le_0_compat; Lqa.lra).
      rewrite Hd. Lqa.lra. }
    assert (Hdpos : 0 < delta).
    { rewrite Hd. apply Qmult_lt_0_compat; Lqa.lra. }
    apply IH; [Lqa.lra|].
    rewrite Nat2Z.inj_succ in Hf. unfold Z.succ in Hf.
    rewrite inject_Z_plus in Hf. change (inject_Z 1) with 1 in Hf.
    set (k := inject_Z (Z.of_nat n)) in *.
    assert (Hexp : (k + 1) * delta == k * delta + delta) by ring.
    rewrite Hexp in Hf. Lqa.lra.
Qed.

Lemma archimedes (x delta : Q) :
  0 < delta -> exists n : nat, x <= inject_Z (Z.of_nat n) * delta.
Proof.
  intros Hd. exists (Z.to_nat (Qceiling (x / delta))).
  destruct (Qlt_le_dec x 0) as [Hx | Hx].
  - assert (H : 0 <= inject_Z (Z.of_nat (Z.to_nat (Qceiling (x / delta)))) * delta).
    { apply Qmult_le_0_compat; [|Lqa.lra].
      change 0 with (inject_Z 0). rewrite <- Zle_Qle. lia. }
    Lqa.lra.
  - assert (Hq : 0 <= x / delta).
    { apply Qle_shift_div_l; Lqa.lra. }
    assert (Hc : (0 <= Qceiling (x / delta))%Z).
    { pose proof (Qle_ceiling (x / delta)) as Hc.
      assert (H1 : 0 <= inject_Z (Qceiling (x / delta))) by Lqa.lra.
      change 0 with (inject_Z 0) in H1. rewrite <- Zle_Qle in H1. exact H1. }
    rewrite Z2Nat.id by exact Hc.
    pose proof (Qle_ceiling (x / delta)) as Hle.
    assert (Hx' : x == x / delta * delta).
    { field. intros H0. rewrite H0 in Hd. Lqa.lra. }
    rewrite Hx' at 1. apply Qmult_le_compat_r; [exact Hle | Lqa.lra].
Qed.

Lemma ends_with_fuel :
  0 < f_min ->
  exists (fuel : nat) (G : list Z),
    forall extra : nat,
      generate_frequencies (fuel + extra) f_min f_max f_step = Some G.
Proof.
  intros Hmin.
  set (s := start_frequency f_max).
  assert (Hk : 0 < / f_step) by (apply Qinv_lt_0_compat; Lqa.lra).
  assert (Hk1 : / f_step < 1) by (apply Qlt_shift_inv_r; Lqa.lra).
  assert (Hd1 : 0 < f_min * (1 - / f_step))
    by (apply Qmult_lt_0_compat; Lqa.lra).
  destruct (archimedes (s - f_min) _ Hd1) as [n1 Hn1].
  destruct (loop_down_ends _ Hmin (Qeq_refl _) n1 s []) as [d Ed];
    [Lqa.lra|].
  assert (Hup : exists n2 u, loop_up n2 f_max f_step s d = Some u).
  { destruct (Qlt_le_dec 0 s) as [Hs | Hs].
    - assert (Hd2 : 0 < s * (f_step - 1))
        by (apply Qmult_lt_0_compat; Lqa.lra).
      destruct (archimedes (f_max - s) _ Hd2) as [n2 Hn2].
      destruct (loop_up_ends s _ Hs (Qeq_refl _) n2 s d) as [u Eu];
        [Lqa.lra | Lqa.lra |].
      exists n2, u. exact Eu.
    - exists 0%nat, d. simpl.
      assert (E : Qltb s f_max = false).
      { destruct (Qltb s f_max) eqn:E; [|reflexivity].
        apply Qltb_lt in E. exfalso.
        unfold s, start_frequency in *.
        destruct (Qle_bool 20000 f_max); Lqa.lra. }
      rewrite E. reflexivity. }
  destruct Hup as (n2 & u & Eu).
  exists (n1 + n2)%nat, (sorted_set u). intros extra.
  unfold generate_frequencies. fold s.
  rewrite (loop_down_fuel_mono _ _ _ _ _ _ _ Ed) by lia.
  rewrite (loop_up_fuel_mono _ _ _ _ _ _ _ Eu) by lia.
  reflexivity.
Qed.
End Termination.

Lemma loop_down_never_ends (f_min f_step : Q) :
  f_step == 1 ->
  forall (n : nat) (f : Q) (acc : list Z),
    f_min < f -> loop_down n f_min f_step f acc = None.
Proof.
  intros Hstep. induction n as [| n IH]; intros f acc Hf.
  - simpl. apply Qltb_lt in Hf. rewrite Hf. reflexivity.
  - simpl. pose proof Hf as Hf'. apply Qltb_lt in Hf'. rewrite Hf'.
    apply IH. rewrite Hstep.
    assert (E : f / 1 == f) by field.
    rewrite E. exact Hf.
Qed.

(** X1: whatever the arguments, a grid returned by
    [generate_frequencies] is strictly increasing: any later element is
    greater than any earlier one, so no frequency occurs twice. *)
Theorem grid_strictly_increasing (fuel : nat) (f_min f_max f_step : Q)
    (G : list Z) (i j : nat) :
  generate_frequencies fuel f_min f_max f_step = Some G ->
  (i < j)%nat -> (j < length G)%nat ->
  (nth i G 0 < nth j G 0)%Z.
Proof.
  intros Hrun Hij Hj.
  pose proof (generate_frequencies_increasing _ _ _ _ _ Hrun) as Hstep.
  induction j as [| j IH]; [lia|].
  destruct (Nat.eq_dec i j) as [-> | Hne].
  - apply Hstep. exact Hj.
  - apply Z.lt_trans with (nth j G 0%Z).
    + apply IH; lia.
    + apply Hstep. exact Hj.
Qed.

Lemma grid_strictly_increasing_witness :
  generate_frequencies 10 100 1000 2 = Some [125; 250; 500; 1000]%Z /\
  (nth 0 [125; 250; 500; 1000] 0 < nth 3 [125; 250; 500; 1000] 0)%Z.
Proof.
  split; [reflexivity|].
  apply (grid_strictly_increasing 10 100 1000 2 [125; 250; 500; 1000]%Z 0 3);
    [reflexivity | simpl; lia | simpl; lia].
Defined.

(** X2: for a step of at least 1 and [0 <= f_min <= min(f_max, 20000)],
    every frequency of the grid lies between [round(f_min)] and
    [round(f_max)]. *)
Theorem grid_within_bounds (fuel : nat) (f_min f_max f_step : Q)
    (G : list Z) (v : Z) :
  1 <= f_step -> 0 <= f_min -> f_min <= 20000 -> f_min <= f_max ->
  generate_frequencies fuel f_min f_max f_step = Some G ->
  In v G -> (py_round f_min <= v <= py_round f_max)%Z.
Proof.
  intros Hs H0 H1 H2 Hrun Hv.
  exact (within_bounds_of_run f_min f_max f_step Hs fuel G H0 H1 H2 Hrun v Hv).
Qed.

Lemma grid_within_bounds_witness :
  (py_round 100 <= 125 <= py_round 1000)%Z.
Proof.
  apply (grid_within_bounds 10 100 1000 2 [125; 250; 500; 1000]%Z 125%Z).
  - unfold Qle; simpl; lia.
  - unfold Qle; simpl; lia.
  - unfold Qle; simpl; lia.
  - unfold Qle; simpl; lia.
  - reflexivity.
  - simpl. left. reflexivity.
Defined.

(** X3: for a step greater than 1 and a positive [f_min] both loops of
    [generate_frequencies] end: some number of iterations suffices, and
    any larger bound gives the same grid. *)
Theorem generate_frequencies_terminates (f_min f_max f_step : Q) :
  1 < f_step -> 0 < f_min ->
  exists (fuel : nat) (G : list Z),
    forall extra : nat,
      generate_frequencies (fuel + extra) f_min f_max f_step = Some G.
Proof.
  intros Hs Hmin. exact (ends_with_fuel f_min f_max f_step Hs Hmin).
Qed.

Lemma generate_frequencies_terminates_witness :
  exists (fuel : nat) (G : list Z),
    forall extra : nat,
      generate_frequencies (fuel + extra) 20 20000 (101 # 100) = Some G.
Proof.
  apply (generate_frequencies_terminates 20 20000 (101 # 100)).
  - unfold Qlt; simpl; lia.
  - unfold Qlt; simpl; lia.
Defined.

(** X4: with [f_step = 1] the first loop never ends: for
    [f_min < min(f_max, 20000)] no number of iterations yields a grid. *)
Theorem generate_frequencies_diverges (f_min f_max f_step : Q) (fuel : nat) :
  f_step == 1 -> f_min < 20000 -> f_min < f_max ->
  generate_frequencies fuel f_min f_max f_step = None.
Proof.
  intros Hstep H1 H2.
  unfold generate_frequencies.
  rewrite (loop_down_never_ends f_min f_step Hstep); [reflexivity|].
  unfold start_frequency. destruct (Qle_bool 20000 f_max); assumption.
Qed.

Lemma generate_frequencies_diverges_witness :
  generate_frequencies 1000 20 20000 1 = None.
Proof.
  apply (generate_frequencies_diverges 20 20000 1 1000).
  - reflexivity.
  - unfold Qlt; simpl; lia.
  - unfold Qlt; simpl; lia.
Defined.

End GridBounds.

(** ** The sigmoid: range and monotonicity *)

Module SigmoidRange.
Import Num Arr FR NumFacts SigmoidFacts.
Local Open Scope R_scope.

Lemma expit_increasing (x y : R) : x <= y -> expit x <= expit y.
Proof.
  intros Hxy. unfold expit.
  assert (He : exp (- y) <= exp (- x)).
  { destruct (Req_dec x y) as [-> | Hne]; [lra|].
    left. apply exp_increasing. lra. }
  pose proof (exp_pos (- x)) as Hx. pose proof (exp_pos (- y)) as Hy.
  unfold Rdiv. rewrite !Rmult_1_l.
  apply Rinv_le_contravar; lra.
Qed.

Lemma log10_le (x y : R) : 0 < x -> x <= y -> log10 x <= log10 y.
Proof.
  intros Hx Hxy. destruct (Req_dec x y) as [-> | Hne]; [lra|].
  left. apply log10_increasing; lra.
Qed.

Lemma sigmoid_at_mix (f_lower f_upper a_normal a_treble f : R) :
  exists a : R,
    0 < a < 1 /\
    sigmoid_at f_lower f_upper a_normal a_treble f
    = a_normal + a * (a_treble - a_normal).
Proof.
  unfold sigmoid_at.
  set (a := expit _). exists a. split.
  - split; [apply expit_pos | apply expit_lt_1].
  - ring.
Qed.

(** X5: for a valid band the sigmoid moves monotonically from
    [a_normal] towards [a_treble] as the frequency grows: with
    [a_normal <= a_treble] it is non-decreasing in [f], otherwise
    non-increasing. *)
Theorem sigmoid_monotone (f_lower f_upper a_normal a_treble f f' : R) :
  0 < f_lower -> f_lower < f_upper -> 0 < f -> f <= f' ->
  (a_normal <= a_treble ->
   sigmoid_at f_lower f_upper a_normal a_treble f
   <= sigmoid_at f_lower f_upper a_normal a_treble f') /\
  (a_treble <= a_normal ->
   sigmoid_at f_lower f_upper a_normal a_treble f'
   <= sigmoid_at f_lower f_upper a_normal a_treble f).
Proof.
  intros Hl Hb Hf Hff.
  pose proof (half_range_pos f_lower f_upper Hl Hb) as Hh.
  pose proof (log10_le f f' Hf Hff) as Hlog.
  unfold sigmoid_at.
  set (c := log10 (f_center f_lower f_upper)).
  set (h := half_range f_lower f_upper) in *.
  assert (Harg : (log10 f - c) / (h / 4) <= (log10 f' - c) / (h / 4)).
  { unfold Rdiv. apply Rmult_le_compat_r; [|lra].
    left. apply Rinv_0_lt_compat. lra. }
  pose proof (expit_increasing _ _ Harg) as He.
  split; intros Ha; nra.
Qed.

Lemma sigmoid_monotone_witness :
  sigmoid_at 6000 8000 6 0 7000 <= sigmoid_at 6000 8000 6 0 100.
Proof.
  apply (sigmoid_monotone 6000 8000 6 0 100 7000); lra.
Defined.

End SigmoidRange.

(** ** The window size *)

Module WindowFacts.
Import Num Arr FR NumFacts.
Local Open Scope R_scope.

(** A window size returned by [_window_size] is odd. *)
Lemma window_size_odd (fr : FrequencyResponse) (octaves : R) (w : Z) :
  _window_size fr octaves = Ok w -> Z.odd w = true.
Proof.
  unfold _window_size.
  destruct (Nat.eqb _ 0); [discriminate|].
  destruct (Rleb _ 0); [discriminate|].
  destruct (Reqb _ 0); [discriminate|].
  set (n := round _). intros H.
  pose proof (Z.div_mod n 2 ltac:(lia)) as Hd.
  pose proof (Z.mod_pos_bound n 2 ltac:(lia)) as Hb.
  destruct (Z.eqb (n mod 2) 0) eqn:E; injection H as <-;
    [apply Z.eqb_eq in E | apply Z.eqb_neq in E];
    apply Z.odd_spec; exists (n / 2)%Z; lia.
Qed.

Lemma steps_short (l : list R) : (length l <= 1)%nat -> steps l = [].
Proof.
  destruct l as [| a [| b t]]; simpl; intros H; [reflexivity | reflexivity | lia].
Qed.

Section Filter.
Variable savgol_filter : list R -> Z -> Z -> result (list R).

(** X6: on a buffer with fewer than two frequencies the mean step is a
    division by zero: [smoothen] with at least one iteration ends in
    [ZeroDivisionError], whatever the filter. *)
Theorem smoothen_needs_two_frequencies (fr : FrequencyResponse)
    (window_size : R) (iterations : nat)
    (treble_window_size : option R) (treble_iterations : option nat)
    (treble_f_lower treble_f_upper : R) :
  (length (frequency fr) <= 1)%nat ->
  treble_f_lower < treble_f_upper ->
  has_None (raw fr) = false ->
  smoothen savgol_filter fr window_size (S iterations) treble_window_size
    treble_iterations treble_f_lower treble_f_upper
  = Raise ZeroDivisionError.
Proof.
  intros Hlen Hband Hraw. unfold smoothen.
  rewrite Rleb_false by exact Hband.
  unfold _smoothen_data. rewrite Hraw.
  assert (Hfl : exists y, floats (raw fr) = Ok y).
  { clear -Hraw. induction (raw fr) as [| [x |] t IH]; simpl in *.
    - eexists; reflexivity.
    - destruct (IH Hraw) as [y ->]. eexists; reflexivity.
    - discriminate. }
  destruct Hfl as [y ->]. cbn [bind savgol_iterate].
  unfold _window_size. rewrite steps_short by exact Hlen. reflexivity.
Qed.

End Filter.

Lemma smoothen_needs_two_frequencies_witness :
  smoothen Lib.savgol_fixed
    Inputs.single_point
    (1 / 7) 1 None None 6000 8000
  = Raise ZeroDivisionError.
Proof.
  apply (smoothen_needs_two_frequencies Lib.savgol_fixed
           Inputs.single_point
           (1 / 7) 0 None None 6000 8000).
  - simpl. lia.
  - lra.
  - reflexivity.
Defined.

Lemma steps_above_one (l : list R) :
  Sorted.Sorted Rlt l -> Forall (fun f => 0 < f) l ->
  Forall (fun s => 1 < s) (steps l) /\ S (length (steps l)) = length l \/
  l = [].
Proof.
  induction 1 as [| f0 t Ht IH Hhd]; intros Hpos; [right; reflexivity|].
  left. inversion Hpos as [| ? ? Hf0 Hpos']; subst.
  destruct t as [| f1 u]; [split; [constructor | reflexivity]|].
  change (steps (f0 :: f1 :: u)) with (f1 / f0 :: steps (f1 :: u)).
  destruct (IH Hpos') as [[IH1 IH2] | IH0]; [|discriminate].
  inversion Hhd as [| ? ? Hlt]; subst. split.
  - constructor; [|exact IH1].
    apply Rmult_lt_reg_r with f0; [exact Hf0|].
    unfold Rdiv. rewrite Rmult_assoc, Rinv_l by lra. lra.
  - change (length (f1 / f0 :: steps (f1 :: u)))
      with (S (length (steps (f1 :: u)))).
    rewrite IH2. reflexivity.
Qed.

Lemma sum_above (l : list R) :
  Forall (fun s => 1 < s) l ->
  forall acc : R, acc + INR (length l) <= fold_left Rplus l acc /\
                  (l <> [] -> acc + INR (length l) < fold_left Rplus l acc).
Proof.
  induction 1 as [| x t Hx Ht IH]; intros acc.
  - cbn. split; [lra | congruence].
  - cbn [fold_left]. change (length (x :: t)) with (S (length t)).
    rewrite S_INR. destruct (IH (acc + x)) as [IH1 _].
    split; [lra | intros _; lra].
Qed.

Lemma window_size_total (fr : FrequencyResponse) (octaves : R) :
  Sorted.Sorted Rlt (frequency fr) ->
  Forall (fun f => 0 < f) (frequency fr) ->
  (2 <= length (frequency fr))%nat ->
  exists w : Z, _window_size fr octaves = Ok w.
Proof.
  intros Hs Hp Hl.
  destruct (steps_above_one _ Hs Hp) as [[H1 H2] | H0];
    [|rewrite H0 in Hl; simpl in Hl; lia].
  unfold _window_size.
  assert (Hn : (1 <= length (steps (frequency fr)))%nat) by lia.
  destruct (steps (frequency fr)) as [| s0 st] eqn:Est; [simpl in Hn; lia|].
  cbn [length Nat.eqb].
  destruct (sum_above _ H1 0) as [_ Hsum].
  specialize (Hsum ltac:(discriminate)). rewrite Rplus_0_l in Hsum.
  fold (sum (s0 :: st)) in Hsum.
  assert (Hpos : 0 < INR (length (s0 :: st))) by (apply lt_0_INR; simpl; lia).
  assert (Hmean : 1 < sum (s0 :: st) / INR (length (s0 :: st))).
  { apply Rmult_lt_reg_r with (INR (length (s0 :: st))); [exact Hpos|].
    unfold Rdiv. rewrite Rmult_assoc, Rinv_l by lra. lra. }
  change (S (length st)) with (length (s0 :: st)).
  rewrite Rleb_false by lra.
  assert (Hln : 0 < ln (sum (s0 :: st) / INR (length (s0 :: st)))).
  { rewrite <- ln_1. apply ln_increasing; lra. }
  rewrite Reqb_false by lra.
  eexists. reflexivity.
Qed.

(** X7: on a grid of at least two positive, strictly increasing
    frequencies [_window_size] returns a window, and the window is odd
    (as [savgol_filter] requires): the mean step exceeds 1, so neither
    the logarithm nor the division fails. *)
Theorem window_size_defined (fr : FrequencyResponse) (octaves : R) :
  Sorted.Sorted Rlt (frequency fr) ->
  Forall (fun f => 0 < f) (frequency fr) ->
  (2 <= length (frequency fr))%nat ->
  exists w : Z, _window_size fr octaves = Ok w /\ Z.odd w = true.
Proof.
  intros Hs Hp Hl.
  destruct (window_size_total fr octaves Hs Hp Hl) as [w Hw].
  exists w. split; [exact Hw | exact (window_size_odd fr octaves w Hw)].
Qed.

Lemma window_size_defined_witness :
  exists w : Z,
    _window_size Examples.raw_only (1 / 7) = Ok w /\ Z.odd w = true.
Proof.
  apply (window_size_defined Examples.raw_only (1 / 7)).
  - repeat constructor; lra.
  - repeat constructor; lra.
  - simpl. lia.
Defined.

End WindowFacts.

(** ** Arrays: element-wise facts *)

Module ArrFacts.
Import Num Arr FR.
Local Open Scope R_scope.

Lemma floats_of_floats (l : list R) : floats (of_floats l) = Ok l.
Proof.
  unfold of_floats. induction l as [| x t IH]; [reflexivity|].
  simpl. rewrite IH. reflexivity.
Qed.

Lemma floats_inv (a : array) (l : list R) :
  floats a = Ok l -> a = of_floats l.
Proof.
  revert l. induction a as [| c t IH]; intros l H.
  - injection H as <-. reflexivity.
  - destruct c as [v |]; [|discriminate]. simpl in H.
    destruct (floats t) as [l' | e]; [|discriminate].
    injection H as <-. simpl. f_equal. apply IH. reflexivity.
Qed.

Lemma has_None_of_floats (l : list R) : has_None (of_floats l) = false.
Proof. induction l as [| x t IH]; [reflexivity | exact IH]. Qed.

Lemma floats_total (a : array) :
  has_None a = false -> exists l, floats a = Ok l.
Proof.
  induction a as [| [x |] t IH]; simpl; intros H.
  - eexists; reflexivity.
  - destruct (IH H) as [l ->]. eexists; reflexivity.
  - discriminate.
Qed.

Lemma length_of_floats (l : list R) : length (of_floats l) = length l.
Proof. apply length_map. Qed.

Lemma nth_error_of_floats (l : list R) (j : nat) :
  nth_error (of_floats l) j = option_map Some (nth_error l j).
Proof. unfold of_floats. apply nth_error_map. Qed.

Lemma length_zip_with (op : R -> R -> R) (a b : list R) :
  length a = length b -> length (zip_with op a b) = length a.
Proof.
  revert b. induction a as [| x a IH]; intros [| y b] H; simpl in *;
    try reflexivity; try discriminate.
  f_equal. apply IH. lia.
Qed.

Lemma nth_error_zip_with (op : R -> R -> R) (a b : list R) (j : nat) :
  nth_error (zip_with op a b) j
  = match nth_error a j, nth_error b j with
    | Some x, Some y => Some (op x y)
    | _, _ => None
    end.
Proof.
  revert b j. induction a as [| x a IH]; intros [| y b] [| j]; simpl;
    try reflexivity.
  - destruct (nth_error a j); reflexivity.
  - apply IH.
Qed.

Lemma broadcast_same (op : R -> R -> R) (a b : list R) :
  length a = length b -> broadcast op a b = Ok (zip_with op a b).
Proof.
  intros H. unfold broadcast. rewrite H, Nat.eqb_refl. reflexivity.
Qed.

Lemma bind_Ok_inv {A B : Type} (r : result A) (k : A -> result B) (b : B) :
  bind r k = Ok b -> exists a, r = Ok a /\ k a = Ok b.
Proof.
  destruct r as [a | e]; simpl; intros H; [|discriminate].
  exists a. split; [reflexivity | exact H].
Qed.

End ArrFacts.

(** ** Smoothing *)

Module SmoothFacts.
Import Num Arr FR NumFacts ArrFacts.
Local Open Scope R_scope.

Section Filter.
Variable savgol_filter : list R -> Z -> Z -> result (list R).

Lemma smoothen_data_inv (fr : FrequencyResponse) (data : array)
    (w : R) (n : nat) (tw : R) (tn : nat) (f_lower f_upper : R)
    (out : list R) :
  _smoothen_data savgol_filter fr data w n tw tn f_lower f_upper = Ok out ->
  exists y y_normal y_treble a b,
    floats data = Ok y /\
    savgol_iterate savgol_filter fr n y w = Ok y_normal /\
    savgol_iterate savgol_filter fr tn y tw = Ok y_treble /\
    broadcast Rmult y_normal
      (map (fun k => k * -1 + 1) (_sigmoid fr f_lower f_upper 0 1)) = Ok a /\
    broadcast Rmult y_treble (_sigmoid fr f_lower f_upper 0 1) = Ok b /\
    broadcast Rplus a b = Ok out.
Proof.
  unfold _smoothen_data. destruct (has_None data); [discriminate|].
  intros H.
  apply bind_Ok_inv in H. destruct H as (y & Hy & H).
  apply bind_Ok_inv in H. destruct H as (yn & Hyn & H).
  apply bind_Ok_inv in H. destruct H as (yt & Hyt & H).
  apply bind_Ok_inv in H. destruct H as (a & Ha & H).
  apply bind_Ok_inv in H. destruct H as (b & Hb & H).
  exists y, yn, yt, a, b. repeat split; assumption.
Qed.

(** [_smoothen_data] reads the buffer through its frequencies only. *)
Lemma window_size_frequency (fr1 fr2 : FrequencyResponse) (octaves : R) :
  frequency fr1 = frequency fr2 ->
  _window_size fr1 octaves = _window_size fr2 octaves.
Proof. intros H. unfold _window_size. rewrite H. reflexivity. Qed.

Lemma savgol_iterate_frequency (fr1 fr2 : FrequencyResponse) (w : R) :
  frequency fr1 = frequency fr2 ->
  forall (n : nat) (y : list R),
    savgol_iterate savgol_filter fr1 n y w
    = savgol_iterate savgol_filter fr2 n y w.
Proof.
  intros H. induction n as [| n IH]; intros y; [reflexivity|].
  cbn [savgol_iterate]. rewrite (window_size_frequency fr1 fr2 w H).
  destruct (_window_size fr2 w) as [ws | e]; [|reflexivity]. cbn [bind].
  destruct (savgol_filter y ws 2) as [y' | e]; [|reflexivity]. cbn [bind].
  apply IH.
Qed.

Lemma smoothen_data_frequency (fr1 fr2 : FrequencyResponse) (data : array)
    (w : R) (n : nat) (tw : R) (tn : nat) (f_lower f_upper : R) :
  frequency fr1 = frequency fr2 ->
  _smoothen_data savgol_filter fr1 data w n tw tn f_lower f_upper
  = _smoothen_data savgol_filter fr2 data w n tw tn f_lower f_upper.
Proof.
  intros H. unfold _smoothen_data, _sigmoid.
  rewrite H.
  destruct (has_None data); [reflexivity|].
  destruct (floats data) as [y | e]; [|reflexivity]. cbn [bind].
  rewrite (savgol_iterate_frequency fr1 fr2 w H n y).
  rewrite (savgol_iterate_frequency fr1 fr2 tw H tn y).
  reflexivity.
Qed.

Lemma smoothen_keeps (fr fr' : FrequencyResponse)
    (window_size : R) (iterations : nat)
    (treble_window_size : option R) (treble_iterations : option nat)
    (treble_f_lower treble_f_upper : R) :
  smoothen savgol_filter fr window_size iterations treble_window_size
    treble_iterations treble_f_lower treble_f_upper = Ok fr' ->
  (name fr' = name fr /\ frequency fr' = frequency fr /\ raw fr' = raw fr /\
   error fr' = error fr /\ target fr' = target fr) /\
  (equalization fr' = [] /\ parametric_eq fr' = [] /\
   equalized_raw fr' = [] /\ equalized_smoothed fr' = []) /\
  has_None (smoothed fr') = false /\
  (error fr = [] -> error_smoothed fr' = error_smoothed fr) /\
  (error fr <> [] -> has_None (error_smoothed fr') = false) /\
  (exists sm : list R,
      _smoothen_data savgol_filter fr (raw fr) window_size iterations
        match treble_window_size with None => window_size | Some w => w end
        match treble_iterations with None => iterations | Some n => n end
        treble_f_lower treble_f_upper = Ok sm /\
      smoothed fr' = of_floats sm) /\
  (error fr <> [] ->
   exists es : list R,
     _smoothen_data savgol_filter fr (error fr) window_size iterations
       match treble_window_size with None => window_size | Some w => w end
       match treble_iterations with None => iterations | Some n => n end
       treble_f_lower treble_f_upper = Ok es /\
     error_smoothed fr' = of_floats es).
Proof.
  unfold smoothen. destruct (Rleb treble_f_upper treble_f_lower); [discriminate|].
  intros H.
  apply bind_Ok_inv in H. destruct H as (sm & Hsm & H).
  destruct (error fr) as [| c t] eqn:Ee.
  - cbn in H. rewrite Ee in H. cbn in H. injection H as <-. cbn.
    rewrite Ee. repeat split; try reflexivity.
    + apply has_None_of_floats.
    + intros Hne. congruence.
    + exists sm. split; [exact Hsm | reflexivity].
    + intros Hne. congruence.
  - cbn [set_smoothed error nonempty] in H. rewrite Ee in H.
    cbn [nonempty] in H.
    apply bind_Ok_inv in H. destruct H as (fr2 & H2 & H).
    apply bind_Ok_inv in H2. destruct H2 as (es & Hes & H2).
    injection H2 as <-. injection H as <-. cbn. rewrite Ee.
    rewrite (smoothen_data_frequency _ fr) in Hes by reflexivity.
    repeat split; try reflexivity.
    + apply has_None_of_floats.
    + intros Hc. discriminate.
    + intros _. apply has_None_of_floats.
    + exists sm. split; [exact Hsm | reflexivity].
    + intros _. exists es. split; [exact Hes | reflexivity].
Qed.

(** X8: a successful [smoothen] keeps the name, the frequencies, [raw],
    [error] and [target]; it empties [equalization], [parametric_eq],
    [equalized_raw] and [equalized_smoothed]; [smoothed] is the result of
    [_smoothen_data] on [raw] and holds no missing value;
    [error_smoothed] is the result of [_smoothen_data] on [error] when
    [error] is present, and is left as it was (not emptied) when [error]
    is empty.  The treble parameters default to the normal ones. *)
Theorem smoothen_channels (fr fr' : FrequencyResponse)
    (window_size : R) (iterations : nat)
    (treble_window_size : option R) (treble_iterations : option nat)
    (treble_f_lower treble_f_upper : R) :
  smoothen savgol_filter fr window_size iterations treble_window_size
    treble_iterations treble_f_lower treble_f_upper = Ok fr' ->
  (name fr' = name fr /\ frequency fr' = frequency fr /\ raw fr' = raw fr /\
   error fr' = error fr /\ target fr' = target fr) /\
  (equalization fr' = [] /\ parametric_eq fr' = [] /\
   equalized_raw fr' = [] /\ equalized_smoothed fr' = []) /\
  has_None (smoothed fr') = false /\
  (error fr = [] -> error_smoothed fr' = error_smoothed fr) /\
  (error fr <> [] -> has_None (error_smoothed fr') = false) /\
  (exists sm : list R,
      _smoothen_data savgol_filter fr (raw fr) window_size iterations
        match treble_window_size with None => window_size | Some w => w end
        match treble_iterations with None => iterations | Some n => n end
        treble_f_lower treble_f_upper = Ok sm /\
      smoothed fr' = of_floats sm) /\
  (error fr <> [] ->
   exists es : list R,
     _smoothen_data savgol_filter fr (error fr) window_size iterations
       match treble_window_size with None => window_size | Some w => w end
       match treble_iterations with None => iterations | Some n => n end
       treble_f_lower treble_f_upper = Ok es /\
     error_smoothed fr' = of_floats es).
Proof. intros H. exact (smoothen_keeps _ _ _ _ _ _ _ _ H). Qed.

Hypothesis savgol_length :
  forall (y : list R) (w o : Z) (r : list R),
    savgol_filter y w o = Ok r -> length r = length y.

Lemma savgol_iterate_length (fr : FrequencyResponse) (w : R) :
  forall (n : nat) (y r : list R),
    savgol_iterate savgol_filter fr n y w = Ok r -> length r = length y.
Proof.
  induction n as [| n IH]; intros y r H.
  - injection H as <-. reflexivity.
  - simpl in H.
    apply bind_Ok_inv in H. destruct H as (ws & _ & H).
    apply bind_Ok_inv in H. destruct H as (y' & Hy' & H).
    apply IH in H. apply savgol_length in Hy'. lia.
Qed.

Lemma smoothen_data_mix (fr : FrequencyResponse) (data : array)
    (w : R) (n : nat) (tw : R) (tn : nat) (f_lower f_upper : R)
    (out : list R) :
  length data = length (frequency fr) ->
  _smoothen_data savgol_filter fr data w n tw tn f_lower f_upper = Ok out ->
  exists y y_normal y_treble : list R,
    floats data = Ok y /\
    savgol_iterate savgol_filter fr n y w = Ok y_normal /\
    savgol_iterate savgol_filter fr tn y tw = Ok y_treble /\
    length out = length data /\
    forall (j : nat) (a b v : R),
      nth_error y_normal j = Some a -> nth_error y_treble j = Some b ->
      nth_error out j = Some v -> Rmin a b <= v <= Rmax a b.
Proof.
  intros Hlen H.
  apply smoothen_data_inv in H.
  destruct H as (y & yn & yt & a & b & Hy & Hyn & Hyt & Ha & Hb & Hout).
  exists y, yn, yt.
  pose proof (ResetFacts.floats_length _ _ Hy) as Ly.
  pose proof (savgol_iterate_length _ _ _ _ _ Hyn) as Lyn.
  pose proof (savgol_iterate_length _ _ _ _ _ Hyt) as Lyt.
  set (kt := _sigmoid fr f_lower f_upper 0 1) in *.
  assert (Lkt : length kt = length (frequency fr))
    by (unfold kt, _sigmoid; apply length_map).
  rewrite broadcast_same in Ha by (rewrite length_map; lia).
  rewrite broadcast_same in Hb by lia.
  injection Ha as <-. injection Hb as <-.
  assert (La : length (zip_with Rmult yn (map (fun k => k * -1 + 1) kt))
               = length yn)
    by (apply length_zip_with; rewrite length_map; lia).
  assert (Lb : length (zip_with Rmult yt kt) = length yt)
    by (apply length_zip_with; lia).
  rewrite broadcast_same in Hout by lia.
  injection Hout as <-.
  split; [exact Hy|]. split; [exact Hyn|]. split; [exact Hyt|].
  split; [rewrite length_zip_with by lia; lia|].
  intros j va vb v Hja Hjb Hv.
  rewrite !nth_error_zip_with, nth_error_map in Hv.
  rewrite Hja, Hjb in Hv. unfold kt, _sigmoid in Hv.
  rewrite nth_error_map in Hv.
  destruct (nth_error (frequency fr) j) as [f |]; [|discriminate].
  cbn in Hv. injection Hv as <-.
  destruct (SigmoidRange.sigmoid_at_mix f_lower f_upper 0 1 f)
    as (k & [Hk0 Hk1] & ->).
  unfold Rmin, Rmax. destruct (Rle_dec va vb); split; nra.
Qed.

End Filter.

(** X9: when the filter keeps the length of its input and the data has
    one value per frequency, each smoothed value lies between the value
    of the normal filter and the value of the treble filter at the same
    index: the two weights are positive and sum to one. *)
Theorem smoothed_between_filters
    (savgol_filter : list R -> Z -> Z -> result (list R))
    (fr : FrequencyResponse) (data : array)
    (w : R) (n : nat) (tw : R) (tn : nat) (f_lower f_upper : R)
    (out : list R) :
  (forall (y : list R) (ws o : Z) (r : list R),
     savgol_filter y ws o = Ok r -> length r = length y) ->
  0 < f_lower -> f_lower < f_upper ->
  Forall (fun f => 0 < f) (frequency fr) ->
  length data = length (frequency fr) ->
  _smoothen_data savgol_filter fr data w n tw tn f_lower f_upper = Ok out ->
  exists y y_normal y_treble : list R,
    floats data = Ok y /\
    savgol_iterate savgol_filter fr n y w = Ok y_normal /\
    savgol_iterate savgol_filter fr tn y tw = Ok y_treble /\
    length out = length data /\
    forall (j : nat) (a b v : R),
      nth_error y_normal j = Some a -> nth_error y_treble j = Some b ->
      nth_error out j = Some v -> Rmin a b <= v <= Rmax a b.
Proof.
  intros Hsav _ _ _ Hlen H.
  exact (smoothen_data_mix savgol_filter Hsav fr data w n tw tn
           f_lower f_upper out Hlen H).
Qed.

(** On the grid with steps of 5 % both filters run with a window of
    three samples and leave the data as they are: the mix of the two is
    the data. *)
Lemma smoothen_data_fine (fr : FrequencyResponse) (y0 y1 y2 y3 : R)
    (w : R) (n : nat) (tw : R) (tn : nat) (f_lower f_upper : R) :
  frequency fr = [8000; 8400; 8820; 9261] ->
  1 / 7 <= w <= 1 / 5 -> 1 / 7 <= tw <= 1 / 5 ->
  _smoothen_data Lib.savgol_fixed fr [Some y0; Some y1; Some y2; Some y3]
    w n tw tn f_lower f_upper
  = Ok [y0; y1; y2; y3].
Proof.
  intros Hf Hw Htw. unfold _smoothen_data.
  cbn [has_None existsb orb floats bind].
  rewrite !PeakFacts.savgol_iterate_fine by assumption.
  cbn [bind]. unfold broadcast, _sigmoid. rewrite Hf.
  cbn [map length Nat.eqb zip_with bind].
  repeat f_equal; ring.
Qed.

Lemma smoothed_between_filters_witness :
  exists out : list R,
    _smoothen_data Lib.savgol_fixed Examples.fine_input
      (error Examples.fine_input) (1 / 7) 10 (1 / 5) 100 6000 8000 = Ok out /\
    length out = 4%nat.
Proof.
  assert (Hrun : exists out,
             _smoothen_data Lib.savgol_fixed Examples.fine_input
               (error Examples.fine_input) (1 / 7) 10 (1 / 5) 100 6000 8000
             = Ok out).
  { eexists. apply smoothen_data_fine; [reflexivity | lra | lra]. }
  destruct Hrun as [out Hrun]. exists out. split; [exact Hrun|].
  destruct (smoothed_between_filters Lib.savgol_fixed Examples.fine_input
              (error Examples.fine_input) (1 / 7) 10 (1 / 5) 100 6000 8000 out)
    as (y & yn & yt & _ & _ & _ & Hl & _).
  - apply GuardFacts.lib_savgol_length.
  - lra.
  - lra.
  - repeat constructor; lra.
  - reflexivity.
  - exact Hrun.
  - exact Hl.
Defined.

(** X8 on [fine_input]: [smoothed] and [error_smoothed] are the filtered
    [raw] and [error]. *)
Lemma smoothen_channels_witness :
  exists fr' : FrequencyResponse,
    smoothen Lib.savgol_fixed Examples.fine_input (1 / 7) 10 None None
      6000 8000 = Ok fr' /\
    raw fr' = raw Examples.fine_input /\ equalization fr' = [] /\
    smoothed fr' = of_floats [0; 0; 0; 0] /\
    error_smoothed fr' = of_floats [1; -5; -5; 10].
Proof.
  assert (Hrun : exists fr',
             smoothen Lib.savgol_fixed Examples.fine_input (1 / 7) 10 None None
               6000 8000 = Ok fr').
  { unfold smoothen. rewrite Rleb_false by lra.
    change (raw Examples.fine_input)
      with [Some 0; Some 0; Some 0; Some 0].
    rewrite smoothen_data_fine by (try reflexivity; lra).
    cbn [bind].
    change (error (set_smoothed Examples.fine_input (of_floats [0; 0; 0; 0])))
      with [Some 1; Some (-5); Some (-5); Some 10].
    cbn [nonempty].
    rewrite smoothen_data_fine by (try reflexivity; lra).
    cbn [bind]. eexists; reflexivity. }
  destruct Hrun as [fr' Hrun]. exists fr'.
  split; [exact Hrun|].
  pose proof (smoothen_channels Lib.savgol_fixed Examples.fine_input fr'
                (1 / 7) 10 None None 6000 8000 Hrun) as H.
  destruct H as ((_ & _ & Hraw & _) & (Heq & _) & _ & _ & _
                 & (sm & Hsm & Hsmoothed) & Herr).
  destruct (Herr ltac:(discriminate)) as (es & Hes & Hesm).
  change (raw Examples.fine_input)
    with [Some 0; Some 0; Some 0; Some 0] in Hsm.
  change (error Examples.fine_input)
    with [Some 1; Some (-5); Some (-5); Some 10] in Hes.
  rewrite smoothen_data_fine in Hsm, Hes by (try reflexivity; lra).
  injection Hsm as <-. injection Hes as <-.
  split; [exact Hraw|]. split; [exact Heq|].
  split; [exact Hsmoothed | exact Hesm].
Defined.

End SmoothFacts.

(** ** Equalization: the clipped curve, the deleted indices, the channels *)

Module ClipFacts.
Import Num Arr FR NumFacts ArrFacts.
Local Open Scope R_scope.

Lemma clip_value (m gain : R) :
  (if Rltb m gain then m else gain) = Rmin gain m.
Proof.
  unfold Rmin. destruct (Rltb m gain) eqn:E.
  - apply Rltb_lt in E. destruct (Rle_dec gain m); [lra | reflexivity].
  - apply Rltb_false_le in E. destruct (Rle_dec gain m); [reflexivity | lra].
Qed.

Lemma clip_loop_values (gain_k max_gain : list R) :
  forall (errs : list R) (i : nat) (previous_clipped : bool)
         (kink_inds : list nat) (acc : list R) (r : list nat * list R),
    clip_loop errs i gain_k max_gain previous_clipped kink_inds acc = Ok r ->
    exists tail : list R,
      snd r = acc ++ tail /\ length tail = length errs /\
      forall (j : nat) (e : R),
        nth_error errs j = Some e ->
        exists k m : R,
          nth_error gain_k (i + j) = Some k /\
          nth_error max_gain (i + j) = Some m /\
          nth_error tail j = Some (Rmin (- e * k) m).
Proof.
  induction errs as [| e rest IH]; intros i prev kinks acc r H.
  - injection H as <-. exists []. rewrite app_nil_r.
    split; [reflexivity|]. split; [reflexivity|].
    intros j e Hj. destruct j; discriminate.
  - cbn [clip_loop] in H.
    destruct (nth_error gain_k i) as [k |] eqn:Ek; [|discriminate].
    destruct (nth_error max_gain i) as [m |] eqn:Em; [|discriminate].
    apply IH in H. destruct H as (tail & Hr & Hl & Hv).
    exists ((if Rltb m (- e * k) then m else - e * k) :: tail).
    split; [rewrite Hr, <- app_assoc; reflexivity|].
    split; [simpl; lia|].
    intros [| j] e' Hj.
    + injection Hj as <-. exists k, m. rewrite Nat.add_0_r.
      repeat split; try assumption. simpl. f_equal. apply clip_value.
    + simpl in Hj. destruct (Hv j e' Hj) as (k' & m' & Hk' & Hm' & Ht).
      exists k', m'. replace (i + S j)%nat with (S i + j)%nat by lia.
      repeat split; assumption.
Qed.

(** X10: the loop "invert with max gain clipping" computes, at every
    grid frequency [f], the smaller of the inverted error times the gain
    factor and the gain limit: [min(-error * gain_k(f), max_gain(f))];
    the curve has one value per error value. *)
Theorem clipped_curve_is_min (fr : FrequencyResponse) (err : list R)
    (max_gain f_lower f_upper treble_max_gain treble_gain_k : R)
    (kink_inds : list nat) (eq : list R) :
  clipped_curve fr err max_gain f_lower f_upper treble_max_gain treble_gain_k
  = Ok (kink_inds, eq) ->
  length eq = length err /\
  forall (j : nat) (e : R),
    nth_error err j = Some e ->
    exists f : R,
      nth_error (frequency fr) j = Some f /\
      nth_error eq j
      = Some (Rmin (- e * sigmoid_at f_lower f_upper 1 treble_gain_k f)
                (sigmoid_at f_lower f_upper max_gain treble_max_gain f)).
Proof.
  unfold clipped_curve. intros H.
  apply clip_loop_values in H. destruct H as (tail & Hr & Hl & Hv).
  cbn in Hr. subst tail. split; [exact Hl|].
  intros j e Hj. destruct (Hv j e Hj) as (k & m & Hk & Hm & Ht).
  cbn in Hk, Hm. unfold _sigmoid in Hk, Hm.
  rewrite nth_error_map in Hk, Hm.
  destruct (nth_error (frequency fr) j) as [f |]; [|discriminate].
  injection Hk as <-. injection Hm as <-.
  exists f. split; [reflexivity | exact Ht].
Qed.

(** On [clip_input] with a limit of 0 dB the curve is clipped at 10 Hz
    and 100 Hz: the kinks are at the indices 1 and 3. *)
Lemma clip_input_curve :
  exists eq : list R,
    clipped_curve Examples.clip_input [1; -5; -5; 10] 0 6000 8000 0 1
    = Ok ([1; 3]%nat, eq).
Proof.
  unfold clipped_curve, _sigmoid.
  cbn -[IZR Rltb sigmoid_at Rmult Ropp].
  rewrite !EqualizeFacts.sigmoid_at_const. rdecide.
  cbn -[IZR Rltb sigmoid_at Rmult Ropp].
  eexists. reflexivity.
Qed.

Lemma clipped_curve_is_min_witness :
  exists eq : list R,
    clipped_curve Examples.clip_input [1; -5; -5; 10] 0 6000 8000 0 1
    = Ok ([1; 3]%nat, eq) /\
    length eq = 4%nat /\
    nth_error eq 1
    = Some (Rmin (- -5 * sigmoid_at 6000 8000 1 1 10)
              (sigmoid_at 6000 8000 0 0 10)).
Proof.
  destruct clip_input_curve as [eq Hrun]. exists eq. split; [exact Hrun|].
  destruct (clipped_curve_is_min Examples.clip_input [1; -5; -5; 10]
              0 6000 8000 0 1 [1; 3]%nat eq Hrun) as [Hl Hv].
  split; [exact Hl|].
  destruct (Hv 1%nat (-5) eq_refl) as (f & Hf & He).
  injection Hf as <-. exact He.
Defined.

Lemma mem_In (x : Z) (l : list Z) : mem x l = true <-> In x l.
Proof.
  unfold mem. rewrite existsb_exists. split.
  - intros (y & Hy & E). apply Z.eqb_eq in E. subst y. exact Hy.
  - intros H. exists x. split; [exact H | apply Z.eqb_refl].
Qed.

Lemma range_In (start stop z : Z) :
  In z (range start stop) <-> (start <= z < stop)%Z.
Proof.
  unfold range. rewrite in_map_iff. split.
  - intros (k & <- & Hk). apply in_seq in Hk. lia.
  - intros H. exists (Z.to_nat (z - start)). split; [lia|].
    apply in_seq. lia.
Qed.

Lemma increasing_lt_all (l : list Z) :
  forall x : Z,
    Grid.strictly_increasing (x :: l) = true -> Forall (Z.lt x) l.
Proof.
  induction l as [| y t IH]; intros x H; [constructor|].
  cbn [Grid.strictly_increasing] in H. apply andb_true_iff in H.
  destruct H as [Hxy Ht]. apply Z.ltb_lt in Hxy.
  constructor; [exact Hxy|].
  apply IH in Ht. eapply Forall_impl; [|exact Ht].
  intros a Ha. cbn beta in Ha. lia.
Qed.

Lemma increasing_tail (x : Z) (l : list Z) :
  Grid.strictly_increasing (x :: l) = true ->
  Grid.strictly_increasing l = true.
Proof.
  destruct l as [| y t]; [reflexivity|].
  cbn [Grid.strictly_increasing]. intros H.
  apply andb_true_iff in H. apply H.
Qed.

Lemma remove_first_subset (x y : Z) (l : list Z) :
  In y (remove_first x l) -> In y l.
Proof.
  induction l as [| z t IH]; simpl; [tauto|].
  destruct (x =? z)%Z; simpl; tauto.
Qed.

Lemma remove_first_increasing (x : Z) (l : list Z) :
  Grid.strictly_increasing l = true ->
  Grid.strictly_increasing (remove_first x l) = true /\
  ~ In x (remove_first x l).
Proof.
  induction l as [| z t IH]; intros H; [split; [reflexivity | simpl; tauto]|].
  pose proof (increasing_lt_all _ _ H) as Hall.
  pose proof (increasing_tail _ _ H) as Ht.
  cbn [remove_first]. destruct (x =? z)%Z eqn:E.
  - apply Z.eqb_eq in E. subst z. split; [exact Ht|].
    intros Hin. rewrite Forall_forall in Hall. apply Hall in Hin. lia.
  - apply Z.eqb_neq in E. destruct (IH Ht) as [IH1 IH2]. split.
    + destruct (remove_first x t) as [| a u] eqn:Er; [reflexivity|].
      cbn [Grid.strictly_increasing]. apply andb_true_iff.
      split; [|exact IH1].
      apply Z.ltb_lt. rewrite Forall_forall in Hall. apply Hall.
      apply (remove_first_subset x). rewrite Er. left. reflexivity.
    + simpl. intros [Hz | Hin]; [lia | exact (IH2 Hin)].
Qed.

Lemma drop_index (x : Z) (l : list Z) :
  Grid.strictly_increasing l = true ->
  let l' := if mem x l then remove_first x l else l in
  Grid.strictly_increasing l' = true /\ ~ In x l' /\
  (forall y, In y l' -> In y l).
Proof.
  intros H. cbn zeta. destruct (mem x l) eqn:E.
  - destruct (remove_first_increasing x l H) as [H1 H2].
    repeat split; [exact H1 | exact H2 |].
    intros y. apply remove_first_subset.
  - repeat split; [exact H | | tauto].
    intros Hin. apply mem_In in Hin. congruence.
Qed.

(** X11: the indices deleted around the kinks are indices of the curve,
    and the last two indices of the frequency grid are never among
    them, so the spline is always anchored at the end of the grid. *)
Theorem doomed_indices (fr : FrequencyResponse) (window_size : Z)
    (kink_inds : list nat) (equalization_ : list R) (z : Z) :
  In z (doomed fr window_size kink_inds equalization_) ->
  (0 <= z < Z.of_nat (length equalization_))%Z /\
  z <> (Z.of_nat (length (frequency fr)) - 1)%Z /\
  z <> (Z.of_nat (length (frequency fr)) - 2)%Z.
Proof.
  unfold doomed.
  set (half := ((window_size - 1) / 2)%Z).
  set (n := Z.of_nat (length equalization_)).
  set (len_f := Z.of_nat (length (frequency fr))).
  set (d0 := Grid.sorted_set _).
  pose proof (GridFacts.sorted_set_increasing
                (flat_map
                   (fun k => let i := Z.of_nat k in
                             range (i - Z.min i half)
                               (i + 1 + Z.min (n - i - 1) half))
                   kink_inds)) as Hinc.
  fold d0 in Hinc.
  destruct (drop_index (len_f - 1) d0 Hinc) as (H1 & N1 & S1).
  cbn zeta in H1, N1, S1.
  set (d1 := if mem (len_f - 1) d0 then remove_first (len_f - 1) d0 else d0)
    in *.
  destruct (drop_index (len_f - 2) d1 H1) as (H2 & N2 & S2).
  cbn zeta in H2, N2, S2.
  intros Hz. split; [|split].
  - apply S2, S1 in Hz. unfold d0 in Hz.
    apply GridBounds.sorted_set_In in Hz.
    apply in_flat_map in Hz. destruct Hz as (k & _ & Hz).
    cbn zeta in Hz. apply range_In in Hz. lia.
  - intros ->. apply N1. apply S2. exact Hz.
  - intros ->. apply N2. exact Hz.
Qed.

Lemma doomed_indices_witness :
  (0 <= 1 < Z.of_nat (length [0; 0; 0; 0]))%Z /\
  1%Z <> (Z.of_nat (length (frequency Examples.clip_input)) - 1)%Z /\
  1%Z <> (Z.of_nat (length (frequency Examples.clip_input)) - 2)%Z.
Proof.
  apply (doomed_indices Examples.clip_input 3 [1%nat] [0; 0; 0; 0] 1%Z).
  cbn -[IZR]. right. left. reflexivity.
Defined.

End ClipFacts.

(** ** Where the clipping sets in *)

Module KinkFacts.
Import Num Arr FR NumFacts ArrFacts Kink.
Local Open Scope R_scope.

Lemma skipn_cons_nth {A : Type} (l : list A) :
  forall (i : nat) (x : A) (t : list A),
    skipn i l = x :: t -> nth_error l i = Some x /\ skipn (S i) l = t.
Proof.
  induction l as [| y l IH]; intros [| i] x t H; try discriminate.
  - injection H as <- <-. split; reflexivity.
  - cbn [skipn] in H. apply IH in H. exact H.
Qed.

Lemma clip_loop_kinks (errs gain_k max_gain : list R) :
  forall (rest : list R) (i : nat) (kink_inds : list nat) (acc : list R)
         (r : list nat * list R),
    skipn i errs = rest ->
    clip_loop rest i gain_k max_gain
      match i with
      | O => false
      | S p => clipped_at errs gain_k max_gain p
      end kink_inds acc = Ok r ->
    fst r
    = kink_inds
      ++ filter (changes_at errs gain_k max_gain) (seq i (length rest)).
Proof.
  induction rest as [| e rest IH]; intros i kinks acc r Hs H.
  - injection H as <-. cbn. rewrite app_nil_r. reflexivity.
  - apply skipn_cons_nth in Hs. destruct Hs as [He Hs].
    cbn [clip_loop] in H.
    destruct (nth_error gain_k i) as [k |] eqn:Ek; [|discriminate].
    destruct (nth_error max_gain i) as [m |] eqn:Em; [|discriminate].
    assert (Hc : clipped_at errs gain_k max_gain i = Rltb m (- e * k)).
    { unfold clipped_at. rewrite He, Ek, Em. reflexivity. }
    rewrite <- Hc in H.
    apply (IH (S i) _ _ _ Hs) in H. rewrite H.
    cbn [length seq filter]. unfold changes_at at 2.
    destruct (Bool.eqb _ (clipped_at errs gain_k max_gain i)); cbn [negb].
    + reflexivity.
    + rewrite <- app_assoc. reflexivity.
Qed.

(** X12: the kink indices collected by the clipping loop are exactly
    the indices at which the clipping sets in or ends, in ascending
    order: those [i] where [gain > max_gain] holds at [i] but not at
    [i - 1], or the reverse (nothing counts as clipped before index 0). *)
Theorem kink_inds_are_changes (fr : FrequencyResponse) (err : list R)
    (max_gain f_lower f_upper treble_max_gain treble_gain_k : R)
    (kink_inds : list nat) (eq : list R) :
  clipped_curve fr err max_gain f_lower f_upper treble_max_gain treble_gain_k
  = Ok (kink_inds, eq) ->
  kink_inds
  = filter
      (changes_at err
         (_sigmoid fr f_lower f_upper 1 treble_gain_k)
         (_sigmoid fr f_lower f_upper max_gain treble_max_gain))
      (seq 0 (length err)).
Proof.
  unfold clipped_curve. intros H.
  apply (clip_loop_kinks err _ _ err 0 [] [] _ eq_refl) in H.
  exact H.
Qed.

Lemma kink_inds_are_changes_witness :
  [1; 3]%nat
  = filter
      (changes_at [1; -5; -5; 10]
         (_sigmoid Examples.clip_input 6000 8000 1 1)
         (_sigmoid Examples.clip_input 6000 8000 0 0))
      (seq 0 4).
Proof.
  destruct ClipFacts.clip_input_curve as [eq Hrun].
  apply (kink_inds_are_changes Examples.clip_input [1; -5; -5; 10]
           0 6000 8000 0 1 [1; 3]%nat eq Hrun).
Defined.

End KinkFacts.

(** ** Equalization: what [equalize] writes and what it leaves *)

Module EqualizeChannels.
Import Num Arr FR NumFacts ArrFacts.
Local Open Scope R_scope.

Section Spline.
Variable spline : list R -> list R -> nat -> result (R -> R).

Lemma equalize_keeps (fr fr' : FrequencyResponse)
    (max_gain : R) (smoothen_ : bool)
    (treble_f_lower treble_f_upper treble_max_gain treble_gain_k : R) :
  equalize spline fr max_gain smoothen_ treble_f_lower treble_f_upper
    treble_max_gain treble_gain_k = Ok fr' ->
  (name fr' = name fr /\ frequency fr' = frequency fr /\ raw fr' = raw fr /\
   error fr' = error fr /\ smoothed fr' = smoothed fr /\
   error_smoothed fr' = error_smoothed fr /\ target fr' = target fr /\
   parametric_eq fr' = parametric_eq fr) /\
  has_None (equalization fr') = false /\
  add (raw fr) (equalization fr') = Ok (equalized_raw fr') /\
  (smoothed fr <> [] ->
   add (smoothed fr) (equalization fr') = Ok (equalized_smoothed fr')) /\
  (smoothed fr = [] -> equalized_smoothed fr' = equalized_smoothed fr).
Proof.
  unfold equalize. intros H.
  apply bind_Ok_inv in H. destruct H as (error_ & _ & H).
  destruct (has_None error_ || _ || _); [discriminate|].
  apply bind_Ok_inv in H. destruct H as (err & _ & H).
  apply bind_Ok_inv in H. destruct H as (r & _ & H).
  apply bind_Ok_inv in H. destruct H as (eq & _ & H).
  apply bind_Ok_inv in H. destruct H as (er & Her & H).
  cbn in Her, H.
  destruct (smoothed fr) as [| c t] eqn:Esm.
  - cbn in H. injection H as <-. cbn. rewrite Esm.
    repeat split; try reflexivity.
    + apply has_None_of_floats.
    + exact Her.
    + intros Hc. congruence.
  - cbn [nonempty] in H.
    apply bind_Ok_inv in H. destruct H as (es & Hes & H).
    injection H as <-. cbn. rewrite Esm.
    repeat split; try reflexivity.
    + apply has_None_of_floats.
    + exact Her.
    + intros _. exact Hes.
    + intros Hc. discriminate.
Qed.

(** X13: a successful [equalize] changes three channels only.  The name,
    the frequencies, [raw], [error], [smoothed], [error_smoothed] and
    [target] are kept, and so is [parametric_eq] (a curve fitted to an
    earlier equalization is not emptied).  [equalization] holds no
    missing value, [equalized_raw] is [raw + equalization], and
    [equalized_smoothed] is [smoothed + equalization] when [smoothed] is
    present and is left as it was otherwise. *)
Theorem equalize_channels (fr fr' : FrequencyResponse)
    (max_gain : R) (smoothen_ : bool)
    (treble_f_lower treble_f_upper treble_max_gain treble_gain_k : R) :
  equalize spline fr max_gain smoothen_ treble_f_lower treble_f_upper
    treble_max_gain treble_gain_k = Ok fr' ->
  (name fr' = name fr /\ frequency fr' = frequency fr /\ raw fr' = raw fr /\
   error fr' = error fr /\ smoothed fr' = smoothed fr /\
   error_smoothed fr' = error_smoothed fr /\ target fr' = target fr /\
   parametric_eq fr' = parametric_eq fr) /\
  has_None (equalization fr') = false /\
  add (raw fr) (equalization fr') = Ok (equalized_raw fr') /\
  (smoothed fr <> [] ->
   add (smoothed fr) (equalization fr') = Ok (equalized_smoothed fr')) /\
  (smoothed fr = [] -> equalized_smoothed fr' = equalized_smoothed fr).
Proof. intros H. exact (equalize_keeps _ _ _ _ _ _ _ _ H). Qed.

End Spline.

Lemma equalize_channels_witness :
  exists fr' : FrequencyResponse,
    equalize Lib.InterpolatedUnivariateSpline Examples.clip_input 0 false
      6000 8000 0 1 = Ok fr' /\
    raw fr' = raw Examples.clip_input /\
    parametric_eq fr' = parametric_eq Examples.clip_input.
Proof.
  assert (H : exists fr',
             equalize Lib.InterpolatedUnivariateSpline Examples.clip_input
               0 false 6000 8000 0 1 = Ok fr').
  { unfold equalize, clipped_curve, _sigmoid.
    cbn -[IZR Rltb Rleb Reqb sigmoid_at Rdiv].
    rewrite !EqualizeFacts.sigmoid_at_const. rdecide.
    cbn -[IZR Rltb Rleb Reqb sigmoid_at Rdiv]. eexists. reflexivity. }
  destruct H as [fr' Hrun]. exists fr'. split; [exact Hrun|].
  pose proof (equalize_channels Lib.InterpolatedUnivariateSpline
                Examples.clip_input fr' 0 false 6000 8000 0 1 Hrun) as H.
  split; apply H.
Defined.

End EqualizeChannels.

(** ** The constructor: sorting by frequency *)

Module SortFacts.
Import Num Arr FR NumFacts ArrFacts.
Import Permutation Sorted.
Local Open Scope R_scope.

Lemma insert_by_perm (x : R * nat) (l : list (R * nat)) :
  Permutation (x :: l) (insert_by x l).
Proof.
  induction l as [| y t IH]; [apply Permutation_refl|].
  cbn [insert_by]. destruct (Rleb (fst x) (fst y)).
  - apply Permutation_refl.
  - apply perm_trans with (y :: x :: t); [apply perm_swap|].
    apply perm_skip. exact IH.
Qed.

Lemma isort_perm (l : list (R * nat)) :
  Permutation l (fold_right insert_by [] l).
Proof.
  induction l as [| x t IH]; [apply Permutation_refl|].
  cbn [fold_right].
  apply perm_trans with (x :: fold_right insert_by [] t).
  - apply perm_skip. exact IH.
  - apply insert_by_perm.
Qed.

Lemma insert_by_sorted (x : R * nat) (l : list (R * nat)) :
  Sorted Inputs.by_fst l -> Sorted Inputs.by_fst (insert_by x l).
Proof.
  induction l as [| y t IH]; intros H.
  - repeat constructor.
  - cbn [insert_by]. destruct (Rleb (fst x) (fst y)) eqn:E.
    + constructor; [exact H|]. constructor. unfold Inputs.by_fst.
      unfold Rleb in E. destruct (Rle_dec (fst x) (fst y)); [lra | discriminate].
    + assert (Hyx : fst y <= fst x).
      { unfold Rleb in E. destruct (Rle_dec (fst x) (fst y)); [discriminate | lra]. }
      inversion H as [| a b Ht Hhd]; subst.
      constructor; [apply IH; exact Ht|].
      destruct t as [| z u]; cbn [insert_by].
      * constructor. exact Hyx.
      * destruct (Rleb (fst x) (fst z)); constructor;
          [exact Hyx | inversion Hhd; assumption].
Qed.

Lemma isort_sorted (l : list (R * nat)) :
  Sorted Inputs.by_fst (fold_right insert_by [] l).
Proof.
  induction l as [| x t IH]; [constructor|].
  cbn [fold_right]. apply insert_by_sorted. exact IH.
Qed.

Lemma snd_combine_seq (l : list R) (s : nat) :
  map snd (combine l (seq s (length l))) = seq s (length l).
Proof.
  revert s. induction l as [| x t IH]; intros s; [reflexivity|].
  simpl. f_equal. apply IH.
Qed.

(** [argsort] is a rearrangement of the indices [0 .. n-1]. *)
Lemma argsort_perm (l : list R) :
  Permutation (seq 0 (length l)) (argsort l).
Proof.
  unfold argsort. rewrite <- (snd_combine_seq l 0) at 1.
  apply Permutation_map. apply isort_perm.
Qed.

Lemma argsort_bound (l : list R) (i : nat) :
  In i (argsort l) <-> (i < length l)%nat.
Proof.
  split.
  - intros H. apply (Permutation_in _ (Permutation_sym (argsort_perm l))) in H.
    apply in_seq in H. lia.
  - intros H. apply (Permutation_in _ (argsort_perm l)).
    apply in_seq. lia.
Qed.

Lemma take_ok {A : Type} (d : A) (a : list A) (inds : list nat) :
  (forall i, In i inds -> (i < length a)%nat) ->
  take a inds = Ok (map (fun i => nth i a d) inds).
Proof.
  induction inds as [| i rest IH]; intros H; [reflexivity|].
  cbn [take].
  assert (Hi : (i < length a)%nat) by (apply H; left; reflexivity).
  destruct (nth_error a i) as [x |] eqn:E.
  - rewrite IH by (intros j Hj; apply H; right; exact Hj).
    cbn. f_equal. f_equal. symmetry. apply nth_error_nth. exact E.
  - apply nth_error_None in E. lia.
Qed.

Lemma take_raises {A : Type} (a : list A) (inds : list nat) (i : nat) :
  In i inds -> (length a <= i)%nat -> take a inds = Raise IndexError.
Proof.
  induction inds as [| j rest IH]; intros Hin Hi; [destruct Hin|].
  cbn [take]. destruct (nth_error a j) as [x |] eqn:E.
  - destruct Hin as [-> | Hin].
    + apply nth_error_None in Hi. congruence.
    + rewrite (IH Hin Hi). reflexivity.
  - reflexivity.
Qed.

Lemma take_length {A : Type} (a r : list A) (inds : list nat) :
  take a inds = Ok r -> length r = length inds.
Proof.
  revert r. induction inds as [| i rest IH]; intros r H.
  - injection H as <-. reflexivity.
  - cbn [take] in H. destruct (nth_error a i); [|discriminate].
    apply bind_Ok_inv in H. destruct H as (l & Hl & H).
    injection H as <-. simpl. f_equal. apply IH. exact Hl.
Qed.

Lemma map_nth_seq {A : Type} (d : A) (a : list A) :
  map (fun i => nth i a d) (seq 0 (length a)) = a.
Proof.
  apply nth_ext with (d := d) (d' := d).
  - rewrite length_map, length_seq. reflexivity.
  - intros n Hn. rewrite length_map, length_seq in Hn.
    rewrite (nth_indep _ d (nth 0 a d))
      by (rewrite length_map, length_seq; exact Hn).
    rewrite (map_nth (fun i => nth i a d) (seq 0 (length a)) 0%nat n).
    rewrite seq_nth by exact Hn. reflexivity.
Qed.

Lemma argsort_length (l : list R) : length (argsort l) = length l.
Proof.
  rewrite <- (Permutation_length (argsort_perm l)). apply length_seq.
Qed.

(** The frequencies picked at the sorted indices are the first
    components of the sorted pairs. *)
Lemma take_argsort (l : list R) :
  map (fun i => nth i l 0) (argsort l)
  = map fst (fold_right insert_by [] (combine l (seq 0 (length l)))).
Proof.
  unfold argsort. rewrite map_map.
  apply map_ext_in. intros p Hp.
  apply (Permutation_in _ (Permutation_sym (isort_perm _))) in Hp.
  assert (G : forall (l0 : list R) (s : nat) (q : R * nat),
             In q (combine l0 (seq s (length l0))) ->
             (s <= snd q)%nat /\ nth (snd q - s) l0 0 = fst q).
  { induction l0 as [| x t IH]; intros s q Hq; [destruct Hq|].
    simpl in Hq. destruct Hq as [<- | Hq].
    - simpl. rewrite Nat.sub_diag. split; [lia | reflexivity].
    - apply IH in Hq. destruct Hq as [H1 H2]. split; [lia|].
      replace (snd q - s)%nat with (S (snd q - S s)) by lia. exact H2. }
  apply G in Hp. destruct Hp as [_ Hp]. rewrite Nat.sub_0_r in Hp. exact Hp.
Qed.

Lemma sorted_fst (l : list (R * nat)) :
  Sorted Inputs.by_fst l -> Sorted Rle (map fst l).
Proof.
  induction 1 as [| p t Ht IH Hhd]; [constructor|].
  simpl. constructor; [exact IH|].
  destruct Hhd as [| q u Hpq]; constructor. exact Hpq.
Qed.

Lemma sort_inv (fr fr' : FrequencyResponse) :
  _sort fr = Ok fr' ->
  take (frequency fr) (argsort (frequency fr)) = Ok (frequency fr') /\
  name fr' = name fr /\
  forall ch : FrequencyResponse -> array,
    In ch [raw; error; smoothed; error_smoothed; equalization; parametric_eq;
           equalized_raw; equalized_smoothed; target] ->
    sort_channel (ch fr) (argsort (frequency fr)) = Ok (ch fr').
Proof.
  unfold _sort. intros H.
  apply bind_Ok_inv in H. destruct H as (f' & Hf & H).
  apply bind_Ok_inv in H. destruct H as (c1 & H1 & H).
  apply bind_Ok_inv in H. destruct H as (c2 & H2 & H).
  apply bind_Ok_inv in H. destruct H as (c3 & H3 & H).
  apply bind_Ok_inv in H. destruct H as (c4 & H4 & H).
  apply bind_Ok_inv in H. destruct H as (c5 & H5 & H).
  apply bind_Ok_inv in H. destruct H as (c6 & H6 & H).
  apply bind_Ok_inv in H. destruct H as (c7 & H7 & H).
  apply bind_Ok_inv in H. destruct H as (c8 & H8 & H).
  apply bind_Ok_inv in H. destruct H as (c9 & H9 & H).
  injection H as <-. cbn.
  split; [exact Hf|]. split; [reflexivity|].
  intros ch Hch.
  repeat (destruct Hch as [<- | Hch]; [assumption|]).
  destruct Hch.
Qed.

Lemma sort_frequencies (fr fr' : FrequencyResponse) :
  _sort fr = Ok fr' ->
  Sorted Rle (frequency fr') /\
  Permutation (frequency fr) (frequency fr').
Proof.
  intros H. apply sort_inv in H. destruct H as (Hf & _ & _).
  rewrite (take_ok 0 (frequency fr) (argsort (frequency fr))) in Hf
    by (intros i Hi; apply argsort_bound; exact Hi).
  injection Hf as Hf. rewrite <- Hf. split.
  - rewrite take_argsort. apply sorted_fst. apply isort_sorted.
  - rewrite <- (map_nth_seq 0 (frequency fr)) at 1.
    apply Permutation_map. apply argsort_perm.
Qed.

Lemma sort_pairs (fr fr' : FrequencyResponse)
    (ch : FrequencyResponse -> array) :
  In ch [raw; error; smoothed; error_smoothed; equalization; parametric_eq;
         equalized_raw; equalized_smoothed; target] ->
  length (ch fr) = length (frequency fr) ->
  _sort fr = Ok fr' ->
  Permutation (combine (frequency fr) (ch fr))
              (combine (frequency fr') (ch fr')).
Proof.
  intros Hch Hlen H. apply sort_inv in H. destruct H as (Hf & _ & Hc).
  specialize (Hc ch Hch).
  set (inds := argsort (frequency fr)) in *.
  rewrite (take_ok 0 (frequency fr) inds) in Hf
    by (intros i Hi; apply argsort_bound; exact Hi).
  injection Hf as Hf.
  assert (Hc' : ch fr' = map (fun i => nth i (ch fr) None) inds).
  { unfold sort_channel in Hc. destruct (ch fr) as [| c t] eqn:E.
    - cbn in Hc. injection Hc as <-.
      assert (Hn : inds = []).
      { apply length_zero_iff_nil. unfold inds. rewrite argsort_length.
        simpl in Hlen. lia. }
      rewrite Hn. reflexivity.
    - cbn [nonempty] in Hc.
      rewrite (take_ok None (c :: t) inds) in Hc.
      + injection Hc as <-. reflexivity.
      + intros i Hi. apply argsort_bound in Hi. lia. }
  rewrite <- Hf, Hc'.
  assert (E : forall l : list nat,
             combine (map (fun i => nth i (frequency fr) 0) l)
                     (map (fun i => nth i (ch fr) None) l)
             = map (fun i => (nth i (frequency fr) 0, nth i (ch fr) None)) l).
  { induction l as [| i l IH]; [reflexivity|]. simpl. f_equal. exact IH. }
  rewrite E.
  rewrite <- (map_nth_seq 0 (frequency fr)) at 1.
  rewrite <- (map_nth_seq None (ch fr)) at 1.
  rewrite Hlen, E.
  apply Permutation_map. apply argsort_perm.
Qed.

(** X14: [_sort] (and so the constructor) leaves the frequencies in
    ascending order; they are a rearrangement of the frequencies given,
    and every value stays with its frequency: for each channel that has
    one cell per frequency, the (frequency, cell) pairs after [_sort]
    are a rearrangement of the pairs before. *)
Theorem sort_orders_frequencies (fr fr' : FrequencyResponse) :
  _sort fr = Ok fr' ->
  Sorted Rle (frequency fr') /\
  Permutation (frequency fr) (frequency fr') /\
  forall ch : FrequencyResponse -> array,
    In ch [raw; error; smoothed; error_smoothed; equalization;
           parametric_eq; equalized_raw; equalized_smoothed; target] ->
    length (ch fr) = length (frequency fr) ->
    Permutation (combine (frequency fr) (ch fr))
                (combine (frequency fr') (ch fr')).
Proof.
  intros H. destruct (sort_frequencies fr fr' H) as [H1 H2].
  split; [exact H1|]. split; [exact H2|].
  intros ch Hch Hlen. exact (sort_pairs fr fr' ch Hch Hlen H).
Qed.

Lemma sort_unsorted :
  exists fr' : FrequencyResponse, _sort Inputs.unsorted = Ok fr'.
Proof.
  unfold _sort, argsort, Inputs.unsorted.
  cbn -[IZR Rleb]. rdecide. cbn -[IZR Rleb].
  eexists; reflexivity.
Qed.

Lemma sort_orders_frequencies_witness :
  exists fr' : FrequencyResponse,
    _sort Inputs.unsorted = Ok fr' /\
    Sorted Rle (frequency fr') /\
    Permutation [(1000, Some 1); (20, Some 2)]
                (combine (frequency fr') (raw fr')).
Proof.
  destruct sort_unsorted as [fr' Hrun]. exists fr'. split; [exact Hrun|].
  destruct (sort_orders_frequencies Inputs.unsorted fr' Hrun)
    as (H1 & _ & H3).
  split; [exact H1|].
  apply (H3 raw); [left; reflexivity | reflexivity].
Defined.

(** X15: the shape of the channels.  After a successful [_sort] every
    channel is empty or has exactly one cell per frequency (a channel
    that was longer has lost its cells beyond the number of
    frequencies); a measurement with fewer cells than frequencies
    cannot be sorted: [_sort], and with it the constructor, ends in
    [IndexError]. *)
Theorem sort_shapes (fr : FrequencyResponse) :
  (forall (fr' : FrequencyResponse) (ch : FrequencyResponse -> array),
     In ch [raw; error; smoothed; error_smoothed; equalization;
            parametric_eq; equalized_raw; equalized_smoothed; target] ->
     _sort fr = Ok fr' ->
     length (frequency fr') = length (frequency fr) /\
     (ch fr = [] /\ ch fr' = [] \/
      ch fr <> [] /\ length (ch fr') = length (frequency fr'))) /\
  (raw fr <> [] ->
   (length (raw fr) < length (frequency fr))%nat ->
   _sort fr = Raise IndexError).
Proof.
  split.
  - intros fr' ch Hch H. apply sort_inv in H. destruct H as (Hf & _ & Hc).
    specialize (Hc ch Hch).
    apply take_length in Hf. rewrite argsort_length in Hf.
    split; [exact Hf|].
    unfold sort_channel in Hc. destruct (ch fr) as [| c t].
    + left. cbn in Hc. injection Hc as <-. split; reflexivity.
    + right. cbn [nonempty] in Hc. apply take_length in Hc.
      rewrite argsort_length in Hc. split; [discriminate | lia].
  - intros Hne Hlen. unfold _sort.
    rewrite (take_ok 0 (frequency fr) (argsort (frequency fr)))
      by (intros i Hi; apply argsort_bound; exact Hi).
    cbn [bind]. unfold sort_channel at 1.
    destruct (raw fr) as [| c t] eqn:E; [congruence|].
    cbn [nonempty].
    rewrite (take_raises (c :: t) (argsort (frequency fr))
               (length (frequency fr) - 1)).
    + reflexivity.
    + apply argsort_bound. lia.
    + lia.
Qed.

Lemma sort_shapes_witness :
  _sort Inputs.short_raw = Raise IndexError /\
  exists fr' : FrequencyResponse,
    _sort Inputs.long_raw = Ok fr' /\
    length (raw fr') = length (frequency fr').
Proof.
  split.
  - apply (sort_shapes Inputs.short_raw).
    + discriminate.
    + simpl. lia.
  - assert (Hrun : exists fr', _sort Inputs.long_raw = Ok fr').
    { unfold _sort, argsort, Inputs.long_raw.
      cbn -[IZR Rleb]. rdecide. cbn -[IZR Rleb].
      eexists; reflexivity. }
    destruct Hrun as [fr' Hrun]. exists fr'. split; [exact Hrun|].
    destruct (sort_shapes Inputs.long_raw) as [Hs _].
    destruct (Hs fr' raw ltac:(left; reflexivity) Hrun)
      as [_ [[Hc _] | [_ Hl]]]; [discriminate Hc | exact Hl].
Defined.

End SortFacts.

(** ** CSV files: what a round trip keeps *)

Module CsvRoundTrip.
Import Num Arr FR NumFacts ArrFacts SortFacts.
Import Permutation Sorted.
Local Open Scope string_scope.
Local Open Scope list_scope.
Local Open Scope R_scope.

Lemma column_app (a b : DataFrame) (c : string) :
  column (a ++ b) c
  = match column a c with Some x => Some x | None => column b c end.
Proof.
  induction a as [| [h cells] t IH]; [reflexivity|].
  simpl. destruct (String.eqb h c); [reflexivity | exact IH].
Qed.

Lemma column_write_column (ff : R -> R) (h c : string) (a : array) :
  column (write_column ff h a) c
  = if String.eqb h c && nonempty a
    then Some (map (option_map ff) a) else None.
Proof.
  unfold write_column. destruct (nonempty a); simpl.
  - destruct (String.eqb h c); reflexivity.
  - rewrite andb_false_r. reflexivity.
Qed.

Lemma column_written (ff : R -> R) (fr : FrequencyResponse) (c : string) :
  column (write_to_csv ff fr) c
  = let w := fun (h : string) (a : array) =>
               if String.eqb h c && nonempty a
               then Some (map (option_map ff) a) else None in
    let orelse := fun x y : option array =>
                    match x with Some v => Some v | None => y end in
    orelse (w "frequency" (of_floats (frequency fr)))
      (orelse (w "raw" (raw fr))
         (orelse (w "error" (error fr))
            (orelse (w "smoothed" (smoothed fr))
               (orelse (w "error_smoothed" (error_smoothed fr))
                  (orelse (w "equalization" (equalization fr))
                     (orelse (w "parametric_eq" (parametric_eq fr))
                        (orelse (w "equalized_raw" (equalized_raw fr))
                           (orelse
                              (w "equalized_smoothed" (equalized_smoothed fr))
                              (w "target" (target fr)))))))))).
Proof.
  unfold write_to_csv. rewrite !column_app, !column_write_column.
  reflexivity.
Qed.

Lemma init_data_written (ff : R -> R) (a : array) :
  _init_data (if nonempty a then Some (map (option_map ff) a) else None)
  = map (option_map ff) a.
Proof. destruct a; reflexivity. Qed.

Lemma init_data_written' (ff : R -> R) (a : array) :
  _init_data
    match (if nonempty a then Some (map (option_map ff) a) else None) with
    | Some x => Some x
    | None => None
    end
  = map (option_map ff) a.
Proof. destruct a; reflexivity. Qed.

Lemma isort_sorted_id (l : list R) :
  Sorted Rle l ->
  forall s : nat,
    fold_right insert_by [] (combine l (seq s (length l)))
    = combine l (seq s (length l)).
Proof.
  induction 1 as [| x t Ht IH Hhd]; intros s; [reflexivity|].
  cbn [length seq combine fold_right]. rewrite IH.
  destruct Hhd as [| y u Hxy]; [reflexivity|].
  cbn [length seq combine insert_by fst].
  rewrite Rleb_true by exact Hxy. reflexivity.
Qed.

(** On frequencies that are already ascending [argsort] is the
    identity. *)
Lemma argsort_sorted (l : list R) :
  Sorted Rle l -> argsort l = seq 0 (length l).
Proof.
  intros H. unfold argsort. rewrite (isort_sorted_id l H).
  apply snd_combine_seq.
Qed.

Lemma take_seq {A : Type} (a : list A) :
  take a (seq 0 (length a)) = Ok a.
Proof.
  destruct a as [| d t]; [reflexivity|].
  rewrite (take_ok d (d :: t)) by (intros i Hi; apply in_seq in Hi; lia).
  rewrite map_nth_seq. reflexivity.
Qed.

Lemma sort_channel_seq (a : array) (n : nat) :
  a = [] \/ length a = n -> sort_channel a (seq 0 n) = Ok a.
Proof.
  intros [-> | <-]; [reflexivity|].
  unfold sort_channel. destruct (nonempty a); [apply take_seq | reflexivity].
Qed.

Lemma sorted_lt_le (l : list R) : Sorted Rlt l -> Sorted Rle l.
Proof.
  induction 1 as [| x t Ht IH Hhd]; [constructor|].
  constructor; [exact IH|].
  destruct Hhd as [| y u Hxy]; constructor. lra.
Qed.

(** A buffer whose frequencies are ascending and whose channels are
    empty or aligned is a fixed point of [_sort]. *)
Lemma sort_sorted (fr : FrequencyResponse) :
  Sorted Rle (frequency fr) ->
  (forall ch : FrequencyResponse -> array,
     In ch [raw; error; smoothed; error_smoothed; equalization;
            parametric_eq; equalized_raw; equalized_smoothed; target] ->
     ch fr = [] \/ length (ch fr) = length (frequency fr)) ->
  _sort fr = Ok fr.
Proof.
  intros Hs Hch. unfold _sort. rewrite (argsort_sorted _ Hs).
  rewrite take_seq. cbn [bind].
  rewrite !sort_channel_seq by (apply Hch; simpl; tauto).
  cbn [bind]. destruct fr; reflexivity.
Qed.

Section Format.
Variable float_format : R -> R.

(** X16: a buffer with at least one frequency, whose formatted
    frequencies are strictly ascending and whose channels hold no
    missing value and are empty or aligned with the frequencies, is
    read back from the file written for it with every value formatted
    and nothing else changed, except that [error_smoothed] comes back
    empty. *)
Theorem csv_round_trip (name_ : string) (fr : FrequencyResponse) :
  frequency fr <> [] ->
  Sorted Rlt (map float_format (frequency fr)) ->
  (forall ch : FrequencyResponse -> array,
     In ch [raw; error; smoothed; error_smoothed; equalization;
            parametric_eq; equalized_raw; equalized_smoothed; target] ->
     has_None (ch fr) = false /\
     (ch fr = [] \/ length (ch fr) = length (frequency fr))) ->
  let fmt := map (option_map float_format) in
  read_from_csv name_ (write_to_csv float_format fr)
  = Ok {| name := name_;
          frequency := map float_format (frequency fr);
          raw := fmt (raw fr);
          error := fmt (error fr);
          smoothed := fmt (smoothed fr);
          error_smoothed := [];
          equalization := fmt (equalization fr);
          parametric_eq := fmt (parametric_eq fr);
          equalized_raw := fmt (equalized_raw fr);
          equalized_smoothed := fmt (equalized_smoothed fr);
          target := fmt (target fr) |}.
Proof.
  intros Hne Hs Hch fmt.
  unfold read_from_csv.
  rewrite !column_written.
  cbn [String.eqb Ascii.eqb Bool.eqb andb].
  assert (Hf : nonempty (of_floats (frequency fr)) = true).
  { destruct (frequency fr); [congruence | reflexivity]. }
  rewrite Hf.
  assert (Hff : floats (map (option_map float_format) (of_floats (frequency fr)))
                = Ok (map float_format (frequency fr))).
  { unfold of_floats. rewrite map_map. cbn [option_map].
    rewrite <- (map_map float_format Some). apply floats_of_floats. }
  rewrite Hff. cbn [bind].
  unfold __init__.
  assert (Hn : nonempty (map float_format (frequency fr)) = true).
  { destruct (frequency fr); [congruence | reflexivity]. }
  rewrite Hn.
  rewrite !init_data_written', init_data_written.
  apply sort_sorted; [apply sorted_lt_le; exact Hs|].
  intros ch Hin. cbn [frequency]. rewrite length_map.
  assert (Hfmt : forall a : array,
             a = [] \/ length a = length (frequency fr) ->
             fmt a = [] \/ length (fmt a) = length (frequency fr)).
  { intros a [-> | Ha]; [left; reflexivity | right].
    unfold fmt. rewrite length_map. exact Ha. }
  cbn in Hin.
  repeat (destruct Hin as [<- | Hin];
          [first [ left; reflexivity
                 | apply Hfmt; apply Hch; simpl; tauto ]|]).
  destruct Hin.
Qed.

End Format.

Lemma csv_round_trip_witness :
  exists fr' : FrequencyResponse,
    read_from_csv "measurement" (write_to_csv float_format_2 Inputs.complete)
    = Ok fr' /\
    raw fr' = map (option_map float_format_2) (raw Inputs.complete) /\
    error_smoothed fr' = [].
Proof.
  eexists. split.
  - apply (csv_round_trip float_format_2 "measurement" Inputs.complete).
    + discriminate.
    + cbn [Inputs.complete frequency map].
      rewrite !CsvFacts.float_format_2_integer.
      repeat constructor. lra.
    + intros ch Hin. cbn [In] in Hin.
      repeat (destruct Hin as [<- | Hin];
              [split; [reflexivity|];
               first [left; reflexivity | right; reflexivity]|]).
      destruct Hin.
  - split; reflexivity.
Defined.

End CsvRoundTrip.

(** ** Missing values and centring *)

Module InterpolateFacts.
Import Num Arr FR NumFacts ArrFacts.
Local Open Scope R_scope.

(** X17: on a measurement with one cell per frequency the loop at the
    head of [interpolate] always ends, and what it leaves are exactly
    the (frequency, value) pairs whose value is present, in their
    order. *)
Theorem drop_None_pairs (raw_ : array) (frequency_ : list R) :
  length raw_ = length frequency_ ->
  exists raw' frequency' : list R,
    drop_None raw_ frequency_ = Ok (raw', frequency') /\
    length raw' = length frequency' /\
    combine frequency' raw'
    = flat_map (fun p : R * option R =>
                  match snd p with
                  | Some v => [(fst p, v)]
                  | None => []
                  end)
        (combine frequency_ raw_).
Proof.
  revert frequency_. induction raw_ as [| c t IH]; intros [| f fs] H;
    try discriminate.
  - exists [], []. repeat split.
  - cbn [length] in H.
    destruct (IH fs ltac:(lia)) as (r & f' & Hr & Hl & Hc).
    destruct c as [x |].
    + exists (x :: r), (f :: f'). cbn [drop_None]. rewrite Hr. cbn.
      split; [reflexivity|]. split; [lia|]. rewrite Hc. reflexivity.
    + exists r, f'. cbn [drop_None]. rewrite Hr. cbn.
      split; [reflexivity|]. split; [exact Hl | exact Hc].
Qed.

Lemma drop_None_pairs_witness :
  exists raw' frequency' : list R,
    drop_None [Some 1; None; Some 3] [20; 100; 1000] = Ok (raw', frequency') /\
    length raw' = length frequency' /\
    combine frequency' raw'
    = flat_map (fun p : R * option R =>
                  match snd p with
                  | Some v => [(fst p, v)]
                  | None => []
                  end)
        (combine [20; 100; 1000] [Some 1; None; Some 3]).
Proof.
  apply (drop_None_pairs [Some 1; None; Some 3] [20; 100; 1000]).
  reflexivity.
Defined.

End InterpolateFacts.

Module CenterFacts.
Import Num Arr FR NumFacts ArrFacts.
Local Open Scope R_scope.

Lemma line_shift (x0 y0 x1 y1 x d : R) :
  Lib.line x0 (y0 - d) x1 (y1 - d) x = Lib.line x0 y0 x1 y1 x - d.
Proof. unfold Lib.line. ring. Qed.

Lemma linear_at_shift (d x : R) :
  forall xs ys : list R,
    length xs = length ys -> (2 <= length xs)%nat ->
    Lib.linear_at xs (map (fun v => v - d) ys) x = Lib.linear_at xs ys x - d.
Proof.
  induction xs as [| x0 xs IH]; intros ys Hl H2; [simpl in H2; lia|].
  destruct xs as [| x1 xs2]; [simpl in H2; lia|].
  destruct ys as [| y0 [| y1 ys2]]; try discriminate.
  cbn [map]. cbn [Lib.linear_at].
  destruct xs2 as [| x2 xs3].
  - apply line_shift.
  - destruct (Rltb x x1); [apply line_shift|].
    apply (IH (y1 :: ys2)); simpl in *; lia.
Qed.

(** The model of the linear spline commutes with a shift of the data. *)
Lemma lib_spline_shift (xs ys : list R) (d : R) (f : R -> R) :
  Lib.InterpolatedUnivariateSpline xs ys 1 = Ok f ->
  exists g : R -> R,
    Lib.InterpolatedUnivariateSpline xs (map (fun v => v - d) ys) 1 = Ok g /\
    forall x : R, g x = f x - d.
Proof.
  unfold Lib.InterpolatedUnivariateSpline. rewrite length_map.
  destruct (Nat.eqb (length xs) (length ys)) eqn:El; [|discriminate].
  cbn [negb]. destruct (Nat.leb (length xs) 1) eqn:E2; [discriminate|].
  intros H. injection H as <-. eexists. split; [reflexivity|].
  intros x. apply Nat.eqb_eq in El. apply Nat.leb_gt in E2.
  apply linear_at_shift; [exact El | lia].
Qed.

Section Spline.
Variable spline : list R -> list R -> nat -> result (R -> R).

(** X18: for a spline that commutes with a shift of the data (as every
    interpolating spline does), centring puts the level at 1 kHz to
    zero: after [center] the linear spline through the measurement
    vanishes at 1000 Hz, so a second [center] subtracts nothing. *)
Theorem center_zero_at_1kHz (fr fr' : FrequencyResponse) :
  (forall (xs ys : list R) (d : R) (f : R -> R),
     spline xs ys 1 = Ok f ->
     exists g : R -> R,
       spline xs (map (fun v => v - d) ys) 1 = Ok g /\
       forall x : R, g x = f x - d) ->
  center spline fr = Ok fr' ->
  exists (y' : list R) (g : R -> R),
    floats (raw fr') = Ok y' /\
    spline (map log10 (frequency fr')) y' 1 = Ok g /\
    g (log10 1000) = 0.
Proof.
  intros Hshift H. unfold center in H.
  apply bind_Ok_inv in H. destruct H as (y & Hy & H).
  apply bind_Ok_inv in H. destruct H as (f & Hf & H).
  apply bind_Ok_inv in H. destruct H as (raw' & Hr & H).
  apply bind_Ok_inv in H. destruct H as (fr2 & H2 & H).
  injection H as <-.
  unfold isub_scalar in Hr. rewrite Hy in Hr. cbn [bind] in Hr.
  injection Hr as <-.
  assert (E : frequency fr2 = frequency fr /\
              raw fr2 = of_floats (map (fun v => v - f (log10 1000)) y)).
  { destruct (nonempty _) in H2.
    - apply bind_Ok_inv in H2. destruct H2 as (sm & _ & H2).
      injection H2 as <-. split; reflexivity.
    - injection H2 as <-. split; reflexivity. }
  destruct E as [E1 E2]. cbn [frequency raw reset]. rewrite E1, E2.
  destruct (Hshift _ _ (f (log10 1000)) f Hf) as (g & Hg & Hgx).
  exists (map (fun v => v - f (log10 1000)) y), g.
  split; [apply floats_of_floats|]. split; [exact Hg|].
  rewrite Hgx. ring.
Qed.

End Spline.

Lemma center_zero_at_1kHz_witness :
  exists (fr' : FrequencyResponse) (y' : list R) (g : R -> R),
    center Lib.InterpolatedUnivariateSpline Examples.centered_input = Ok fr' /\
    floats (raw fr') = Ok y' /\
    Lib.InterpolatedUnivariateSpline (map log10 (frequency fr')) y' 1 = Ok g /\
    g (log10 1000) = 0.
Proof.
  assert (Hrun : exists fr',
             center Lib.InterpolatedUnivariateSpline Examples.centered_input
             = Ok fr').
  { unfold center, Examples.centered_input.
    cbn -[IZR log10 Lib.linear_at Rminus]. eexists; reflexivity. }
  destruct Hrun as [fr' Hrun].
  destruct (center_zero_at_1kHz Lib.InterpolatedUnivariateSpline
              Examples.centered_input fr' lib_spline_shift Hrun)
    as (y' & g & H1 & H2 & H3).
  exists fr', y', g. split; [exact Hrun|].
  split; [exact H1|]. split; [exact H2 | exact H3].
Defined.

End CenterFacts.

(** ** Target curve and compensation *)

Module CompensationFacts.
Import Num Arr FR NumFacts ArrFacts Compensation.
Local Open Scope R_scope.

Lemma tilt_center_pos : 0 < tilt_center.
Proof.
  unfold tilt_center, DEFAULT_F_MIN, DEFAULT_F_MAX.
  apply Rmult_lt_0_compat; [lra|].
  apply sqrt_lt_R0. lra.
Qed.

Lemma log2_double (x : R) : 0 < x -> log2 (2 * x) = 1 + log2 x.
Proof.
  intros Hx. unfold log2. rewrite ln_mult by lra.
  pose proof ln_2_pos. field. lra.
Qed.

(** X19: the tilt is zero at the centre of the logarithmic scale and
    grows by [tilt] dB with every octave: doubling the frequency adds
    [tilt]. *)
Theorem tilt_per_octave (tilt f : R) :
  0 < f ->
  tilt_at tilt tilt_center = 0 /\
  tilt_at tilt (2 * f) = tilt_at tilt f + tilt.
Proof.
  intros Hf. pose proof tilt_center_pos as Hc. unfold tilt_at. split.
  - replace (tilt_center / tilt_center) with 1 by (field; lra).
    unfold log2. rewrite ln_1. lra.
  - replace (2 * f / tilt_center) with (2 * (f / tilt_center)) by (field; lra).
    rewrite log2_double by (apply Rdiv_lt_0_compat; lra). ring.
Qed.

Lemma tilt_per_octave_witness :
  tilt_at 3 tilt_center = 0 /\
  tilt_at 3 (2 * 1000) = tilt_at 3 1000 + 3.
Proof.
  apply (tilt_per_octave 3 1000). lra.
Defined.

(** With the default arguments (no bass boost, no tilt) the target
    curve added to the compensation is zero at every frequency. *)
Lemma default_target_is_flat (fr : FrequencyResponse) :
  _target fr DEFAULT_BASS_BOOST DEFAULT_TILT
  = map (fun _ => 0) (frequency fr).
Proof.
  unfold _target, _sigmoid, _tilt, DEFAULT_BASS_BOOST, DEFAULT_TILT.
  induction (frequency fr) as [| f t IH]; [reflexivity|].
  cbn [map zip_with]. rewrite IH. f_equal.
  rewrite EqualizeFacts.sigmoid_at_const. unfold tilt_at. ring.
Qed.

Lemma sub_inv (a b c : array) :
  sub a b = Ok c -> has_None c = false.
Proof.
  unfold sub. intros H.
  apply bind_Ok_inv in H. destruct H as (x & _ & H).
  apply bind_Ok_inv in H. destruct H as (y & _ & H).
  apply bind_Ok_inv in H. destruct H as (r & _ & H).
  injection H as <-. apply has_None_of_floats.
Qed.

Lemma add_inv (a b c : array) :
  add a b = Ok c -> has_None c = false.
Proof.
  unfold add. intros H.
  apply bind_Ok_inv in H. destruct H as (x & _ & H).
  apply bind_Ok_inv in H. destruct H as (y & _ & H).
  apply bind_Ok_inv in H. destruct H as (r & _ & H).
  injection H as <-. apply has_None_of_floats.
Qed.

Section Library.
Variable spline : list R -> list R -> nat -> result (R -> R).
Variable savgol_filter : list R -> Z -> Z -> result (list R).

Lemma compensate_keeps (fr compensation fr' : FrequencyResponse)
    (bass_boost tilt : R) :
  compensate spline savgol_filter fr compensation bass_boost tilt = Ok fr' ->
  (name fr' = name fr /\ frequency fr' = frequency fr /\
   raw fr' = raw fr /\ smoothed fr' = smoothed fr) /\
  (has_None (target fr') = false /\
   sub (raw fr) (target fr') = Ok (error fr')) /\
  (error_smoothed fr' = [] /\ equalization fr' = [] /\
   parametric_eq fr' = [] /\ equalized_raw fr' = [] /\
   equalized_smoothed fr' = []).
Proof.
  unfold compensate. intros H.
  apply bind_Ok_inv in H. destruct H as (c0 & _ & H).
  apply bind_Ok_inv in H. destruct H as (c1 & _ & H).
  apply bind_Ok_inv in H. destruct H as (c2 & _ & H).
  apply bind_Ok_inv in H. destruct H as (target' & Ht & H).
  apply bind_Ok_inv in H. destruct H as (error' & He & H).
  injection H as <-. cbn in He |- *.
  split; [repeat split|]. split; [|repeat split].
  split; [exact (add_inv _ _ _ Ht) | exact He].
Qed.

(** X20: a successful [compensate] keeps the name, the frequencies,
    [raw] and [smoothed]; it sets [target] and [error] to arrays without
    missing values with [error = raw - target]; and it empties
    [error_smoothed], [equalization], [parametric_eq], [equalized_raw]
    and [equalized_smoothed]. *)
Theorem compensate_channels (fr compensation fr' : FrequencyResponse)
    (bass_boost tilt : R) :
  compensate spline savgol_filter fr compensation bass_boost tilt = Ok fr' ->
  (name fr' = name fr /\ frequency fr' = frequency fr /\
   raw fr' = raw fr /\ smoothed fr' = smoothed fr) /\
  (has_None (target fr') = false /\
   sub (raw fr) (target fr') = Ok (error fr')) /\
  (error_smoothed fr' = [] /\ equalization fr' = [] /\
   parametric_eq fr' = [] /\ equalized_raw fr' = [] /\
   equalized_smoothed fr' = []).
Proof. intros H. exact (compensate_keeps _ _ _ _ _ H). Qed.

End Library.

(** X20 on the grid with steps of 5 %: a flat compensation curve and a
    flat measurement. *)
Lemma compensate_channels_witness :
  exists fr' : FrequencyResponse,
    compensate Lib.InterpolatedUnivariateSpline Lib.savgol_fixed
      Examples.fine_raw Examples.fine_input 0 0 = Ok fr' /\
    raw fr' = raw Examples.fine_raw /\
    sub (raw Examples.fine_raw) (target fr') = Ok (error fr') /\
    equalization fr' = [].
Proof.
  assert (Hrun : exists fr',
             compensate Lib.InterpolatedUnivariateSpline Lib.savgol_fixed
               Examples.fine_raw Examples.fine_input 0 0 = Ok fr').
  { unfold compensate, __init__, _sort, argsort.
    cbn -[IZR Rleb smoothen center _target DEFAULT_TREBLE_SMOOTHING_WINDOW_SIZE
          DEFAULT_TREBLE_F_LOWER DEFAULT_TREBLE_F_UPPER].
    repeat (progress (rdecide;
      cbn -[IZR Rleb smoothen center _target
            DEFAULT_TREBLE_SMOOTHING_WINDOW_SIZE
            DEFAULT_TREBLE_F_LOWER DEFAULT_TREBLE_F_UPPER])).
    unfold smoothen.
    rewrite Rleb_false
      by (unfold DEFAULT_TREBLE_F_LOWER, DEFAULT_TREBLE_F_UPPER; lra).
    unfold _smoothen_data.
    cbn -[IZR Rdiv savgol_iterate _sigmoid broadcast center _target
          DEFAULT_TREBLE_SMOOTHING_WINDOW_SIZE
          DEFAULT_TREBLE_F_LOWER DEFAULT_TREBLE_F_UPPER].
    rewrite !PeakFacts.savgol_iterate_fine
      by (try reflexivity; unfold DEFAULT_TREBLE_SMOOTHING_WINDOW_SIZE; lra).
    cbn -[IZR Rdiv sigmoid_at log10 Lib.linear_at tilt_at
          DEFAULT_TREBLE_F_LOWER DEFAULT_TREBLE_F_UPPER
          BASS_BOOST_F_LOWER BASS_BOOST_F_UPPER].
    eexists; reflexivity. }
  destruct Hrun as [fr' Hrun]. exists fr'. split; [exact Hrun|].
  pose proof (compensate_channels Lib.InterpolatedUnivariateSpline
                Lib.savgol_fixed Examples.fine_raw Examples.fine_input fr'
                0 0 Hrun) as H.
  split; [apply H|]. split; [apply H | apply H].
Defined.

End CompensationFacts.

(** ** Filter initialisation: candidates, removal and merging *)

Module FilterFacts.
Import Num Arr FR NumFacts ArrFacts SortFacts.
Import Sorted.
Local Open Scope R_scope.

Lemma masked_length_le {A : Type} (mask : list bool) (a : list A) :
  (length (masked mask a) <= length a)%nat.
Proof.
  revert a. induction mask as [| b m IH]; intros [| x a]; simpl; try lia.
  specialize (IH a). destruct b; simpl; lia.
Qed.

Lemma masked_In {A : Type} (mask : list bool) (a : list A) (x : A) :
  In x (masked mask a) -> In x a.
Proof.
  revert a. induction mask as [| b m IH]; intros [| y a]; simpl; try tauto.
  destruct b; simpl; intros H; [destruct H as [-> | H]|]; auto.
Qed.

Lemma masked_pairs (keep : R -> bool) (fc g : list R) :
  length fc = length g ->
  combine (masked (map keep g) fc) (masked (map keep g) g)
  = filter (fun p => keep (snd p)) (combine fc g) /\
  length (masked (map keep g) fc) = length (masked (map keep g) g).
Proof.
  revert g. induction fc as [| f fc IH]; intros [| x g] H; simpl in *;
    try discriminate; [split; reflexivity|].
  destruct (IH g ltac:(lia)) as [IH1 IH2].
  destruct (keep x); simpl; [rewrite IH1, IH2 | rewrite IH1];
    split; try reflexivity; exact IH2.
Qed.

(** X21: [remove_small_filters] keeps exactly the filters whose gain
    exceeds [min_gain] in absolute value, each with its own centre
    frequency and in the same order. *)
Theorem remove_small_filters_keeps (min_gain : R) (peak_fc peak_g : list R) :
  length peak_fc = length peak_g ->
  let r := remove_small_filters min_gain (peak_fc, peak_g) in
  length (fst r) = length (snd r) /\
  combine (fst r) (snd r)
  = filter (fun p => Rltb min_gain (Rabs (snd p))) (combine peak_fc peak_g) /\
  Forall (fun g => min_gain < Rabs g) (snd r).
Proof.
  intros Hlen r. unfold r, remove_small_filters. cbn [fst snd].
  destruct (masked_pairs (fun g => Rltb min_gain (Rabs g)) peak_fc peak_g Hlen)
    as [H1 H2].
  split; [exact H2|]. split; [exact H1|].
  clear. induction peak_g as [| x g IH]; [constructor|].
  simpl. destruct (Rltb min_gain (Rabs x)) eqn:E; [|exact IH].
  constructor; [apply Rltb_lt; exact E | exact IH].
Qed.

Lemma remove_small_filters_keeps_witness :
  let r := remove_small_filters (1 / 10) ([20; 100; 1000], [2; 0; -3]) in
  length (fst r) = length (snd r) /\
  combine (fst r) (snd r)
  = filter (fun p => Rltb (1 / 10) (Rabs (snd p)))
      (combine [20; 100; 1000] [2; 0; -3]) /\
  Forall (fun g => 1 / 10 < Rabs g) (snd r).
Proof.
  apply (remove_small_filters_keeps (1 / 10) [20; 100; 1000] [2; 0; -3]).
  reflexivity.
Defined.

Lemma remove_small_filters_length (min_gain : R) (peaks : list R * list R) :
  (length (fst (remove_small_filters min_gain peaks)) <= length (fst peaks))%nat.
Proof. unfold remove_small_filters. cbn [fst]. apply masked_length_le. Qed.

Lemma remove_small_filters_aligned (min_gain : R) (peaks : list R * list R) :
  length (fst peaks) = length (snd peaks) ->
  length (fst (remove_small_filters min_gain peaks))
  = length (snd (remove_small_filters min_gain peaks)).
Proof.
  intros H. unfold remove_small_filters. cbn [fst snd].
  apply (masked_pairs (fun g => Rltb min_gain (Rabs g)) _ _ H).
Qed.

Lemma at_index_inv {A : Type} (a : list A) (i : nat) (x : A) :
  at_index a i = Ok x -> nth_error a i = Some x /\ (i < length a)%nat.
Proof.
  unfold at_index. destruct (nth_error a i) as [y |] eqn:E; [|discriminate].
  intros H. injection H as <-. split; [reflexivity|].
  apply nth_error_Some. congruence.
Qed.

Lemma replace_pair_length {A : Type} (a : list A) (i : nat) (x : A) :
  (i + 1 < length a)%nat -> S (length (replace_pair a i x)) = length a.
Proof.
  intros H. unfold replace_pair.
  rewrite length_app, length_firstn. cbn [length]. rewrite length_skipn. lia.
Qed.

Section Spline.
Variable spline : list R -> list R -> nat -> result (R -> R).

Lemma merge_filters_inv (frequency_ smoothed_ : list R)
    (peaks : list R * list R) (b : bool) (peaks' : list R * list R) :
  merge_filters spline frequency_ smoothed_ peaks = Ok (b, peaks') ->
  (b = false /\ peaks' = peaks) \/
  (b = true /\
   exists (i : nat) (c g : R),
     (i + 1 < length (fst peaks))%nat /\ (i + 1 < length (snd peaks))%nat /\
     peaks' = (replace_pair (fst peaks) i c, replace_pair (snd peaks) i g)).
Proof.
  unfold merge_filters. intros H.
  apply bind_Ok_inv in H. destruct H as (pair_inds & _ & H).
  apply bind_Ok_inv in H. destruct H as (best & _ & H).
  destruct best as [[min_err min_err_ind] |]; [|discriminate].
  destruct (nan_lt min_err (Some (3 / 10))).
  - right.
    apply bind_Ok_inv in H. destruct H as (fa & _ & H).
    apply bind_Ok_inv in H. destruct H as (fb & Hfb & H).
    apply bind_Ok_inv in H. destruct H as (k & _ & H).
    apply bind_Ok_inv in H. destruct H as (c' & _ & H).
    apply bind_Ok_inv in H. destruct H as (ga & _ & H).
    apply bind_Ok_inv in H. destruct H as (gb & Hgb & H).
    injection H as <- <-.
    apply at_index_inv in Hfb. apply at_index_inv in Hgb.
    split; [reflexivity|].
    exists min_err_ind, c', (mean [ga; gb]).
    split; [apply Hfb|]. split; [apply Hgb | reflexivity].
  - left. injection H as <- <-. split; reflexivity.
Qed.

(** A merge replaces one pair of neighbouring filters by a single
    filter: when [merge_filters] returns [True] both arrays are shorter
    by exactly one element, and when it returns [False] they are
    unchanged. *)
Lemma merge_filters_shortens (frequency_ smoothed_ : list R)
    (peaks : list R * list R) (b : bool) (peaks' : list R * list R) :
  merge_filters spline frequency_ smoothed_ peaks = Ok (b, peaks') ->
  if b
  then S (length (fst peaks')) = length (fst peaks) /\
       S (length (snd peaks')) = length (snd peaks)
  else peaks' = peaks.
Proof.
  intros H. apply merge_filters_inv in H.
  destruct H as [[-> ->] | [-> (i & c & g & Hi & Hj & ->)]]; [reflexivity|].
  cbn [fst snd]. split; apply replace_pair_length; assumption.
Qed.

(** Without two filters there is no pair: [min_err] stays [None] and the
    comparison [min_err < 0.3] raises. *)
Lemma merge_filters_no_pair (frequency_ smoothed_ : list R)
    (peaks : list R * list R) :
  (length (fst peaks) <= 1)%nat ->
  merge_filters spline frequency_ smoothed_ peaks = Raise TypeError.
Proof.
  intros H. unfold merge_filters.
  replace (length (fst peaks) - 1)%nat with 0%nat by lia.
  reflexivity.
Qed.

Lemma merge_while_fuel (frequency_ smoothed_ : list R) (max_filters : nat) :
  forall (fuel fuel' : nat) (peaks : list R * list R),
    (length (fst peaks) < fuel)%nat -> (length (fst peaks) < fuel')%nat ->
    merge_while spline fuel frequency_ smoothed_ max_filters peaks
    = merge_while spline fuel' frequency_ smoothed_ max_filters peaks.
Proof.
  induction fuel as [| fuel IH]; intros fuel' peaks H1 H2; [lia|].
  destruct fuel' as [| fuel']; [lia|].
  cbn [merge_while].
  destruct (merge_filters spline frequency_ smoothed_ peaks)
    as [[b peaks'] | e] eqn:E; [|reflexivity].
  cbn [bind fst snd].
  destruct (b && Nat.ltb max_filters (length (fst peaks'))) eqn:Ec;
    [|reflexivity].
  apply andb_true_iff in Ec. destruct Ec as [-> _].
  apply merge_filters_shortens in E. destruct E as [E _].
  apply IH; lia.
Qed.

(** X22: the loop [while merge_filters() and len(peak_fc) > max_filters]
    ends: it runs at most once per filter, so any bound on the number
    of iterations above the number of filters gives the same result as
    the bound used by [reduce_filters]. *)
Theorem merge_while_terminates (frequency_ smoothed_ : list R)
    (max_filters : nat) (peaks : list R * list R) (extra : nat) :
  merge_while spline (S (length (fst peaks)) + extra) frequency_ smoothed_
    max_filters peaks
  = merge_while spline (S (length (fst peaks))) frequency_ smoothed_
      max_filters peaks.
Proof. apply merge_while_fuel; lia. Qed.

Lemma merge_while_aligned (frequency_ smoothed_ : list R) (max_filters : nat) :
  forall (fuel : nat) (peaks p : list R * list R),
    length (fst peaks) = length (snd peaks) ->
    merge_while spline fuel frequency_ smoothed_ max_filters peaks = Ok p ->
    length (fst p) = length (snd p).
Proof.
  induction fuel as [| fuel IH]; intros peaks p Hal H.
  - injection H as <-. exact Hal.
  - cbn [merge_while] in H.
    apply bind_Ok_inv in H. destruct H as ([b peaks'] & Hm & H).
    cbn [fst snd] in H.
    assert (Hal' : length (fst peaks') = length (snd peaks')).
    { apply merge_filters_shortens in Hm. destruct b.
      - destruct Hm as [Ha Hb]. lia.
      - subst peaks'. exact Hal. }
    destruct (b && Nat.ltb max_filters (length (fst peaks'))).
    + apply (IH peaks' p Hal' H).
    + injection H as <-. exact Hal'.
Qed.

(** X23: with a limit [max_filters = n], a successful [reduce_filters]
    returns at most [n] filters, and as many gains as centre
    frequencies. *)
Theorem reduce_filters_bound (frequency_ smoothed_ : list R) (n : nat)
    (peaks p : list R * list R) :
  length (fst peaks) = length (snd peaks) ->
  reduce_filters spline frequency_ smoothed_ (Some n) peaks = Ok p ->
  (length (fst p) <= n)%nat /\ length (fst p) = length (snd p).
Proof.
  intros Hal H. unfold reduce_filters in H.
  set (p1 := remove_small_filters (1 / 10) peaks) in *.
  assert (A1 : length (fst p1) = length (snd p1))
    by (apply remove_small_filters_aligned; exact Hal).
  set (p2 := if Nat.ltb n (length (fst p1))
             then remove_small_filters (2 / 10) p1 else p1) in *.
  assert (A2 : length (fst p2) = length (snd p2)).
  { unfold p2. destruct (Nat.ltb n (length (fst p1)));
      [apply remove_small_filters_aligned|]; exact A1. }
  set (p3 := if Nat.ltb n (length (fst p2))
             then remove_small_filters (33 / 100) p2 else p2) in *.
  assert (A3 : length (fst p3) = length (snd p3)).
  { unfold p3. destruct (Nat.ltb n (length (fst p2)));
      [apply remove_small_filters_aligned|]; exact A2. }
  apply bind_Ok_inv in H. destruct H as (p4 & H4 & H).
  pose proof (merge_while_aligned _ _ _ _ _ _ A3 H4) as A4.
  destruct (Nat.ltb n (length (fst p4))) eqn:E.
  - apply bind_Ok_inv in H. destruct H as (fc & Hfc & H).
    apply bind_Ok_inv in H. destruct H as (g & Hg & H).
    injection H as <-. cbn [fst snd].
    apply take_length in Hfc. apply take_length in Hg.
    rewrite Hfc, Hg. split; [|reflexivity].
    rewrite length_firstn. lia.
  - injection H as <-. apply Nat.ltb_ge in E. split; [exact E | exact A4].
Qed.

(** X24: the loop condition calls [merge_filters] before it looks at the
    number of filters: with a limit set and fewer than two candidates
    there is no pair, [min_err] stays [None], and [reduce_filters] ends
    in the [TypeError] of [min_err < 0.3], even though nothing had to be
    reduced. *)
Theorem reduce_filters_single_peak (frequency_ smoothed_ : list R) (n : nat)
    (peaks : list R * list R) :
  (length (fst peaks) <= 1)%nat ->
  reduce_filters spline frequency_ smoothed_ (Some n) peaks = Raise TypeError.
Proof.
  intros H. unfold reduce_filters.
  set (p1 := remove_small_filters (1 / 10) peaks).
  assert (L1 : (length (fst p1) <= 1)%nat).
  { unfold p1. pose proof (remove_small_filters_length (1 / 10) peaks). lia. }
  set (p2 := if Nat.ltb n (length (fst p1))
             then remove_small_filters (2 / 10) p1 else p1).
  assert (L2 : (length (fst p2) <= 1)%nat).
  { unfold p2. destruct (Nat.ltb n (length (fst p1))); [|exact L1].
    pose proof (remove_small_filters_length (2 / 10) p1). lia. }
  set (p3 := if Nat.ltb n (length (fst p2))
             then remove_small_filters (33 / 100) p2 else p2).
  assert (L3 : (length (fst p3) <= 1)%nat).
  { unfold p3. destruct (Nat.ltb n (length (fst p2))); [|exact L2].
    pose proof (remove_small_filters_length (33 / 100) p2). lia. }
  cbn [merge_while]. rewrite (merge_filters_no_pair _ _ _ L3). reflexivity.
Qed.

End Spline.

(** Two filters of +1 dB at 10 Hz and 1000 Hz on a target that is flat
    between them: the line fits exactly and the pair becomes one filter
    at 100 Hz. *)
Lemma merge_filters_flat_pair :
  merge_filters Lib.InterpolatedUnivariateSpline Examples.decades
    Inputs.flat_top ([10; 1000], [1; 1])
  = Ok (true, ([100], [1])).
Proof.
  unfold merge_filters, Examples.decades, Inputs.flat_top. MergeFacts.evm.
  unfold sign. rdecide. MergeFacts.evm.
  unfold pair_error. MergeFacts.evm. rdecide. MergeFacts.evm.
  rewrite !MergeFacts.line_flat.
  match goal with
  | |- context [sqrt ?m] =>
      assert (H : sqrt m < 3 / 10)
        by (apply MergeFacts.sqrt_upper; [lra | unfold mean, sum; cbn; lra])
  end.
  rewrite Rltb_true by exact H. MergeFacts.evm.
  replace (1000 / 10) with (10 * 10) by lra.
  rewrite sqrt_square by lra.
  MergeFacts.rabs. rdecide. MergeFacts.evm.
  do 4 f_equal. unfold mean, sum. cbn. lra.
Qed.

Lemma reduce_filters_flat_pair :
  reduce_filters Lib.InterpolatedUnivariateSpline Examples.decades
    Inputs.flat_top (Some 1%nat) ([10; 1000], [1; 1])
  = Ok ([100], [1]).
Proof.
  unfold reduce_filters, remove_small_filters.
  cbn -[IZR Rltb Rabs Rdiv merge_while].
  MergeFacts.rabs. rdecide.
  cbn -[IZR Rltb Rabs Rdiv merge_while].
  MergeFacts.rabs. rdecide.
  cbn -[IZR Rltb Rabs Rdiv merge_while].
  MergeFacts.rabs. rdecide.
  cbn -[IZR Rltb Rabs Rdiv merge_filters].
  rewrite merge_filters_flat_pair. reflexivity.
Qed.

Lemma reduce_filters_bound_witness :
  (length (fst ([100], [1])) <= 1)%nat /\
  length (fst ([100], [1])) = length (snd ([100], [1])).
Proof.
  apply (reduce_filters_bound Lib.InterpolatedUnivariateSpline
           Examples.decades Inputs.flat_top 1 ([10; 1000], [1; 1])
           ([100], [1])).
  - reflexivity.
  - exact reduce_filters_flat_pair.
Defined.

Lemma reduce_filters_single_peak_witness :
  reduce_filters Lib.InterpolatedUnivariateSpline Examples.decades
    Inputs.flat_top (Some 5%nat) ([100], [1])
  = Raise TypeError.
Proof.
  apply (reduce_filters_single_peak Lib.InterpolatedUnivariateSpline
           Examples.decades Inputs.flat_top 5 ([100], [1])).
  simpl. lia.
Defined.

End FilterFacts.

(** ** Filter initialisation: the peak candidates *)

Module CandidateFacts.
Import Num Arr FR NumFacts ArrFacts SortFacts FilterFacts.
Import Sorted.
Local Open Scope R_scope.

Lemma insert_nat_sorted (x : nat) (l : list nat) :
  StronglySorted le l -> StronglySorted le (insert_nat x l).
Proof.
  induction 1 as [| y t Ht IH Hall]; [repeat constructor|].
  cbn [insert_nat]. destruct (Nat.leb x y) eqn:E.
  - apply Nat.leb_le in E. constructor.
    + constructor; assumption.
    + constructor; [exact E|].
      eapply Forall_impl; [|exact Hall]. intros a Ha. cbn beta in Ha. lia.
  - apply Nat.leb_gt in E. constructor; [exact IH|].
    apply Forall_forall. intros a Ha.
    apply PeakFacts.insert_nat_In in Ha. destruct Ha as [-> | Ha]; [lia|].
    rewrite Forall_forall in Hall. apply Hall. exact Ha.
Qed.

Lemma sort_nat_sorted (l : list nat) : StronglySorted le (sort_nat l).
Proof.
  induction l as [| x t IH]; [constructor|].
  cbn [sort_nat fold_right]. apply insert_nat_sorted. exact IH.
Qed.

Lemma masked_sorted (mask : list bool) (l : list nat) :
  StronglySorted le l -> StronglySorted le (masked mask l).
Proof.
  intros H. revert mask.
  induction H as [| y t Ht IH Hall]; intros [| b m]; cbn [masked];
    try constructor.
  destruct b; [|apply IH].
  constructor; [apply IH|].
  apply Forall_forall. intros a Ha. apply masked_In in Ha.
  rewrite Forall_forall in Hall. apply Hall. exact Ha.
Qed.

Lemma masked_take (keep : R -> bool) (a : list R) :
  forall (inds : list nat) (vals : list R) (i : nat),
    take a inds = Ok vals ->
    In i (masked (map keep vals) inds) ->
    In i inds /\ exists v, nth_error a i = Some v /\ keep v = true.
Proof.
  induction inds as [| j rest IH]; intros vals i Ht Hin.
  - injection Ht as <-. destruct Hin.
  - cbn [take] in Ht. destruct (nth_error a j) as [x |] eqn:E; [|discriminate].
    apply bind_Ok_inv in Ht. destruct Ht as (l & Hl & Ht).
    injection Ht as <-. cbn [map masked] in Hin.
    destruct (keep x) eqn:Ek.
    + destruct Hin as [<- | Hin].
      * split; [left; reflexivity|]. exists x. split; assumption.
      * destruct (IH l i Hl Hin) as [H1 H2]. split; [right; exact H1 | exact H2].
    + destruct (IH l i Hl Hin) as [H1 H2]. split; [right; exact H1 | exact H2].
Qed.

Section Library.
Variable spline : list R -> list R -> nat -> result (R -> R).
Variable find_peaks : list R -> list nat.

(** X25: the peak indices are in ascending order, each is a local
    maximum of the positive or of the negative part of the smoothed
    target, and the target exceeds 0.1 dB in absolute value there. *)
Theorem peak_indices_above_threshold (smoothed_ : list R) (l : list nat) :
  peak_indices find_peaks smoothed_ = Ok l ->
  StronglySorted le l /\
  forall i : nat,
    In i l ->
    In i (find_peaks (map (fun x => Rmax x 0) smoothed_)
          ++ find_peaks (map (fun x => Rmax (- x) 0) smoothed_)) /\
    exists v : R, nth_error smoothed_ i = Some v /\ 1 / 10 < Rabs v.
Proof.
  unfold peak_indices. intros H.
  apply bind_Ok_inv in H. destruct H as (vals & Hv & H).
  injection H as <-. split.
  - apply masked_sorted. apply sort_nat_sorted.
  - intros i Hi.
    destruct (masked_take (fun v => Rltb (1 / 10) (Rabs v)) _ _ _ _ Hv Hi)
      as (Hin & v & Hn & Hk).
    split; [apply PeakFacts.sort_nat_In; exact Hin|].
    exists v. split; [exact Hn | apply Rltb_lt; exact Hk].
Qed.


End Library.

Ltac rmax :=
  repeat match goal with
         | |- context [Rmax ?a ?b] =>
             first [ rewrite (Rmax_left a b) by lra
                   | rewrite (Rmax_right a b) by lra ]
         end.

Lemma peak_indices_two_peaks :
  peak_indices Lib.find_peaks Examples.two_peaks = Ok [1; 3]%nat.
Proof.
  unfold peak_indices, Examples.two_peaks, Lib.find_peaks.
  cbn -[IZR Rltb Rmax Rabs Rdiv Nat.div]. rmax.
  repeat (progress (rdecide; cbn -[IZR Rltb Rmax Rabs Rdiv])).
  MergeFacts.rabs. rdecide. reflexivity.
Qed.

Lemma peak_indices_above_threshold_witness :
  StronglySorted le [1; 3]%nat /\
  forall i : nat,
    In i [1; 3]%nat ->
    In i (Lib.find_peaks (map (fun x => Rmax x 0) Examples.two_peaks)
          ++ Lib.find_peaks (map (fun x => Rmax (- x) 0) Examples.two_peaks)) /\
    exists v : R, nth_error Examples.two_peaks i = Some v /\ 1 / 10 < Rabs v.
Proof.
  apply (peak_indices_above_threshold Lib.find_peaks Examples.two_peaks
           [1; 3]%nat).
  exact peak_indices_two_peaks.
Defined.


End CandidateFacts.

(** ** The optimisation loop: what it returns *)

Module OptimizerResult.
Import Optimizer OptimizerFacts.
Local Open Scope Q_scope.

Ltac parts := split; [|split; [split|split; [|split]]].

Section Loop.
Variables session params : Type.
Variable run_train : Q -> session -> Q * session.
Variable fetch : session -> params.

Lemma decay_step (lr : Q) : 0 < lr -> 0 < lr * decay /\ lr * decay <= lr.
Proof.
  intros H. unfold decay. split.
  - apply Qmult_lt_0_compat; [exact H | reflexivity].
  - assert (E : lr * (9995 # 10000) == lr - lr * (5 # 10000)) by ring.
    rewrite E.
    assert (H0 : 0 < lr * (5 # 10000))
      by (apply Qmult_lt_0_compat; [exact H | reflexivity]).
    Lqa.lra.
Qed.

(** One run of the loop from a state whose counter is within the limit
    and whose learning rate is positive. *)
Lemma loop_invariant (target_loss : Q) :
  forall (steps : nat) (sess : session) (st : loop_state params),
    (bad_steps params st <= momentum)%nat ->
    0 < learning_rate_value params st ->
    (min_loss params st <> None -> saved params st <> None) ->
    let st' :=
      optimization_loop session params run_train fetch steps target_loss
        sess st in
    (bad_steps params st' <= S momentum)%nat /\
    (0 < learning_rate_value params st' /\
     learning_rate_value params st' <= learning_rate_value params st) /\
    (min_loss params st' <> None -> saved params st' <> None) /\
    ((0 < steps)%nat -> min_loss params st' <> None) /\
    (forall m, min_loss params st = Some m ->
               exists m', min_loss params st' = Some m' /\ m' <= m).
Proof.
  induction steps as [| steps IH]; intros sess st Hb Hlr Hs st'.
  - unfold st'. cbn. parts.
    + lia.
    + exact Hlr.
    + Lqa.lra.
    + exact Hs.
    + lia.
    + intros m Hm. exists m. split; [exact Hm | Lqa.lra].
  - unfold st'. clear st'. cbn [optimization_loop].
    destruct (run_train (learning_rate_value params st) sess)
      as [step_loss sess'].
    destruct (decay_step _ Hlr) as [Hd0 Hd1].
    set (saved' := if match min_loss params st with
                      | None => true
                      | Some m => Qltb step_loss m
                      end
                   then Some (fetch sess') else saved params st).
    assert (Hsaved : saved' <> None).
    { unfold saved'. destruct (min_loss params st) as [m |] eqn:Em.
      - destruct (Qltb step_loss m); [discriminate|].
        apply Hs. discriminate.
      - discriminate. }
    destruct (match min_loss params st with
              | None => true
              | Some m => Qltb threshold (m - step_loss)
              end) eqn:Eimp.
    + assert (Hmono : forall m, min_loss params st = Some m -> step_loss <= m).
      { intros m Hm. rewrite Hm in Eimp.
        apply GridFacts.Qltb_lt in Eimp. unfold threshold in Eimp. Lqa.lra. }
      destruct (Qltb step_loss target_loss).
      * cbn. parts.
        -- lia.
        -- exact Hlr.
        -- Lqa.lra.
        -- intros _. exact Hsaved.
        -- intros _. discriminate.
        -- intros m Hm. exists step_loss.
           split; [reflexivity | exact (Hmono m Hm)].
      * match goal with
        | |- context [optimization_loop _ _ _ _ _ _ ?s ?t] =>
            destruct (IH s t) as (I1 & [I2 I3] & I4 & I5 & I6)
        end.
        -- cbn. lia.
        -- cbn. exact Hd0.
        -- cbn. intros _. exact Hsaved.
        -- cbn in I3.
           destruct (I6 step_loss eq_refl) as (m' & Hm' & Hle).
           parts.
           ++ exact I1.
           ++ exact I2.
           ++ Lqa.lra.
           ++ exact I4.
           ++ intros _. congruence.
           ++ intros m Hm. exists m'. split; [exact Hm'|].
              pose proof (Hmono m Hm). Lqa.lra.
    + destruct (min_loss params st) as [m |] eqn:Em; [|discriminate].
      destruct (Nat.ltb momentum (S (bad_steps params st))) eqn:Elim.
      * cbn. parts.
        -- lia.
        -- exact Hlr.
        -- Lqa.lra.
        -- intros _. exact Hsaved.
        -- intros _. congruence.
        -- intros m0 Hm0. exists m. split; [reflexivity|].
           injection Hm0 as <-. Lqa.lra.
      * apply Nat.ltb_ge in Elim.
        match goal with
        | |- context [optimization_loop _ _ _ _ _ _ ?s ?t] =>
            destruct (IH s t) as (I1 & [I2 I3] & I4 & I5 & I6)
        end.
        -- cbn. lia.
        -- cbn. exact Hd0.
        -- cbn. intros _. exact Hsaved.
        -- cbn in I3, I6.
           destruct (I6 m eq_refl) as (m' & Hm' & Hle).
           parts.
           ++ exact I1.
           ++ exact I2.
           ++ Lqa.lra.
           ++ exact I4.
           ++ intros _. congruence.
           ++ intros m0 Hm0. injection Hm0 as <-. exists m'.
              split; [exact Hm' | exact Hle].
Qed.

Lemma loop_result (target_loss : Q) (steps : nat) (sess : session) :
  (0 < steps)%nat ->
  let st :=
    optimization_loop session params run_train fetch steps target_loss
      sess (initial_state params) in
  (exists (m : Q) (p : params),
     min_loss params st = Some m /\ saved params st = Some p) /\
  (bad_steps params st <= 301)%nat /\
  0 < learning_rate_value params st /\
  learning_rate_value params st <= 1 # 2.
Proof.
  intros Hsteps. cbv zeta.
  destruct (loop_invariant target_loss steps sess (initial_state params))
    as (I1 & [I2 I3] & I4 & I5 & _).
  - cbn. lia.
  - reflexivity.
  - intros H. exfalso. apply H. reflexivity.
  - specialize (I5 Hsteps). specialize (I4 I5).
    set (st := optimization_loop session params run_train fetch steps
                 target_loss sess (initial_state params)) in *.
    destruct (min_loss params st) as [m |]; [|congruence].
    destruct (saved params st) as [p |]; [|congruence].
    split; [exists m, p; split; reflexivity|].
    split; [exact I1|]. split; [exact I2 | exact I3].
Qed.

End Loop.

(** X27: whatever the session does, the loop of 10000 steps ends with a
    [min_loss] and with saved parameters (so [np.sqrt(min_loss)] and the
    returned filters are defined), with at most 301 bad steps counted,
    and with a learning rate that is positive and not above its start
    value 0.5. *)
Theorem optimize_result (session params : Type)
    (run_train : Q -> session -> Q * session) (fetch : session -> params)
    (target_loss : Q) (sess : session) :
  let st := optimize session params run_train fetch target_loss sess in
  (exists (m : Q) (p : params),
     min_loss params st = Some m /\ saved params st = Some p) /\
  (bad_steps params st <= 301)%nat /\
  0 < learning_rate_value params st /\
  learning_rate_value params st <= 1 # 2.
Proof.
  unfold optimize. apply loop_result. apply Nat.lt_0_succ.
Qed.

End OptimizerResult.

(** ** The preamps of the README *)

Module ReadmeFacts.
Import Num Arr FR NumFacts ArrFacts Readme.
Local Open Scope R_scope.

Lemma floor_bounds (x : R) : IZR (floor x) <= x < IZR (floor x) + 1.
Proof.
  unfold floor. rewrite minus_IZR. destruct (archimed x) as [H1 H2]. lra.
Qed.

Lemma fold_max_ge (l : list R) :
  forall x : R,
    x <= fold_left Rmax l x /\
    Forall (fun e => e <= fold_left Rmax l x) l /\
    (fold_left Rmax l x = x \/ In (fold_left Rmax l x) l).
Proof.
  induction l as [| y t IH]; intros x; cbn [fold_left].
  - split; [lra|]. split; [constructor | left; reflexivity].
  - destruct (IH (Rmax x y)) as (H1 & H2 & H3).
    pose proof (Rmax_l x y). pose proof (Rmax_r x y).
    split; [lra|]. split.
    + constructor; [lra | exact H2].
    + destruct H3 as [H3 | H3]; [|right; right; exact H3].
      rewrite H3. unfold Rmax. destruct (Rle_dec x y);
        [right; left; reflexivity | left; reflexivity].
Qed.

(** [np.max] returns an element of the array that no element exceeds. *)
Lemma np_max_spec (l : list R) (m : R) :
  np_max l = Ok m -> In m l /\ Forall (fun e => e <= m) l.
Proof.
  destruct l as [| x t]; [discriminate|]. cbn [np_max].
  intros H. injection H as <-.
  destruct (fold_max_ge t x) as (H1 & H2 & H3). split.
  - destruct H3 as [-> | H3]; [left; reflexivity | right; exact H3].
  - constructor; assumption.
Qed.

Lemma In_floats (a : array) (l : list R) (e : R) :
  floats a = Ok l -> (In e l <-> In (Some e) a).
Proof.
  intros H. apply floats_inv in H. subst a. unfold of_floats.
  rewrite in_map_iff. split.
  - intros Hin. exists e. split; [reflexivity | exact Hin].
  - intros (x & Hx & Hin). injection Hx as <-. exact Hin.
Qed.

Lemma graphic_eq_preamp_bounds (fr : FrequencyResponse) (preamp : R) :
  graphic_eq_preamp fr = Ok preamp ->
  preamp <= - (5 / 10) /\
  (forall e : R, In (Some e) (equalization fr) -> e + preamp <= - (5 / 10)) /\
  (exists n : Z, preamp = IZR n / 10 - 5 / 10) /\
  (- (6 / 10) < preamp \/
   exists e : R, In (Some e) (equalization fr) /\ - (6 / 10) < e + preamp).
Proof.
  unfold graphic_eq_preamp. intros H.
  apply bind_Ok_inv in H. destruct H as (l & Hl & H).
  apply bind_Ok_inv in H. destruct H as (m & Hm & H).
  injection H as <-.
  apply np_max_spec in Hm. destruct Hm as [Hin Hall].
  set (p0 := Rmin 0 (- m)).
  pose proof (floor_bounds (p0 * 10)) as [Hf1 Hf2].
  pose proof (Rmin_l 0 (- m)) as Hp0. pose proof (Rmin_r 0 (- m)) as Hp1.
  fold p0 in Hp0, Hp1.
  split; [lra|]. split; [|split].
  - intros e He. apply (In_floats _ _ e Hl) in He.
    rewrite Forall_forall in Hall. specialize (Hall e He). lra.
  - exists (floor (p0 * 10)). reflexivity.
  - unfold p0 in *. unfold Rmin in *. destruct (Rle_dec 0 (- m)).
    + left. lra.
    + right. exists m. split; [apply (In_floats _ _ m Hl); exact Hin | lra].
Qed.

Lemma parametric_eq_preamp_bounds (fr : FrequencyResponse) (preamp : R) :
  parametric_eq_preamp fr = Ok preamp ->
  preamp <= - (5 / 10) /\
  (forall e : R, In (Some e) (parametric_eq fr) -> e + preamp <= - (5 / 10)) /\
  (exists n : Z, preamp = IZR n / 2) /\
  (- 1 < preamp \/
   exists e : R, In (Some e) (parametric_eq fr) /\ - 1 < e + preamp).
Proof.
  unfold parametric_eq_preamp. intros H.
  apply bind_Ok_inv in H. destruct H as (l & Hl & H).
  apply bind_Ok_inv in H. destruct H as (m & Hm & H).
  injection H as <-.
  apply np_max_spec in Hm. destruct Hm as [Hin Hall].
  set (p0 := Rmin 0 (- m)).
  pose proof (floor_bounds ((p0 - 5 / 10) * 2)) as [Hf1 Hf2].
  pose proof (Rmin_l 0 (- m)) as Hp0. pose proof (Rmin_r 0 (- m)) as Hp1.
  fold p0 in Hp0, Hp1.
  split; [lra|]. split; [|split].
  - intros e He. apply (In_floats _ _ e Hl) in He.
    rewrite Forall_forall in Hall. specialize (Hall e He). lra.
  - exists (floor ((p0 - 5 / 10) * 2)). reflexivity.
  - unfold p0 in *. unfold Rmin in *. destruct (Rle_dec 0 (- m)).
    + left. lra.
    + right. exists m. split; [apply (In_floats _ _ m Hl); exact Hin | lra].
Qed.

(** X28: the preamps written into the README leave headroom (in exact
    arithmetic).  Each is at most -0.5 dB and brings every value of its
    curve to -0.5 dB or below.  The preamp of the graphic equalizer is a
    whole number of tenths of a dB minus 0.5 dB and lowers the largest
    value of the curve (or zero, when no value is positive) to more
    than -0.6 dB; the preamp of the parametric equalizer is a whole
    number of half dB and lowers it to more than -1 dB. *)
Theorem preamp_headroom (fr : FrequencyResponse) :
  (forall preamp : R,
     graphic_eq_preamp fr = Ok preamp ->
     preamp <= - (5 / 10) /\
     (forall e : R,
        In (Some e) (equalization fr) -> e + preamp <= - (5 / 10)) /\
     (exists n : Z, preamp = IZR n / 10 - 5 / 10) /\
     (- (6 / 10) < preamp \/
      exists e : R,
        In (Some e) (equalization fr) /\ - (6 / 10) < e + preamp)) /\
  (forall preamp : R,
     parametric_eq_preamp fr = Ok preamp ->
     preamp <= - (5 / 10) /\
     (forall e : R,
        In (Some e) (parametric_eq fr) -> e + preamp <= - (5 / 10)) /\
     (exists n : Z, preamp = IZR n / 2) /\
     (- 1 < preamp \/
      exists e : R, In (Some e) (parametric_eq fr) /\ - 1 < e + preamp)).
Proof.
  split; intros preamp H;
    [exact (graphic_eq_preamp_bounds fr preamp H)
    | exact (parametric_eq_preamp_bounds fr preamp H)].
Qed.

Lemma preamp_headroom_witness :
  exists preamp preamp' : R,
    graphic_eq_preamp Inputs.equalized = Ok preamp /\
    parametric_eq_preamp Inputs.equalized = Ok preamp' /\
    3 + preamp <= - (5 / 10) /\ 2 + preamp' <= - (5 / 10).
Proof.
  eexists. eexists.
  split; [reflexivity|]. split; [reflexivity|].
  destruct (preamp_headroom Inputs.equalized) as [Hg Hp].
  destruct (Hg _ eq_refl) as (_ & Hg2 & _).
  destruct (Hp _ eq_refl) as (_ & Hp2 & _).
  split; [apply Hg2; left; reflexivity | apply Hp2; left; reflexivity].
Defined.

End ReadmeFacts.

(** ** [main]: the pipeline as a whole *)

Module MainFacts.
Import Num Arr FR NumFacts ArrFacts Compensation Main.
Local Open Scope R_scope.

Lemma isub_inv (a b c : array) :
  isub a b = Ok c -> length c = length a /\ has_None c = false.
Proof.
  unfold isub. intros H.
  apply bind_Ok_inv in H. destruct H as (x & Hx & H).
  apply bind_Ok_inv in H. destruct H as (y & _ & H).
  apply bind_Ok_inv in H. destruct H as (r & Hr & H).
  injection H as <-. split; [|apply has_None_of_floats].
  rewrite length_of_floats. apply ResetFacts.floats_length in Hx.
  unfold broadcast_inplace in Hr.
  destruct (Nat.eqb (length x) (length y)) eqn:E.
  - injection Hr as <-. apply Nat.eqb_eq in E.
    rewrite length_zip_with by exact E. exact Hx.
  - destruct y as [| y0 [| y1 y]]; try discriminate.
    injection Hr as <-. rewrite length_map. exact Hx.
Qed.

Section Library.
Variable spline : list R -> list R -> nat -> result (R -> R).
Variable savgol_filter : list R -> Z -> Z -> result (list R).
Variable find_peaks : list R -> list nat.
Variable fit_biquads :
  list R -> list R -> list R -> list R -> R -> list R * R * list (R * R * R).

Lemma interpolate_grid (fuel : nat) (fr fr1 : FrequencyResponse)
    (f_step : Q) (pol_order : nat) (f_min f_max : Q) :
  interpolate spline fuel fr None f_step pol_order f_min f_max
  = Some (Ok fr1) ->
  exists G : list Z,
    Grid.generate_frequencies fuel f_min f_max f_step = Some G /\
    frequency fr1 = map IZR G /\
    length (raw fr1) = length G /\
    has_None (raw fr1) = false.
Proof.
  unfold interpolate. intros H.
  destruct (drop_None (raw fr) (frequency fr)) as [[raw' frequency'] | e];
    [|discriminate].
  destruct (spline _ _ _) as [interpolator | e]; [|discriminate].
  destruct (Grid.generate_frequencies fuel f_min f_max f_step)
    as [G |]; [|discriminate].
  exists G. cbn [option_map] in H. injection H as <-.
  cbn [frequency raw reset set_raw set_frequency].
  split; [reflexivity|]. split; [reflexivity|].
  split; [|apply has_None_of_floats].
  rewrite length_of_floats, !length_map. reflexivity.
Qed.

(** [interpolate()] puts the measurement on the default grid. *)
Lemma interpolate_default_grid (fuel : nat) (fr fr1 : FrequencyResponse) :
  interpolate_default spline fuel fr = Some (Ok fr1) ->
  frequency fr1 = map IZR Grid.default_frequencies /\
  length (raw fr1) = length (frequency fr1) /\
  has_None (raw fr1) = false.
Proof.
  unfold interpolate_default. intros H.
  apply interpolate_grid in H. destruct H as (G & EG & HF & HL & HN).
  assert (HG : G = Grid.default_frequencies).
  { pose proof (GridFacts.generate_frequencies_fuel_mono fuel (695 + fuel)
                  20 20000 (101 # 100) G EG ltac:(lia)) as H1.
    pose proof (GridFacts.generate_frequencies_default fuel) as H2.
    unfold Grid.DEFAULT_F_MIN, Grid.DEFAULT_F_MAX, Grid.DEFAULT_STEP in H2.
    congruence. }
  rewrite HF, HL, length_map, HG.
  split; [reflexivity|]. split; [reflexivity | exact HN].
Qed.

Lemma calibrate_inv (fr c fr' : FrequencyResponse) :
  calibrate fr c = Ok fr' ->
  frequency fr' = frequency fr /\ length (raw fr') = length (raw fr) /\
  has_None (raw fr') = false.
Proof.
  unfold calibrate. intros H.
  apply bind_Ok_inv in H. destruct H as (raw' & Hr & H).
  injection H as <-. cbn. apply isub_inv in Hr.
  split; [reflexivity | exact Hr].
Qed.

Lemma center_inv (fr fr' : FrequencyResponse) :
  center spline fr = Ok fr' ->
  frequency fr' = frequency fr /\ length (raw fr') = length (raw fr) /\
  has_None (raw fr') = false.
Proof.
  unfold center. intros H.
  apply bind_Ok_inv in H. destruct H as (y & Hy & H).
  apply bind_Ok_inv in H. destruct H as (interpolator & _ & H).
  apply bind_Ok_inv in H. destruct H as (raw' & Hr & H).
  apply bind_Ok_inv in H. destruct H as (fr2 & H2 & H).
  injection H as <-.
  unfold isub_scalar in Hr. rewrite Hy in Hr. cbn in Hr. injection Hr as <-.
  assert (E : frequency fr2 = frequency fr /\
              raw fr2 = of_floats (map (fun v => v - interpolator (log10 1000)) y)).
  { destruct (nonempty _) in H2.
    - apply bind_Ok_inv in H2. destruct H2 as (sm & _ & H2).
      injection H2 as <-. split; reflexivity.
    - injection H2 as <-. split; reflexivity. }
  destruct E as [E1 E2]. cbn. rewrite E1, E2.
  split; [reflexivity|]. split; [|apply has_None_of_floats].
  rewrite length_of_floats, length_map.
  apply ResetFacts.floats_length. exact Hy.
Qed.

(** X29: [main] never finishes a measurement when the parametric
    equalizer is asked for without equalization, or when the treble
    band is not a band ([treble_f_upper <= treble_f_lower]): the first
    is refused before anything is read, the second stops at [smoothen]
    at the latest, so [equalize] never divides by the zero width of
    such a band. *)
Theorem main_rejects (fuel : nat) (fr : FrequencyResponse)
    (calibration compensation : option FrequencyResponse)
    (equalize_ parametric_eq_ : bool) (max_filters : option nat)
    (bass_boost tilt max_gain treble_f_lower treble_f_upper
       treble_max_gain treble_gain_k : R)
    (out : FrequencyResponse * option (list (R * R * R))) :
  (parametric_eq_ = true /\ equalize_ = false) \/
  treble_f_upper <= treble_f_lower ->
  main spline savgol_filter find_peaks fit_biquads fuel fr calibration
    compensation equalize_ parametric_eq_ max_filters bass_boost tilt
    max_gain treble_f_lower treble_f_upper treble_max_gain treble_gain_k
  <> Some (Ok out).
Proof.
  intros Hbad H. unfold main in H.
  destruct (parametric_eq_ && negb equalize_) eqn:Eflags; [discriminate|].
  destruct Hbad as [[-> ->] | Hband]; [discriminate|].
  unfold process in H.
  destruct (interpolate_default spline fuel fr) as [r |]; [|discriminate].
  injection H as H.
  apply bind_Ok_inv in H. destruct H as (fr1 & _ & H).
  apply bind_Ok_inv in H. destruct H as (fr2 & _ & H).
  apply bind_Ok_inv in H. destruct H as (fr3 & _ & H).
  apply bind_Ok_inv in H. destruct H as (fr4 & _ & H).
  apply bind_Ok_inv in H. destruct H as (fr5 & H5 & _).
  unfold smoothen in H5. rewrite Rleb_true in H5 by exact Hband.
  discriminate.
Qed.

(** X30: a measurement that [main] finishes lies on the default grid of
    613 frequencies from 20 Hz to 20 kHz, whatever frequencies the input
    had, with one measured value per frequency and none missing; without
    [--equalize] it carries no equalization and no filters. *)
Theorem main_output_on_default_grid (fuel : nat) (fr : FrequencyResponse)
    (calibration compensation : option FrequencyResponse)
    (equalize_ parametric_eq_ : bool) (max_filters : option nat)
    (bass_boost tilt max_gain treble_f_lower treble_f_upper
       treble_max_gain treble_gain_k : R)
    (fr' : FrequencyResponse) (filters : option (list (R * R * R))) :
  main spline savgol_filter find_peaks fit_biquads fuel fr calibration
    compensation equalize_ parametric_eq_ max_filters bass_boost tilt
    max_gain treble_f_lower treble_f_upper treble_max_gain treble_gain_k
  = Some (Ok (fr', filters)) ->
  frequency fr' = map IZR Grid.default_frequencies /\
  length (frequency fr') = 613%nat /\
  length (raw fr') = 613%nat /\
  has_None (raw fr') = false /\
  (equalize_ = false ->
   equalization fr' = [] /\ parametric_eq fr' = [] /\
   equalized_raw fr' = [] /\ filters = None).
Proof.
  intros H. unfold main in H.
  destruct (parametric_eq_ && negb equalize_); [discriminate|].
  unfold process in H.
  destruct (interpolate_default spline fuel fr) as [r |] eqn:Ei;
    [|discriminate].
  injection H as H.
  apply bind_Ok_inv in H. destruct H as (fr1 & H1 & H). subst r.
  apply bind_Ok_inv in H. destruct H as (fr2 & H2 & H).
  apply bind_Ok_inv in H. destruct H as (fr3 & H3 & H).
  apply bind_Ok_inv in H. destruct H as (fr4 & H4 & H).
  apply bind_Ok_inv in H. destruct H as (fr5 & H5 & H).
  apply interpolate_default_grid in Ei. destruct Ei as (F1 & L1 & N1).
  assert (I2 : frequency fr2 = frequency fr1 /\
               length (raw fr2) = length (raw fr1) /\
               has_None (raw fr2) = false).
  { destruct calibration as [c |].
    - apply calibrate_inv in H2. exact H2.
    - injection H2 as <-. repeat split. exact N1. }
  destruct I2 as (F2 & L2 & N2).
  apply center_inv in H3. destruct H3 as (F3 & L3 & N3).
  assert (I4 : frequency fr4 = frequency fr3 /\ raw fr4 = raw fr3).
  { destruct compensation as [c |].
    - apply CompensationFacts.compensate_keeps in H4.
      destruct H4 as ((_ & Hf & Hr & _) & _). split; assumption.
    - injection H4 as <-. split; reflexivity. }
  destruct I4 as (F4 & R4).
  pose proof (SmoothFacts.smoothen_keeps _ _ _ _ _ _ _ _ _ H5) as S5.
  destruct S5 as ((_ & F5 & R5 & _ & _) & (Q1 & Q2 & Q3 & _) & _).
  assert (Hlen : length (map IZR Grid.default_frequencies) = 613%nat).
  { rewrite length_map. vm_compute. reflexivity. }
  assert (G5 : frequency fr5 = map IZR Grid.default_frequencies)
    by congruence.
  assert (L5 : length (raw fr5) = 613%nat).
  { rewrite R5, R4, L3, L2, L1, F1. exact Hlen. }
  assert (N5 : has_None (raw fr5) = false) by (rewrite R5, R4; exact N3).
  destruct equalize_.
  - apply bind_Ok_inv in H. destruct H as (fr6 & H6 & H).
    apply EqualizeChannels.equalize_keeps in H6.
    destruct H6 as ((_ & F6 & R6 & _) & _).
    assert (E7 : frequency fr' = frequency fr6 /\ raw fr' = raw fr6).
    { destruct parametric_eq_.
      - apply bind_Ok_inv in H. destruct H as ([fr7 fl] & H7 & H).
        injection H as <- _. cbn [fst].
        unfold optimize_parametric_eq in H7.
        destruct (negb (nonempty (equalization fr6))); [discriminate|].
        apply bind_Ok_inv in H7. destruct H7 as (r7 & _ & H7).
        injection H7 as <- _. split; reflexivity.
      - injection H as <- _. split; reflexivity. }
    destruct E7 as [F7 R7].
    rewrite F7, F6, R7, R6.
    split; [exact G5|]. split; [rewrite G5; exact Hlen|].
    split; [exact L5|]. split; [exact N5|]. discriminate.
  - injection H as <- <-.
    split; [exact G5|]. split; [rewrite G5; exact Hlen|].
    split; [exact L5|]. split; [exact N5|].
    intros _. repeat split; assumption.
Qed.

End Library.

(** *** A run of [main] with the library models *)

Lemma lib_spline_linear (xs ys : list R) :
  length xs = length ys -> (2 <= length xs)%nat ->
  Lib.InterpolatedUnivariateSpline xs ys 1 = Ok (Lib.linear_at xs ys).
Proof.
  intros Hl H2. unfold Lib.InterpolatedUnivariateSpline.
  rewrite <- Hl, Nat.eqb_refl. cbn [negb].
  destruct (Nat.leb (length xs) 1) eqn:E; [|reflexivity].
  apply Nat.leb_le in E. lia.
Qed.

Lemma center_runs (fr : FrequencyResponse) :
  has_None (raw fr) = false ->
  length (raw fr) = length (frequency fr) ->
  (2 <= length (frequency fr))%nat ->
  smoothed fr = [] ->
  exists fr', center Lib.InterpolatedUnivariateSpline fr = Ok fr'.
Proof.
  intros Hn Hl H2 Hs. unfold center, isub_scalar.
  destruct (floats_total _ Hn) as [y Hy]. rewrite Hy. cbn [bind].
  pose proof (ResetFacts.floats_length _ _ Hy) as Ly.
  rewrite lib_spline_linear by (rewrite ?length_map; lia).
  cbn [bind set_raw smoothed]. rewrite Hs. cbn [nonempty bind].
  eexists. reflexivity.
Qed.

(** On data without missing values, on a grid whose steps make both
    windows longer than the order of the filter and not longer than the
    data, [smoothen] with the fixed filter returns. *)
Lemma smoothen_runs (fr : FrequencyResponse) (w : R) (n : nat)
    (tw : option R) (tn : option nat) (f_lower f_upper lo hi : R) :
  steps (frequency fr) <> [] ->
  Forall (fun s => lo <= s <= hi) (steps (frequency fr)) ->
  1 < lo ->
  (forall o : R,
      o = w \/ o = match tw with Some x => x | None => w end ->
      0 <= o /\
      3 / 2 * (hi - 1) < o * (7 / 12) /\
      o * (47 / 60) * lo
      <= (INR (length (frequency fr)) - 3 / 2) * (lo - 1)) ->
  has_None (raw fr) = false ->
  length (raw fr) = length (frequency fr) ->
  error fr = [] ->
  f_lower < f_upper ->
  exists fr', smoothen Lib.savgol_fixed fr w n tw tn f_lower f_upper = Ok fr'.
Proof.
  intros Hne Hst Hlo Hoct Hn Hl He Hband. unfold smoothen.
  rewrite Rleb_false by exact Hband.
  unfold _smoothen_data. rewrite Hn.
  destruct (floats_total _ Hn) as [y Hy]. rewrite Hy. cbn [bind].
  pose proof (ResetFacts.floats_length _ _ Hy) as Ly.
  destruct (Hoct w (or_introl eq_refl)) as (Hw0 & Hwl & Hwu).
  destruct (Hoct _ (or_intror eq_refl)) as (Ht0 & Htl & Htu).
  destruct (WindowRange.window_size_savgol fr w lo hi
              (length (frequency fr)) Hne Hst Hlo Hw0 Hwl Hwu)
    as (w1 & Hw1 & Hw1l & Hw1u).
  destruct (WindowRange.window_size_savgol fr
              match tw with Some x => x | None => w end lo hi
              (length (frequency fr)) Hne Hst Hlo Ht0 Htl Htu)
    as (w2 & Hw2 & Hw2l & Hw2u).
  rewrite (PeakFacts.savgol_iterate_fixed _ _ _ _ _ Hw1) by lia.
  rewrite (PeakFacts.savgol_iterate_fixed _ _ _ _ _ Hw2) by lia.
  cbn [bind].
  set (kt := _sigmoid fr f_lower f_upper 0 1).
  assert (Lkt : length kt = length (frequency fr))
    by (unfold kt, _sigmoid; apply length_map).
  rewrite (broadcast_same Rmult y (map _ kt)) by (rewrite length_map; lia).
  cbn [bind].
  rewrite (broadcast_same Rmult y kt) by lia. cbn [bind].
  rewrite broadcast_same
    by (rewrite !length_zip_with; rewrite ?length_map; lia).
  cbn [bind set_smoothed error]. rewrite He. cbn [nonempty bind].
  eexists. reflexivity.
Qed.

Lemma increasing_sorted (G : list Z) :
  Grid.strictly_increasing G = true -> Sorted.Sorted Rlt (map IZR G).
Proof.
  induction G as [| x t IH]; intros H; [constructor|].
  pose proof (ClipFacts.increasing_tail _ _ H) as Ht.
  cbn [map]. constructor; [apply IH; exact Ht|].
  destruct t as [| y u]; [constructor|].
  cbn [map]. constructor.
  cbn [Grid.strictly_increasing] in H. apply andb_true_iff in H.
  destruct H as [H _]. apply Z.ltb_lt in H. apply IZR_lt. exact H.
Qed.

Lemma positive_grid (G : list Z) :
  forallb (Z.ltb 0) G = true -> Forall (fun f => 0 < f) (map IZR G).
Proof.
  induction G as [| x t IH]; intros H; [constructor|].
  cbn [forallb] in H. apply andb_true_iff in H. destruct H as [Hx Ht].
  cbn [map]. constructor; [|apply IH; exact Ht].
  apply Z.ltb_lt in Hx. apply (IZR_lt 0). exact Hx.
Qed.

Lemma main_runs :
  exists fr' : FrequencyResponse,
    main Lib.InterpolatedUnivariateSpline Lib.savgol_fixed Lib.find_peaks
      (fun _ _ _ _ _ => ([], 0, [])) 695 Examples.raw_only None None
      false false None 0 0 6 6000 8000 0 1
    = Some (Ok (fr', None)).
Proof.
  unfold main. cbn [andb negb]. unfold process.
  assert (H1 : exists fr1,
             interpolate_default Lib.InterpolatedUnivariateSpline 695
               Examples.raw_only = Some (Ok fr1) /\
             smoothed fr1 = [] /\ error fr1 = []).
  { unfold interpolate_default, interpolate, Examples.raw_only.
    cbn [raw frequency drop_None bind fst snd].
    rewrite lib_spline_linear by (simpl; lia).
    pose proof (GridFacts.generate_frequencies_default 0) as HG.
    unfold Grid.DEFAULT_F_MIN, Grid.DEFAULT_F_MAX, Grid.DEFAULT_STEP in HG.
    change (695 + 0)%nat with 695%nat in HG. rewrite HG.
    cbn [option_map]. eexists. split; [reflexivity|].
    split; reflexivity. }
  destruct H1 as (fr1 & H1 & Hs1 & He1). rewrite H1. cbn [bind].
  destruct (interpolate_default_grid _ _ _ _ H1) as (F1 & L1 & N1).
  assert (Hlen : length (map IZR Grid.default_frequencies) = 613%nat).
  { rewrite length_map. vm_compute. reflexivity. }
  destruct (center_runs fr1 N1 L1) as [fr3 H3];
    [rewrite F1, Hlen; lia | exact Hs1 |].
  rewrite H3. cbn [bind].
  destruct (center_inv _ _ _ H3) as (F3 & L3 & N3).
  destruct (ResetFacts.center_resets _ _ _ H3) as ((E3 & _) & _ & _).
  destruct (smoothen_runs fr3 DEFAULT_SMOOTHING_WINDOW_SIZE
              DEFAULT_SMOOTHING_ITERATIONS
              (Some DEFAULT_TREBLE_SMOOTHING_WINDOW_SIZE)
              (Some DEFAULT_TREBLE_SMOOTHING_ITERATIONS) 6000 8000
              (1005 / 1000) (105 / 100))
    as [fr5 H5].
  - rewrite F3, F1. intros Hc.
    apply (f_equal (@length R)) in Hc.
    rewrite WindowRange.steps_length, Hlen in Hc. discriminate Hc.
  - rewrite F3, F1.
    apply (WindowRange.steps_within_range 1005 1000 105 100);
      [lia | lia | exact WindowRange.default_grid_steps].
  - lra.
  - rewrite F3, F1, Hlen.
    replace (INR 613) with 613 by (rewrite INR_IZR_INZ; reflexivity).
    unfold DEFAULT_SMOOTHING_WINDOW_SIZE,
      DEFAULT_TREBLE_SMOOTHING_WINDOW_SIZE.
    intros o [-> | ->]; lra.
  - exact N3.
  - rewrite L3, L1, F3. reflexivity.
  - exact E3.
  - lra.
  - rewrite H5. cbn [bind]. exists fr5. reflexivity.
Qed.

Lemma main_output_on_default_grid_witness :
  exists fr' : FrequencyResponse,
    main Lib.InterpolatedUnivariateSpline Lib.savgol_fixed Lib.find_peaks
      (fun _ _ _ _ _ => ([], 0, [])) 695 Examples.raw_only None None
      false false None 0 0 6 6000 8000 0 1
    = Some (Ok (fr', None)) /\
    length (frequency fr') = 613%nat /\
    length (raw fr') = 613%nat /\
    equalization fr' = [].
Proof.
  destruct main_runs as [fr' Hrun]. exists fr'. split; [exact Hrun|].
  destruct (main_output_on_default_grid Lib.InterpolatedUnivariateSpline
              Lib.savgol_fixed Lib.find_peaks (fun _ _ _ _ _ => ([], 0, []))
              695 Examples.raw_only None None false false None
              0 0 6 6000 8000 0 1 fr' None Hrun)
    as (_ & HF & HR & _ & HE).
  split; [exact HF|]. split; [exact HR|]. apply HE. reflexivity.
Defined.

Lemma main_rejects_witness :
  main Lib.InterpolatedUnivariateSpline Lib.savgol_fixed Lib.find_peaks
    (fun _ _ _ _ _ => ([], 0, [])) 695 Examples.raw_only None None
    true false None 0 0 6 8000 6000 0 1
  <> Some (Ok (Examples.raw_only, None)).
Proof.
  apply (main_rejects Lib.InterpolatedUnivariateSpline Lib.savgol_fixed
           Lib.find_peaks (fun _ _ _ _ _ => ([], 0, [])) 695
           Examples.raw_only None None true false None
           0 0 6 8000 6000 0 1 (Examples.raw_only, None)).
  right. lra.
Defined.

End MainFacts.
